(** * CEASIOMpy: lumped-mass inertia and wing topology reconstruction

    A shallow embedding of
    - [ceasiompy/BalanceUnconventional/func/Inertia/lumpedmassesinertia.py]
      ([fuselage_inertia], [wing_inertia], [engine_inertia]),
    - [ceasiompy/utils/WB/UncGeometry/NoFuseGeom/bwbwingsanalysis.py]
      ([check_segment_connection], [getwingsegmentlength], and of
      [geom_eval] the counting loop, the choice of the main wing, the
      wetted areas and the segment centres with their symmetry step),
    - [ceasiompy/utils/moduleinterfaces.py] ([CPACSInOut],
      [check_cpacs_input_requirements]) and
    - the string helpers of [ceasiompy/SettingsGUI/settingsgui.py]
      ([pretty_unit], [pretty_exponent], [wrap_in_brackets]).

    Conventions of the embedding.
    - Python floats are idealised as exact rationals ([Q]); equality of
      computed quantities is [Qeq] ([==]).  Section and segment indices,
      loop counters and subdivision counts are integers ([Z]).
    - [math.sqrt], [np.sqrt], [np.cos], [np.sin] and [np.pi] have no
      rational counterpart; the functions that call them take them as
      parameters.
    - The TiGL handle is the geometry oracle: a record of total functions.
    - A Python exception is an explicit [Raise] result.
    - The three parallel coordinate lists of a point cloud ([wx], [wy],
      [wz]) are always extended together; they are kept as one list of
      points.
    - A Python [str] is the list of its code points. *)

From Stdlib Require Import ZArith QArith Qround List Bool Lia Lqa.
From Stdlib Require String Ascii.
Import ListNotations.
Import String.StringSyntax.
Delimit Scope string_scope with string.

Local Open Scope Z_scope.
Local Open Scope Q_scope.

(** ** Python results *)

Inductive exn : Type :=
| ValueError
| IndexError
| NameError
| ZeroDivisionError
| OverflowError.

Inductive res (A : Type) : Type :=
| Ok (a : A)
| Raise (e : exn).

Arguments Ok {A} a.
Arguments Raise {A} e.

Definition bind {A B : Type} (c : res A) (k : A -> res B) : res B :=
  match c with
  | Ok a => k a
  | Raise e => Raise e
  end.

Notation "x <- c ;; k" := (bind c (fun x => k))
  (at level 61, c at next level, right associativity).
Notation "' p <- c ;; k" := (bind c (fun x => match x with p => k end))
  (at level 61, p pattern, c at next level, right associativity).

(** A [for] loop whose body may raise: the state is threaded through the
    items in order and the first exception stops the loop. *)
Fixpoint for_each {A S : Type} (items : list A) (body : A -> S -> res S)
  (s : S) : res S :=
  match items with
  | [] => Ok s
  | a :: rest => s' <- body a s ;; for_each rest body s'
  end.

(** [range(lo, hi)] *)
Definition py_range (lo hi : Z) : list Z :=
  map (fun k => (lo + Z.of_nat k)%Z) (seq 0 (Z.to_nat (hi - lo))).

(** [int(x)] on a float: truncation towards zero. *)
Definition py_int (x : Q) : Z := Z.quot (Qnum x) (Z.pos (Qden x)).

(** Indexing a sequence with an integer: negative indices count from the
    end, anything outside raises [IndexError]. *)
Definition py_index {A : Type} (l : list A) (k : Z) : res A :=
  let n := Z.of_nat (length l) in
  let k' := if (k <? 0)%Z then (k + n)%Z else k in
  if ((0 <=? k') && (k' <? n))%bool
  then match nth_error l (Z.to_nat k') with
       | Some a => Ok a
       | None => Raise IndexError
       end
  else Raise IndexError.

(** [l[k] = v] *)
Definition list_set {A : Type} (l : list A) (k : Z) (v : A) : res (list A) :=
  let n := Z.of_nat (length l) in
  let k' := if (k <? 0)%Z then (k + n)%Z else k in
  if ((0 <=? k') && (k' <? n))%bool
  then Ok (firstn (Z.to_nat k') l ++ v :: skipn (S (Z.to_nat k')) l)
  else Raise IndexError.

(** [np.amax] of a one-dimensional array. *)
Definition np_amax (l : list Z) : res Z :=
  match l with
  | [] => Raise ValueError
  | x :: rest => Ok (fold_left Z.max rest x)
  end.

(** [x < y] on floats. *)
Definition Qltb (x y : Q) : bool := negb (Qle_bool y x).

(** ** Points, point clouds and the inertia tensor *)

Definition point : Type := (Q * Q * Q)%type.

Definition px (p : point) : Q := fst (fst p).
Definition py (p : point) : Q := snd (fst p).
Definition pz (p : point) : Q := snd p.

Record tensor : Type := mkTensor {
  Ixx : Q; Iyy : Q; Izz : Q; Ixy : Q; Iyz : Q; Ixz : Q
}.

Definition tensor_zero : tensor := mkTensor 0 0 0 0 0 0.

Definition tensor_add (s t : tensor) : tensor :=
  mkTensor (Ixx s + Ixx t) (Iyy s + Iyy t) (Izz s + Izz t)
           (Ixy s + Ixy t) (Iyz s + Iyz t) (Ixz s + Ixz t).

(** [np.sum] of an array. *)
Definition np_sum (l : list Q) : Q := fold_left Qplus l 0.

(** ** [engine_inertia] *)

Record EngineData : Type := mkEngineData {
  NE : Z;
  EN_PLACEMENT : list point;   (* rows [e, 0..2] *)
  en_mass : Q
}.

Definition engine_step (center_of_gravity : point) (ed : EngineData)
  (e : Z) (t : tensor) : res tensor :=
  p <- py_index (EN_PLACEMENT ed) e ;;
  let cx := px p - px center_of_gravity in
  let cy := py p - py center_of_gravity in
  let cz := pz p - pz center_of_gravity in
  Ok (mkTensor (Ixx t + en_mass ed * (cy ^ 2 + cz ^ 2))
               (Iyy t + en_mass ed * (cx ^ 2 + cz ^ 2))
               (Izz t + en_mass ed * (cx ^ 2 + cy ^ 2))
               (Ixy t + en_mass ed * cx * cy)
               (Iyz t + en_mass ed * cy * cz)
               (Ixz t + en_mass ed * cx * cx)).

Definition engine_inertia (center_of_gravity : point) (ed : EngineData)
  : res tensor :=
  for_each (py_range 0 (NE ed)) (engine_step center_of_gravity ed)
           tensor_zero.

(** ** The geometry oracle (TiGL handle) *)

Record Tigl : Type := mkTigl {
  wingGetInnerSectionAndElementIndex : Z -> Z -> Z * Z;
  wingGetOuterSectionAndElementIndex : Z -> Z -> Z * Z;
  wingGetChordPoint : Z -> Z -> Q -> Q -> point;
  wingGetLowerPoint : Z -> Z -> Q -> Q -> point;
  wingGetUpperPoint : Z -> Z -> Q -> Q -> point;
  fuselageGetPoint : Z -> Z -> Q -> Q -> point
}.

(** ** [AircraftWingGeometry]

    A row of [seg_sec] is (start section, end section, segment id).  The
    arrays indexed [[row, wing]] in the source ([w_seg_sec],
    [wing_seg_length], [wing_center_seg_point], [mass_seg_i]) are stored
    wing by wing: [a[r][c]] of the source is row [r] of column [c] here. *)

Definition seg_row : Type := (Z * Z * Z)%type.

Definition seg_start (r : seg_row) : Z := fst (fst r).
Definition seg_end (r : seg_row) : Z := snd (fst r).
Definition seg_id (r : seg_row) : Z := snd r.

Record AircraftWingGeometry : Type := mkAWG {
  w_nb : Z;
  wing_nb : Z;
  wing_sym : list Z;
  wing_seg_nb : list Z;
  wing_plt_area : list Q;
  w_seg_sec : list (list seg_row);
  wing_seg_length : list (list Q);
  wing_center_seg_point : list (list point)
}.

(** [a[r][c]] / [a[r, c]] on an array stored by columns. *)
Definition at_rc {A : Type} (a : list (list A)) (r c : Z) : res A :=
  col <- py_index a c ;; py_index col r.

(** ** The six sums of the lumped-mass accumulation

    [M] is the mass of one point, [cg] the centre of gravity and [pts] the
    point cloud of one segment: the six [np.sum] lines of
    [fuselage_inertia] and [wing_inertia]. *)
Definition lumped_tensor (M : Q) (cg : point) (pts : list point) : tensor :=
  let cx p := px p - px cg in
  let cy p := py p - py cg in
  let cz p := pz p - pz cg in
  mkTensor (np_sum (map (fun p => M * (cy p ^ 2 + cz p ^ 2)) pts))
           (np_sum (map (fun p => M * (cx p ^ 2 + cz p ^ 2)) pts))
           (np_sum (map (fun p => M * (cx p ^ 2 + cy p ^ 2)) pts))
           (np_sum (map (fun p => M * cx p * cy p) pts))
           (np_sum (map (fun p => M * cy p * cz p) pts))
           (np_sum (map (fun p => M * cx p * cz p) pts)).

(** [mass / np.max(np.shape(pts))].  With no point at all NumPy yields
    inf or nan without raising, and every sum over the empty cloud is 0;
    [Qdiv] by 0 is 0 and gives the same sums. *)
Definition point_mass (mass : Q) (pts : list point) : Q :=
  mass / inject_Z (Z.of_nat (length pts)).

(** [math.ceil(x / SPACING)].  A zero spacing makes the quotient inf or
    nan, which [math.ceil] / [int] refuse. *)
Definition ceil_div (x spacing : Q) : res Z :=
  if Qeq_bool spacing 0
  then if Qeq_bool x 0 then Raise ValueError else Raise OverflowError
  else Ok (Qceiling (x / spacing)).

(** [if subd == 0: subd = 1] *)
Definition clamp_subd (subd : Z) : Z :=
  if (subd =? 0)%Z then 1%Z else subd.

(** ** [wing_inertia] *)

(** [DEN = 0.0; for d in range(int(subd_c+2)): DEN = DEN + d] *)
Definition wing_DEN (subd_c : Q) : Q :=
  fold_left (fun den d => den + inject_Z d)
            (py_range 0 (py_int (subd_c + 2))) 0.

(** [zeta = 1.0/DEN] *)
Definition wing_zeta (subd_c : Q) : res Q :=
  let den := wing_DEN subd_c in
  if Qeq_bool den 0 then Raise ZeroDivisionError else Ok (1 / den).

(** One turn of the [k] loop on the chordwise coordinate. *)
Definition ze_step (ZLE zeta : Q) (k : Z) (ze : Q) : Q :=
  if Qeq_bool ZLE 0 then ze + inject_Z k * zeta
  else if Qeq_bool ZLE 1 then ze - inject_Z k * zeta
  else ze.

(** The [k] loop: the points appended to [wx], [wy], [wz]. *)
Fixpoint chord_loop (tigl : Tigl) (w i : Z) (et ZLE zeta : Q)
  (ks : list Z) (ze : Q) : list point :=
  match ks with
  | [] => []
  | k :: ks' =>
      let ze' := ze_step ZLE zeta k ze in
      wingGetLowerPoint tigl w i et ze'
        :: wingGetUpperPoint tigl w i et ze'
        :: chord_loop tigl w i et ZLE zeta ks' ze'
  end.

(** The values of [ze] with which the [k] loop queries the oracle. *)
Fixpoint chord_params (ZLE zeta : Q) (ks : list Z) (ze : Q) : list Q :=
  match ks with
  | [] => []
  | k :: ks' =>
      let ze' := ze_step ZLE zeta k ze in
      ze' :: chord_params ZLE zeta ks' ze'
  end.

(** [ZLE] (and the initial [ze]) at a spanwise station. *)
Definition station_ZLE (tigl : Tigl) (w i : Z) (et : Q) : Q :=
  if Qltb (px (wingGetLowerPoint tigl w i et 0))
          (px (wingGetLowerPoint tigl w i et 1))
  then 0 else 1.

(** The body of the [j] loop: the points sampled at the spanwise
    coordinate [et]. *)
Definition station_points (tigl : Tigl) (subd_c zeta : Q) (w i : Z)
  (et : Q) : list point :=
  let ZLE := station_ZLE tigl w i et in
  wingGetLowerPoint tigl w i et 0
    :: wingGetLowerPoint tigl w i et 1
    :: chord_loop tigl w i et ZLE zeta
                  (py_range 0 (py_int subd_c + 1)) ZLE.

(** The chordwise coordinates passed to the oracle at one station. *)
Definition station_params (ZLE subd_c zeta : Q) : list Q :=
  0 :: 1 :: chord_params ZLE zeta (py_range 0 (py_int subd_c + 1)) ZLE.

(** The [j] loop: the cloud [wx, wy, wz] of segment [i] of wing [w]. *)
Definition wing_segment_points (tigl : Tigl) (subd_c zeta : Q) (w i : Z)
  (subd_l : Z) : list point :=
  let eta := 1 / inject_Z subd_l in
  flat_map (fun j => station_points tigl subd_c zeta w i (inject_Z j * eta))
           (py_range 0 (subd_l + 1)).

(** The signs [(symx, symy, symz)] bound by the [if]/[elif] chain; they
    stay as they were (possibly unbound) for any other code.  In the
    source the three are arrays of the size of the cloud that bound them:
    for a code other than 0, 1, 2 and 3 the product with a cloud of
    another size raises, where the scalars kept here multiply any
    cloud. *)
Definition wing_sym_signs (sym : Z) (old : option point) : option point :=
  if (sym =? 1)%Z then Some (1, 1, -1)
  else if (sym =? 2)%Z then Some (1, -1, 1)
  else if (sym =? 3)%Z then Some (-1, 1, 1)
  else old.

(** [wx * symx], [wy * symy], [wz * symz] *)
Definition mirror_point (signs p : point) : point :=
  (px p * px signs, py p * py signs, pz p * pz signs).

Definition mirror_points (signs : point) (pts : list point) : list point :=
  map (mirror_point signs) pts.

(** The state carried by the loops of [wing_inertia]. *)
Record wing_state : Type := mkWingState {
  ws_I : tensor;            (* Ixx .. Ixz *)
  ws_sw : list point;       (* swx, swy, swz *)
  ws_a : Z;                 (* a *)
  ws_signs : option point   (* symx, symy, symz, once bound *)
}.

(** The cloud sampled on a segment: the mass read in [mass_seg_i], the
    mass of one point and the tensor of the cloud. *)
Record own_cloud : Type := mkOwn {
  ow_pts : list point;   (* wx, wy, wz *)
  ow_mass : Q;
  ow_M : Q;
  ow_I : tensor
}.

(** The mirrored cloud of a segment, the mass of one of its points and
    its tensor. *)
Record mirrored : Type := mkMirrored {
  mi_pts : list point;   (* wx_t, wy_t, wz_t *)
  mi_M : Q;
  mi_I : tensor
}.

(** What one segment contributes: its own cloud, and the mirrored one when
    the wing has a symmetry plane. *)
Record segment_result : Type := mkSegmentResult {
  sr_own : own_cloud;
  sr_mirror : option mirrored;
  sr_signs : option point
}.

(** The spanwise subdivision count (lines 197-199). *)
Definition wing_subd_l (SPACING : Q) (awg : AircraftWingGeometry)
  (w a i : Z) : res Z :=
  len <- at_rc (wing_seg_length awg) (i - 1) (w + a - 1) ;;
  subd_l <- ceil_div len SPACING ;;
  Ok (clamp_subd subd_l).

(** The sampling of a segment and its accumulation (lines 193-241). *)
Definition wing_segment_own (tigl : Tigl) (subd_c SPACING : Q) (fuse : Z)
  (cg : point) (mass_seg_i : list (list Q)) (awg : AircraftWingGeometry)
  (zeta : Q) (w a i : Z) : res own_cloud :=
  subd_l <- wing_subd_l SPACING awg w a i ;;
  _ <- at_rc (wing_center_seg_point awg) (i - 1) (w + a - 1) ;;
  let pts := wing_segment_points tigl subd_c zeta w i subd_l in
  mass <- at_rc mass_seg_i (i - 1) (fuse + w + a - 1) ;;
  let M := point_mass mass pts in
  Ok (mkOwn pts mass M (lumped_tensor M cg pts)).

(** The mirrored pass of a segment (lines 242-270). *)
Definition wing_mirror (cg : point) (mass : Q) (sym : Z)
  (old : option point) (pts : list point)
  : res (option mirrored * option point) :=
  if (sym =? 0)%Z then Ok (None, old)
  else
    let bound := wing_sym_signs sym old in
    match bound with
    | None => Raise NameError
    | Some signs =>
        let pts_t := mirror_points signs pts in
        let M := point_mass mass pts_t in
        Ok (Some (mkMirrored pts_t M (lumped_tensor M cg pts_t)), bound)
    end.

(** The body of the loop over the segments of wing [w] (lines 193-270). *)
Definition wing_segment (tigl : Tigl) (subd_c SPACING : Q) (fuse : Z)
  (cg : point) (mass_seg_i : list (list Q)) (awg : AircraftWingGeometry)
  (zeta : Q) (w a i : Z) (old : option point) : res segment_result :=
  o <- wing_segment_own tigl subd_c SPACING fuse cg mass_seg_i awg zeta
                        w a i ;;
  sym <- py_index (wing_sym awg) (w - 1) ;;
  '(mir, signs) <- wing_mirror cg (ow_mass o) sym old (ow_pts o) ;;
  Ok (mkSegmentResult o mir signs).

(** The accumulators after the sampled cloud: [Ixx += ...] and
    [swx.extend(...)]. *)
Definition wing_own_acc (s : wing_state) (o : own_cloud) : wing_state :=
  mkWingState (tensor_add (ws_I s) (ow_I o))
              (ws_sw s ++ ow_pts o)
              (ws_a s) (ws_signs s).

(** The accumulators after a segment: the sampled cloud, then the mirrored
    one when there is one. *)
Definition wing_segment_acc (s : wing_state) (r : segment_result)
  : wing_state :=
  let s1 := wing_own_acc s (sr_own r) in
  match sr_mirror r with
  | None => mkWingState (ws_I s1) (ws_sw s1) (ws_a s1) (sr_signs r)
  | Some m =>
      mkWingState (tensor_add (ws_I s1) (mi_I m))
                  (ws_sw s1 ++ mi_pts m)
                  (ws_a s1) (sr_signs r)
  end.

(** [for i in awg.w_seg_sec[:,w-1,2]: if i == 0.0: break ...] *)
Fixpoint wing_segments (tigl : Tigl) (subd_c SPACING : Q) (fuse : Z)
  (cg : point) (mass_seg_i : list (list Q)) (awg : AircraftWingGeometry)
  (zeta : Q) (w : Z) (ids : list Z) (s : wing_state) : res wing_state :=
  match ids with
  | [] => Ok s
  | i :: rest =>
      if (i =? 0)%Z then Ok s
      else
        r <- wing_segment tigl subd_c SPACING fuse cg mass_seg_i awg zeta
                          w (ws_a s) i (ws_signs s) ;;
        wing_segments tigl subd_c SPACING fuse cg mass_seg_i awg zeta w
                      rest (wing_segment_acc s r)
  end.

(** The body of the loop over the wings (lines 186-272). *)
Definition wing_body (tigl : Tigl) (subd_c SPACING : Q) (fuse : Z)
  (cg : point) (mass_seg_i : list (list Q)) (awg : AircraftWingGeometry)
  (w : Z) (s : wing_state) : res wing_state :=
  zeta <- wing_zeta subd_c ;;
  col <- py_index (w_seg_sec awg) (w - 1) ;;
  s' <- wing_segments tigl subd_c SPACING fuse cg mass_seg_i awg zeta w
                      (map seg_id col) s ;;
  sym <- py_index (wing_sym awg) (w - 1) ;;
  Ok (if (sym =? 0)%Z then s'
      else mkWingState (ws_I s') (ws_sw s') (ws_a s' + 1) (ws_signs s')).

Definition wing_state_init : wing_state :=
  mkWingState tensor_zero [] 0 None.

Definition wing_inertia (tigl : Tigl) (subd_c SPACING : Q) (fuse : Z)
  (cg : point) (mass_seg_i : list (list Q)) (awg : AircraftWingGeometry)
  : res (list point * tensor) :=
  s <- for_each (py_range 1 (w_nb awg + 1))
                (wing_body tigl subd_c SPACING fuse cg mass_seg_i awg)
                wing_state_init ;;
  Ok (ws_sw s, ws_I s).

(** ** [fuselage_inertia] *)

(** The functions of [math] and [numpy] on floats that the code calls. *)
Record MathLib : Type := mkMathLib {
  np_sqrt : Q -> Q;
  np_cos : Q -> Q;
  np_sin : Q -> Q;
  np_pi : Q
}.

Record AircraftFuseGeometry : Type := mkAFG {
  f_nb : Z;
  f_seg_sec : list (list seg_row);
  fuse_seg_length : list (list Q);
  fuse_sec_per : list (list Q);
  fuse_sec_width : list (list Q);
  fuse_center_section_point : list (list point)
}.

(** The three subdivision counts of a fuselage segment (lines 85-95):
    longitudinal, circumferential, radial. *)
Definition fuse_subdivisions (SPACING : Q) (afg : AircraftFuseGeometry)
  (f i : Z) : res (Z * Z * Z) :=
  len <- at_rc (fuse_seg_length afg) (i - 1) (f - 1) ;;
  subd_l <- ceil_div len SPACING ;;
  per <- at_rc (fuse_sec_per afg) (i - 1) (f - 1) ;;
  SUBD_C0 <- ceil_div per SPACING ;;
  width <- at_rc (fuse_sec_width afg) (i - 1) (f - 1) ;;
  subd_r <- ceil_div (width / 2) SPACING ;;
  Ok (clamp_subd subd_l, clamp_subd SUBD_C0, clamp_subd subd_r).

(** [D0 = np.sqrt(np.arange(n) / float(n))] *)
Definition fuse_D0 (m : MathLib) (n : Z) : list Q :=
  map (fun t => np_sqrt m (inject_Z t / inject_Z n)) (py_range 0 n).

(** [D = np.array([t for t in (D0 - (D0[-1] - 0.98)) if not t < 0])] *)
Definition fuse_D (m : MathLib) (n : Z) : res (list Q) :=
  let D0 := fuse_D0 m n in
  last <- py_index D0 (-1) ;;
  Ok (filter (fun t => Qle_bool 0 t)
             (map (fun t => t - (last - (98 # 100))) D0)).

(** The [k] loop at the longitudinal coordinate [et]. *)
Definition ring_points (tigl : Tigl) (f i : Z) (et zeta : Q) (SUBD_C0 : Z)
  : list point :=
  map (fun k => fuselageGetPoint tigl f i et (inject_Z k * zeta))
      (py_range 0 (SUBD_C0 + 1)).

(** The interior points scattered around the centre [(xc, yc, zc)]:
    radii [deltar] and angles [theta] (lines 113-117). *)
Definition spoke_points (m : MathLib) (D : list Q) (c p0 : point)
  : list point :=
  let r := np_sqrt m ((py p0 - py c) ^ 2 + (pz p0 - pz c) ^ 2) in
  map (fun dk =>
         let deltar := r * fst dk in
         let theta := np_pi m * (3 - np_sqrt m 5) * inject_Z (snd dk) in
         (px p0, py c + deltar * np_cos m theta,
                 pz c + deltar * np_sin m theta))
      (combine D (py_range 0 (Z.of_nat (length D)))).

(** [(x0, y0, z0)] after the [k] loop: the last point queried, or what it
    was before when the loop did not run. *)
Definition last_point (old : option point) (pts : list point)
  : option point :=
  match rev pts with
  | [] => old
  | p :: _ => Some p
  end.

(** The body of the [j] loop (lines 102-123): the points appended and the
    binding of [(x0, y0, z0)]. *)
Definition fuse_station (m : MathLib) (tigl : Tigl) (f i : Z)
  (eta zeta : Q) (SUBD_C0 subd_r : Z) (D : list Q) (c : point) (j : Z)
  (st : list point * option point) : res (list point * option point) :=
  let '(fpts, old) := st in
  let ring := ring_points tigl f i (inject_Z j * eta) zeta SUBD_C0 in
  let p0 := last_point old ring in
  if (0 <? subd_r)%Z
  then match p0 with
       | None => Raise NameError
       | Some p => Ok (fpts ++ ring ++ spoke_points m D c p, p0)
       end
  else Ok (fpts ++ ring, p0).

Record fuse_state : Type := mkFuseState {
  fs_I : tensor;             (* Ixx .. Ixz *)
  fs_sf : list point;        (* sfx, sfy, sfz *)
  fs_p0 : option point       (* x0, y0, z0, once bound *)
}.

(** The cloud [fx, fy, fz] of a fuselage segment with the mass of one of
    its points. *)
Record fuse_segment_result : Type := mkFuseSegmentResult {
  fr_pts : list point;
  fr_M : Q;
  fr_mass : Q;
  fr_subd : Z * Z * Z;
  fr_p0 : option point
}.

(** The body of the loop over the segments of fuselage [f]
    (lines 81-124). *)
Definition fuse_segment (m : MathLib) (tigl : Tigl) (SPACING : Q)
  (mass_seg_i : list (list Q)) (afg : AircraftFuseGeometry) (f i : Z)
  (old : option point) : res fuse_segment_result :=
  '(subd_l, SUBD_C0, subd_r) <- fuse_subdivisions SPACING afg f i ;;
  let eta := 1 / inject_Z subd_l in
  let zeta := 1 / inject_Z SUBD_C0 in
  D <- fuse_D m (subd_r * SUBD_C0) ;;
  c <- at_rc (fuse_center_section_point afg) (i - 1) (f - 1) ;;
  '(fpts, p0) <- for_each (py_range 0 (subd_l + 1))
                    (fuse_station m tigl f i eta zeta SUBD_C0 subd_r D c)
                    ([], old) ;;
  mass <- at_rc mass_seg_i (i - 1) (f - 1) ;;
  Ok (mkFuseSegmentResult fpts (point_mass mass fpts) mass
                          (subd_l, SUBD_C0, subd_r) p0).

(** The accumulators after a segment (lines 109-111, 121-133). *)
Definition fuse_acc (cg : point) (s : fuse_state) (r : fuse_segment_result)
  : fuse_state :=
  mkFuseState (tensor_add (fs_I s) (lumped_tensor (fr_M r) cg (fr_pts r)))
              (fs_sf s ++ fr_pts r)
              (fr_p0 r).

Definition fuse_segment_step (m : MathLib) (tigl : Tigl) (SPACING : Q)
  (cg : point) (mass_seg_i : list (list Q)) (afg : AircraftFuseGeometry)
  (f i : Z) (s : fuse_state) : res fuse_state :=
  r <- fuse_segment m tigl SPACING mass_seg_i afg f i (fs_p0 s) ;;
  Ok (fuse_acc cg s r).

(** The body of the loop over the fuselages. *)
Definition fuse_body (m : MathLib) (tigl : Tigl) (SPACING : Q)
  (cg : point) (mass_seg_i : list (list Q)) (afg : AircraftFuseGeometry)
  (f : Z) (s : fuse_state) : res fuse_state :=
  col <- py_index (f_seg_sec afg) (f - 1) ;;
  for_each (map seg_id col)
           (fuse_segment_step m tigl SPACING cg mass_seg_i afg f) s.

Definition fuselage_inertia (m : MathLib) (tigl : Tigl) (SPACING : Q)
  (cg : point) (mass_seg_i : list (list Q)) (afg : AircraftFuseGeometry)
  : res (list point * tensor) :=
  s <- for_each (py_range 1 (f_nb afg + 1))
                (fuse_body m tigl SPACING cg mass_seg_i afg)
                (mkFuseState tensor_zero [] None) ;;
  Ok (fs_sf s, fs_I s).

(** ** [check_segment_connection] *)

Definition zero_row : seg_row := (0, 0, 0)%Z.

(** Column [i-1] of [seg_sec] after the first [j] loop (lines 88-93): the
    rows of the [n] segments of wing [i], then the zeros of the
    initialisation, [nbmax] rows in all. *)
Definition seg_sec_column (tigl : Tigl) (nbmax i n : Z) : list seg_row :=
  firstn (Z.to_nat nbmax)
    (map (fun j => (fst (wingGetInnerSectionAndElementIndex tigl i j),
                    fst (wingGetOuterSectionAndElementIndex tigl i j), j))
         (py_range 1 (n + 1))
     ++ repeat zero_row (Z.to_nat nbmax)).

(** The test of lines 99-100, with the short cut of [and]. *)
Definition is_horizontal (awg : AircraftWingGeometry)
  (wing_plt_area_xz wing_plt_area_yz : list Q) (i : Z) : res bool :=
  area <- py_index (wing_plt_area awg) (i - 1) ;;
  axz <- py_index wing_plt_area_xz (i - 1) ;;
  if Qltb axz area
  then ayz <- py_index wing_plt_area_yz (i - 1) ;; Ok (Qltb ayz area)
  else Ok false.

(** The state of the root scan: [(slpx, slpy, slpz)], [start_index] and
    column [i-1] of [seg_sec_reordered]. *)
Definition root_state : Type := (point * list Z * list seg_row)%type.

(** The body of the root scan (lines 98-109). *)
Definition root_step (tigl : Tigl) (awg : AircraftWingGeometry)
  (wing_plt_area_xz wing_plt_area_yz : list Q) (i : Z)
  (seg_col : list seg_row) (j : Z) (st : root_state) : res root_state :=
  let '(slp, start_index, reord) := st in
  let p := wingGetChordPoint tigl i j 1 0 in
  horiz <- is_horizontal awg wing_plt_area_xz wing_plt_area_yz i ;;
  if (if horiz then Qltb (py p) (py slp) else Qltb (pz p) (pz slp))
  then
    row <- py_index seg_col (j - 1) ;;
    reord' <- list_set reord 0 row ;;
    Ok (p, start_index ++ [j], reord')
  else Ok st.

(** The body of the chaining loop (lines 111-113).  [np.where] yields the
    rows of [seg_sec] that start at [end_sec]; the assignment of a
    [(k, 3)] block to one row is refused unless [k = 1]. *)
Definition chain_step (seg_col : list seg_row) (j : Z)
  (reord : list seg_row) : res (list seg_row) :=
  prev <- py_index reord (j - 2) ;;
  let end_sec := seg_end prev in
  match filter (fun r => (seg_start r =? end_sec)%Z) seg_col with
  | [r] => list_set reord (j - 1) r
  | _ => Raise ValueError
  end.

(** [x in wing_sec_index] *)
Definition mem_Z (x : Z) (l : list Z) : bool := existsb (Z.eqb x) l.

(** [if (x in wing_sec_index) == False: wing_sec_index.append(x)] *)
Definition append_new (x : Z) (l : list Z) : list Z :=
  if mem_Z x l then l else l ++ [x].

(** The body of the loop of lines 115-117. *)
Definition collect_step (reord : list seg_row) (j : Z)
  (wing_sec_index : list Z) : res (list Z) :=
  row <- py_index reord (j - 1) ;;
  Ok (append_new (seg_start row) wing_sec_index).

Record csc_state : Type := mkCsc {
  cs_reordered : list (list seg_row);  (* seg_sec_reordered, columns done *)
  cs_sec_index : list (list Z);        (* sec_index, columns done *)
  cs_start_index : list Z;
  cs_sec_nb : list Z;
  cs_nbmax : Z;
  cs_j : option Z                      (* j, once bound *)
}.

(** [sec_index.resize(nbmax, awg.w_nb)]: rows of zeros are added. *)
Definition pad_column (nbmax : Z) (c : list Z) : list Z :=
  c ++ repeat 0%Z (Z.to_nat nbmax - length c).

(** The reordered column of wing [i] (lines 87-113) with the grown
    [start_index]. *)
Definition csc_reorder (tigl : Tigl) (awg : AircraftWingGeometry)
  (wing_plt_area_xz wing_plt_area_yz : list Q) (nbmax0 i n : Z)
  (start_index : list Z) : res (list Z * list seg_row) :=
  let seg_col := seg_sec_column tigl nbmax0 i n in
  let slp := wingGetChordPoint tigl i 1 0 0 in
  row0 <- py_index seg_col 0 ;;
  reord0 <- list_set (repeat zero_row (Z.to_nat nbmax0)) 0 row0 ;;
  '(_, start_index', reord1) <-
     for_each (py_range 2 (n + 1))
              (root_step tigl awg wing_plt_area_xz wing_plt_area_yz i seg_col)
              (slp, start_index ++ [1%Z], reord0) ;;
  reord <- for_each (py_range 2 (n + 1)) (chain_step seg_col) reord1 ;;
  Ok (start_index', reord).

(** [wing_sec_index] of wing [i] (lines 114-119).  [col0] is column 0 of
    [seg_sec_reordered], [reord] column [i-1], [j] the loop variable left
    by the loops above. *)
Definition csc_collect (col0 reord : list seg_row) (n : Z) (j : option Z)
  : res (list Z) :=
  first <- py_index col0 0 ;;
  wsi <- for_each (py_range 2 (n + 1)) (collect_step reord)
                  [seg_start first] ;;
  match j with
  | None => Raise NameError
  | Some jv =>
      last <- py_index reord (jv - 1) ;;
      Ok (append_new (seg_end last) wsi)
  end.

(** The body of the loop over the wings (lines 86-125). *)
Definition csc_wing (tigl : Tigl) (awg : AircraftWingGeometry)
  (wing_plt_area_xz wing_plt_area_yz : list Q) (nbmax0 i : Z)
  (s : csc_state) : res csc_state :=
  n <- py_index (wing_seg_nb awg) (i - 1) ;;
  '(start_index, reord) <-
     csc_reorder tigl awg wing_plt_area_xz wing_plt_area_yz nbmax0 i n
                 (cs_start_index s) ;;
  let j := if (1 <=? n)%Z then Some n else cs_j s in
  let col0 := match cs_reordered s with
              | [] => reord
              | c :: _ => c
              end in
  wsi <- csc_collect col0 reord n j ;;
  let nb := Z.of_nat (length wsi) in
  let nbmax := Z.max (cs_nbmax s) nb in
  Ok (mkCsc (cs_reordered s ++ [reord])
            (map (pad_column nbmax) (cs_sec_index s ++ [wsi]))
            start_index
            (cs_sec_nb s ++ [nb])
            nbmax
            j).

Record csc_result : Type := mkCscResult {
  sec_nb : list Z;
  start_index : list Z;
  seg_sec_reordered : list (list seg_row);
  sec_index : list (list Z)
}.

Definition check_segment_connection
  (wing_plt_area_xz wing_plt_area_yz : list Q)
  (awg : AircraftWingGeometry) (tigl : Tigl) : res csc_result :=
  nbmax <- np_amax (wing_seg_nb awg) ;;
  if (nbmax <? 0)%Z then Raise ValueError
  else if (w_nb awg <? 0)%Z then Raise ValueError
  else
    s <- for_each (py_range 1 (w_nb awg + 1))
                  (csc_wing tigl awg wing_plt_area_xz wing_plt_area_yz nbmax)
                  (mkCsc [] [] [] [] nbmax None) ;;
    Ok (mkCscResult (cs_sec_nb s) (cs_start_index s) (cs_reordered s)
                    (cs_sec_index s)).

(** ** [getwingsegmentlength] *)

(** [math.sqrt((x1-x2)**2 + (y1-y2)**2 + (z1-z2)**2)] *)
Definition segment_length (m : MathLib) (p1 p2 : point) : Q :=
  np_sqrt m ((px p1 - px p2) ^ 2 + (py p1 - py p2) ^ 2
             + (pz p1 - pz p2) ^ 2).

(** [a[r][c] = v] on an array stored by columns. *)
Definition set_rc {A : Type} (a : list (list A)) (r c : Z) (v : A)
  : res (list (list A)) :=
  col <- py_index a c ;;
  col' <- list_set col r v ;;
  list_set a c col'.

(** The body of the inner loop (lines 160-163). *)
Definition length_step (m : MathLib)
  (wing_center_section_point : list (list point)) (i a j : Z)
  (lengths : list (list Q)) : res (list (list Q)) :=
  p1 <- at_rc wing_center_section_point (j - 1) (i - 1) ;;
  p2 <- at_rc wing_center_section_point j (i - 1) ;;
  set_rc lengths (j - 1) (i + a - 1) (segment_length m p1 p2).

(** The body of the loop over the wings (lines 159-166); the state is
    [awg.wing_seg_length] and [a]. *)
Definition length_wing (m : MathLib) (awg : AircraftWingGeometry)
  (wing_center_section_point : list (list point)) (i : Z)
  (st : list (list Q) * Z) : res (list (list Q) * Z) :=
  let '(lengths, a) := st in
  n <- py_index (wing_seg_nb awg) (i - 1) ;;
  lengths1 <- for_each (py_range 1 (n + 1))
                (length_step m wing_center_section_point i a) lengths ;;
  sym <- py_index (wing_sym awg) (i - 1) ;;
  if (sym =? 0)%Z then Ok (lengths1, a)
  else
    col <- py_index lengths1 (i + a - 1) ;;
    lengths2 <- list_set lengths1 (i + a) col ;;
    Ok (lengths2, (a + 1)%Z).

(** The function returns [awg] with [wing_seg_length] replaced; the new
    array is what is returned here. *)
Definition getwingsegmentlength (m : MathLib) (awg : AircraftWingGeometry)
  (wing_center_section_point : list (list point)) : res (list (list Q)) :=
  max_seg_nb <- np_amax (wing_seg_nb awg) ;;
  if ((max_seg_nb <? 0) || (wing_nb awg <? 0))%bool then Raise ValueError
  else
    let zeros := repeat (repeat 0 (Z.to_nat max_seg_nb))
                        (Z.to_nat (wing_nb awg)) in
    '(lengths, _) <- for_each (py_range 1 (w_nb awg + 1))
                       (length_wing m awg wing_center_section_point)
                       (zeros, 0%Z) ;;
    Ok lengths.

(** ** The symmetry step of [geom_eval] (lines 356-376) *)

(** The three [if]s that bind [(symx, symy, symz)]. *)
Definition geom_sym_signs (sym : Z) (old : option point) : option point :=
  let s1 := if (sym =? 1)%Z then Some (1, 1, -1) else old in
  let s2 := if (sym =? 2)%Z then Some (1, -1, 1) else s1 in
  if (sym =? 3)%Z then Some (-1, 1, 1) else s2.

(** Column [i] of [awg.wing_center_seg_point] becomes column [i-1] times
    the signs (lines 369-374). *)
Definition geom_mirror (wing_center_seg_point : list (list point))
  (sym i : Z) (old : option point) : res (list (list point) * option point) :=
  if (sym =? 0)%Z then Ok (wing_center_seg_point, old)
  else
    let bound := geom_sym_signs sym old in
    match bound with
    | None => Raise NameError
    | Some signs =>
        col <- py_index wing_center_seg_point (i - 1) ;;
        a' <- list_set wing_center_seg_point i (mirror_points signs col) ;;
        Ok (a', bound)
    end.

(** ** Notions used to state the properties *)

(** [q] is [p] mirrored in the plane of code [sym]: 1 is the x-y plane
    (z changes sign), 2 the x-z plane (y changes sign), 3 the y-z plane
    (x changes sign). *)
Definition plane_flip (sym : Z) (p q : point) : Prop :=
  if (sym =? 1)%Z then px q == px p /\ py q == py p /\ pz q == - pz p
  else if (sym =? 2)%Z then px q == px p /\ py q == - py p /\ pz q == pz p
  else if (sym =? 3)%Z then px q == - px p /\ py q == py p /\ pz q == pz p
  else False.

(** The mass carried by a cloud in which every point weighs [M]. *)
Definition cloud_mass (M : Q) (pts : list point) : Q :=
  np_sum (map (fun _ => M) pts).

Definition in_unit (x : Q) : Prop := 0 <= x /\ x <= 1.

(** The sum of a list of integers. *)
Definition zsum (l : list Z) : Z := fold_right Z.add 0%Z l.

(** The segment ids that the loop of [wing_inertia] processes: those
    before the first 0. *)
Fixpoint before_zero (ids : list Z) : list Z :=
  match ids with
  | [] => []
  | i :: rest => if (i =? 0)%Z then [] else i :: before_zero rest
  end.

(** Every entry of a two-dimensional array is non-negative. *)
Definition nonneg_array (a : list (list Q)) : Prop :=
  Forall (Forall (fun x => 0 <= x)) a.

(** The oracle queries of the [k] loop, from the coordinates it passes. *)
Definition chord_queries (tigl : Tigl) (w i : Z) (et : Q) (zes : list Q)
  : list point :=
  flat_map (fun ze => [wingGetLowerPoint tigl w i et ze;
                       wingGetUpperPoint tigl w i et ze]) zes.

(** The results of the segments of wing [w], one after the other, as the
    loop of [wing_segments] meets them. *)
Fixpoint wing_trace (tigl : Tigl) (subd_c SPACING : Q) (fuse : Z)
  (cg : point) (mass_seg_i : list (list Q)) (awg : AircraftWingGeometry)
  (zeta : Q) (w : Z) (ids : list Z) (s : wing_state)
  : res (list segment_result) :=
  match ids with
  | [] => Ok []
  | i :: rest =>
      if (i =? 0)%Z then Ok []
      else
        r <- wing_segment tigl subd_c SPACING fuse cg mass_seg_i awg zeta
                          w (ws_a s) i (ws_signs s) ;;
        rs <- wing_trace tigl subd_c SPACING fuse cg mass_seg_i awg zeta w
                         rest (wing_segment_acc s r) ;;
        Ok (r :: rs)
  end.

(** The results of the segments of fuselage [f], one after the other. *)
Fixpoint fuse_trace (m : MathLib) (tigl : Tigl) (SPACING : Q)
  (mass_seg_i : list (list Q)) (afg : AircraftFuseGeometry) (f : Z)
  (ids : list Z) (p0 : option point) : res (list fuse_segment_result) :=
  match ids with
  | [] => Ok []
  | i :: rest =>
      r <- fuse_segment m tigl SPACING mass_seg_i afg f i p0 ;;
      rs <- fuse_trace m tigl SPACING mass_seg_i afg f rest (fr_p0 r) ;;
      Ok (r :: rs)
  end.

(** The loop over the segments of wing [w] without its mirrored pass. *)
Fixpoint wing_own_segments (tigl : Tigl) (subd_c SPACING : Q) (fuse : Z)
  (cg : point) (mass_seg_i : list (list Q)) (awg : AircraftWingGeometry)
  (zeta : Q) (w : Z) (ids : list Z) (s : wing_state) : res wing_state :=
  match ids with
  | [] => Ok s
  | i :: rest =>
      if (i =? 0)%Z then Ok s
      else
        o <- wing_segment_own tigl subd_c SPACING fuse cg mass_seg_i awg
                              zeta w (ws_a s) i ;;
        wing_own_segments tigl subd_c SPACING fuse cg mass_seg_i awg zeta w
                          rest (wing_own_acc s o)
  end.

(** The body of the loop over the wings without anything mirrored: only
    the sampled clouds are accumulated and [a] stays as it is. *)
Definition wing_own_body (tigl : Tigl) (subd_c SPACING : Q) (fuse : Z)
  (cg : point) (mass_seg_i : list (list Q)) (awg : AircraftWingGeometry)
  (w : Z) (s : wing_state) : res wing_state :=
  zeta <- wing_zeta subd_c ;;
  col <- py_index (w_seg_sec awg) (w - 1) ;;
  wing_own_segments tigl subd_c SPACING fuse cg mass_seg_i awg zeta w
                    (map seg_id col) s.

(** The section ids of a chain of segments, in the order met and without
    repetition (the reading of the specification). *)
Definition chain_sections (chain : list seg_row) : list Z :=
  fold_left (fun acc r => append_new (seg_end r) (append_new (seg_start r) acc))
            chain [].

(** The start sections of a chain, in the order met and without
    repetition. *)
Definition chain_starts (chain : list seg_row) : list Z :=
  fold_left (fun acc r => append_new (seg_start r) acc) chain [].

(** Consecutive rows of a chain are linked: each starts where the one
    before ends. *)
Fixpoint linked (chain : list seg_row) : Prop :=
  match chain with
  | r1 :: ((r2 :: _) as rest) => seg_start r2 = seg_end r1 /\ linked rest
  | _ => True
  end.

(** A coarse rational stand-in for the float functions, to run the
    definitions on examples: the square root is that of the reduced
    fraction, rounded down in the numerator, and is exact on squares. *)
Definition rational_sqrt (x : Q) : Q :=
  let r := Qred x in
  Z.sqrt (Qnum r * Z.pos (Qden r)) # Qden r.

Definition rational_math : MathLib :=
  mkMathLib rational_sqrt (fun _ => 1) (fun _ => 0) (355 # 113).

(** ** Example data

    A straight wing: section [k] sits at [y = k], a segment runs linearly
    from its inner to its outer section, the chord runs along [x] and the
    two surfaces lie a tenth below and above the chord plane. *)
Definition straight_wing (inner outer : Z -> Z -> Z) : Tigl :=
  let y i j eta :=
    inject_Z (inner i j) + eta * inject_Z (outer i j - inner i j) in
  mkTigl (fun i j => (inner i j, 1%Z))
         (fun i j => (outer i j, 1%Z))
         (fun i j eta xsi => (xsi, y i j eta, 0))
         (fun i j eta xsi => (xsi, y i j eta, - (1 # 10)))
         (fun i j eta xsi => (xsi, y i j eta, 1 # 10))
         (fun f i eta zeta => (inject_Z (i - 1) + eta, zeta, 1 - zeta)).

(** One wing of two segments given against the span: segment 1 runs from
    section 2 to section 3, segment 2 from section 1 to section 2. *)
Definition swapped_pair : Tigl :=
  straight_wing (fun _ j => if (j =? 1)%Z then 2%Z else 1%Z)
                (fun _ j => if (j =? 1)%Z then 3%Z else 2%Z).

Definition swapped_pair_awg : AircraftWingGeometry :=
  mkAWG 1 1 [0%Z] [2%Z] [10] [] [] [].

(** One wing of three segments given out of order: segment 1 from section
    3 to 4, segment 2 from section 1 to 2, segment 3 from section 2 to 3. *)
Definition shuffled_three : Tigl :=
  straight_wing (fun _ j => if (j =? 1)%Z then 3%Z
                            else if (j =? 2)%Z then 1%Z else 2%Z)
                (fun _ j => if (j =? 1)%Z then 4%Z
                            else if (j =? 2)%Z then 2%Z else 3%Z).

Definition shuffled_three_awg : AircraftWingGeometry :=
  mkAWG 1 1 [0%Z] [3%Z] [10] [] [] [].

(** Two wings of one segment each: sections 1-2 and sections 5-6. *)
Definition two_wings : Tigl :=
  straight_wing (fun i _ => if (i =? 1)%Z then 1%Z else 5%Z)
                (fun i _ => if (i =? 1)%Z then 2%Z else 6%Z).

Definition two_wings_awg : AircraftWingGeometry :=
  mkAWG 2 2 [0%Z; 0%Z] [1%Z; 1%Z] [10; 10] [] [] [].

(** One wing of one segment between sections 1 and 2, of span 1 and
    mass 100, without symmetry plane and with the x-z plane as symmetry
    plane. *)
Definition plain_wing : Tigl :=
  straight_wing (fun _ _ => 1%Z) (fun _ _ => 2%Z).

Definition plain_wing_awg : AircraftWingGeometry :=
  mkAWG 1 1 [0%Z] [1%Z] [10] [[(1, 2, 1)%Z]] [[1]] [[(0, 3 # 2, 0)]].

Definition mirrored_wing_awg : AircraftWingGeometry :=
  mkAWG 1 2 [2%Z] [1%Z] [10] [[(1, 2, 1)%Z]] [[1]; [1]]
        [[(0, 3 # 2, 0)]; [(0, - (3 # 2), 0)]].

(** One fuselage of one segment of length 1, perimeter 2 and width 1,
    of mass 50. *)
Definition plain_fuse_afg : AircraftFuseGeometry :=
  mkAFG 1 [[(1, 2, 1)%Z]] [[1]] [[2]] [[1]] [[(1 # 2, 0, 0)]].

(** Two engines of mass 3 placed symmetrically about the x-y plane. *)
Definition two_engines : EngineData :=
  mkEngineData 2 [(1, 0, 2); (1, 0, - (2))] 3.

(** The number of wings with a symmetry plane among [syms]. *)
Definition count_sym (syms : list Z) : Z :=
  Z.of_nat (length (filter (fun sym => negb (sym =? 0)%Z) syms)).

(** The squared distance of [p] to [cg]. *)
Definition dist2 (cg p : point) : Q :=
  (px p - px cg) ^ 2 + (py p - py cg) ^ 2 + (pz p - pz cg) ^ 2.

(** The three diagonal entries are non-negative. *)
Definition diagonal_nonneg (t : tensor) : Prop :=
  0 <= Ixx t /\ 0 <= Iyy t /\ 0 <= Izz t.

(** The column of wing [i] in the arrays that count the mirrored wings
    ([wing_seg_length], [wing_center_seg_point]): one column per wing
    before it, and one more per mirrored wing before it. *)
Definition wing_column (awg : AircraftWingGeometry) (i : Z) : Z :=
  (i - 1 + count_sym (firstn (Z.to_nat (i - 1)) (wing_sym awg)))%Z.

(** What the returned array holds for wing [i]. *)
Definition wing_lengths_ok (m : MathLib) (awg : AircraftWingGeometry)
  (wcsp : list (list point)) (L : list (list Q)) (i : Z) : Prop :=
  forall n sym,
    py_index (wing_seg_nb awg) (i - 1) = Ok n ->
    py_index (wing_sym awg) (i - 1) = Ok sym ->
    (forall j, (1 <= j <= n)%Z ->
       exists p1 p2,
         at_rc wcsp (j - 1) (i - 1) = Ok p1 /\
         at_rc wcsp j (i - 1) = Ok p2 /\
         at_rc L (j - 1) (wing_column awg i)
           = Ok (segment_length m p1 p2)) /\
    (sym <> 0%Z ->
       exists col,
         py_index L (wing_column awg i) = Ok col /\
         py_index L (wing_column awg i + 1) = Ok col).

(** Three wings, the second mirrored in the x-z plane, of 1, 2 and 1
    segments, with their section centre points. *)
Definition three_wings_awg : AircraftWingGeometry :=
  mkAWG 3 4 [0%Z; 2%Z; 0%Z] [1%Z; 2%Z; 1%Z] [10; 10; 10] [] [] [].

Definition three_wings_centres : list (list point) :=
  [[(0, 0, 0); (3, 4, 0); (0, 0, 0)];
   [(0, 0, 0); (0, 3, 4); (0, 3, 16)];
   [(1, 1, 1); (1, 1, 6); (0, 0, 0)]].

(** ** The counting loop of [geom_eval] (lines 213-238)

    The TiGL queries of [geom_eval] that take a wing index.  The span is
    asked by UID, [tigl.wingGetSpan(wingUID[i-1])] with
    [wingUID[i-1] = tigl.wingGetUID(i)]; it is a function of [i] here. *)
Record TiglWings : Type := mkTiglWings {
  wingGetSymmetry : Z -> Z;
  wingGetSectionCount : Z -> Z;
  wingGetSegmentCount : Z -> Z;
  wingGetVolume : Z -> Q;
  wingGetReferenceArea : Z -> Z -> Q;
  wingGetSpan : Z -> Q;
  wingGetSurfaceArea : Z -> Q
}.

(** The attributes of [awg] and the two local lists that the counting loop
    updates. *)
Record wing_counts : Type := mkWingCounts {
  c_wing_nb : Z;
  c_wing_sym : list Z;
  c_wing_sec_nb : list Z;
  c_wing_seg_nb : list Z;
  c_wing_vol : list Q;
  c_wing_plt_area : list Q;
  c_wing_plt_area_xz : list Q;
  c_wing_plt_area_yz : list Q;
  c_is_horiz : list bool;
  c_wing_tot_vol : Q
}.

(** The body of the counting loop (lines 214-238). *)
Definition count_step (tigl : TiglWings) (i : Z) (s : wing_counts)
  : res wing_counts :=
  let wing_sym1 := c_wing_sym s ++ [wingGetSymmetry tigl i] in
  sym <- py_index wing_sym1 (i - 1) ;;
  let double := if (sym =? 0)%Z then 1 else 2 in
  let wing_nb1 := if (sym =? 0)%Z then c_wing_nb s
                  else (c_wing_nb s + 1)%Z in
  let wing_sec_nb1 := c_wing_sec_nb s ++ [wingGetSectionCount tigl i] in
  let wing_seg_nb1 := c_wing_seg_nb s ++ [wingGetSegmentCount tigl i] in
  let wing_vol1 := c_wing_vol s ++ [wingGetVolume tigl i * double] in
  let wing_plt_area1 :=
    c_wing_plt_area s ++ [wingGetReferenceArea tigl i 1 * double] in
  let wing_plt_area_xz1 :=
    c_wing_plt_area_xz s ++ [wingGetReferenceArea tigl i 2 * double] in
  let wing_plt_area_yz1 :=
    c_wing_plt_area_yz s ++ [wingGetReferenceArea tigl i 3 * double] in
  area <- py_index wing_plt_area1 (i - 1) ;;
  axz <- py_index wing_plt_area_xz1 (i - 1) ;;
  horiz <- (if Qltb axz area
            then ayz <- py_index wing_plt_area_yz1 (i - 1) ;;
                 Ok (Qltb ayz area)
            else Ok false) ;;
  sym' <- py_index wing_sym1 (i - 1) ;;
  let is_horiz1 :=
    c_is_horiz s ++ (if (sym' =? 0)%Z then [horiz] else [horiz; horiz]) in
  vol <- py_index wing_vol1 (i - 1) ;;
  Ok (mkWingCounts wing_nb1 wing_sym1 wing_sec_nb1 wing_seg_nb1 wing_vol1
        wing_plt_area1 wing_plt_area_xz1 wing_plt_area_yz1 is_horiz1
        (c_wing_tot_vol s + vol)).

(** Lines 201-238: [awg.wing_nb = w_nb], the two local lists start empty,
    the other attributes are those of the [awg] passed in. *)
Definition geom_count (tigl : TiglWings) (w_nb : Z) (awg0 : wing_counts)
  : res wing_counts :=
  for_each (py_range 1 (w_nb + 1)) (count_step tigl)
    (mkWingCounts w_nb (c_wing_sym awg0) (c_wing_sec_nb awg0)
       (c_wing_seg_nb awg0) (c_wing_vol awg0) (c_wing_plt_area awg0)
       [] [] (c_is_horiz awg0) (c_wing_tot_vol awg0)).

(** ** The main wing of [geom_eval] (lines 263, 312-317) *)

(** [round(x, 3)]: the nearest multiple of 1/1000, a tie going to the even
    one. *)
Definition py_round3 (x : Q) : Q :=
  let y := x * 1000 in
  let f := Qfloor y in
  let r := y - inject_Z f in
  let n := if Qltb r (1 # 2) then f
           else if Qltb (1 # 2) r then (f + 1)%Z
           else if Z.even f then f else (f + 1)%Z in
  inject_Z n / 1000.

(** [np.amax] of a one-dimensional array of floats. *)
Definition np_amax_float (l : list Q) : res Q :=
  match l with
  | [] => Raise ValueError
  | x :: rest => Ok (fold_left (fun m y => if Qltb m y then y else m) rest x)
  end.

(** The rounded span of wing [i]. *)
Definition rounded_span (tigl : TiglWings) (i : Z) : Q :=
  py_round3 (wingGetSpan tigl i).

(** Lines 312-317 of the body of the wing loop; the state is
    [awg.wing_span], [b] and [awg.main_wing_index].  The rest of the body
    (lines 265-310) reads and writes none of the three. *)
Definition span_step (tigl : TiglWings) (i : Z) (st : list Q * Q * Z)
  : res (list Q * Q * Z) :=
  let '(wing_span, b, main_wing_index) := st in
  let wing_span1 := wing_span ++ [rounded_span tigl i] in
  a <- np_amax_float wing_span1 ;;
  if Qltb b a then Ok (wing_span1, a, i)
  else Ok (wing_span1, b, main_wing_index).

(** [b = 0] before the loop (line 263). *)
Definition main_wing_scan (tigl : TiglWings) (w_nb : Z) (wing_span0 : list Q)
  (main_wing_index0 : Z) : res (list Q * Q * Z) :=
  for_each (py_range 1 (w_nb + 1)) (span_step tigl)
    (wing_span0, 0, main_wing_index0).

(** ** The wetted areas of [geom_eval] (lines 326-335) *)

(** The wetted area of wing [i], doubled for a wing with a symmetry
    plane (lines 328-330). *)
Definition wetted_area (tigl : TiglWings) (wing_sym : list Z) (i : Z)
  : res Q :=
  let s := wingGetSurfaceArea tigl i in
  sym <- py_index wing_sym (i - 1) ;;
  Ok (if (sym =? 0)%Z then s else s * 2).

(** The body of the loop; the state is [awg.main_wing_surface],
    [awg.tail_wings_surface] and [awg.total_wings_surface]. *)
Definition surface_step (tigl : TiglWings) (wing_sym : list Z)
  (main_wing_index : Z) (i : Z) (st : Q * list Q * Q) : res (Q * list Q * Q) :=
  let '(main_wing_surface, tail_wings_surface, total_wings_surface) := st in
  s <- wetted_area tigl wing_sym i ;;
  if (i =? main_wing_index)%Z
  then Ok (s, tail_wings_surface, total_wings_surface + s)
  else Ok (main_wing_surface, tail_wings_surface ++ [s],
           total_wings_surface + s).

Definition wetted_areas (tigl : TiglWings) (w_nb : Z) (wing_sym : list Z)
  (main_wing_index : Z) (st : Q * list Q * Q) : res (Q * list Q * Q) :=
  for_each (py_range 1 (w_nb + 1))
    (surface_step tigl wing_sym main_wing_index) st.

(** Three wings for the examples: spans 10.0004, 10.0002 and 4, the second
    mirrored in the x-z plane. *)
Definition three_wings_tigl : TiglWings :=
  mkTiglWings
    (fun i => if (i =? 2)%Z then 2%Z else 0%Z)
    (fun _ => 3%Z)
    (fun _ => 2%Z)
    (fun i => inject_Z i)
    (fun i plane => if (plane =? 1)%Z then 5 else if (i =? 3)%Z then 7 else 1)
    (fun i => if (i =? 1)%Z then 100004 # 10000
              else if (i =? 2)%Z then 100002 # 10000 else 4)
    (fun i => inject_Z (10 * i)).

Definition fresh_counts : wing_counts :=
  mkWingCounts 0 [] [] [] [] [] [] [] [] 0.


(** The number of mirrored wings before wing [i], from the oracle. *)
Definition mirrored_before (tigl : TiglWings) (i : Z) : Z :=
  count_sym (map (wingGetSymmetry tigl) (py_range 1 i)).

(** The test of lines 229-230 on the areas that TiGL returns. *)
Definition wing_is_horiz (tigl : TiglWings) (i : Z) : bool :=
  Qltb (wingGetReferenceArea tigl i 2) (wingGetReferenceArea tigl i 1)
  && Qltb (wingGetReferenceArea tigl i 3) (wingGetReferenceArea tigl i 1).

(** The factor [double] of wing [i]. *)
Definition wing_double (tigl : TiglWings) (i : Z) : Q :=
  if (wingGetSymmetry tigl i =? 0)%Z then 1 else 2.


(** The invariant of the counting loop before wing [j]. *)
Definition counts_inv (tigl : TiglWings) (w_nb : Z) (tot0 : Q) (j : Z)
  (s : wing_counts) : Prop :=
  (1 <= j)%Z /\
  c_wing_sym s = map (wingGetSymmetry tigl) (py_range 1 j) /\
  c_wing_seg_nb s = map (wingGetSegmentCount tigl) (py_range 1 j) /\
  c_wing_vol s
  = map (fun i => wingGetVolume tigl i * wing_double tigl i) (py_range 1 j) /\
  c_wing_plt_area s
  = map (fun i => wingGetReferenceArea tigl i 1 * wing_double tigl i)
        (py_range 1 j) /\
  Z.of_nat (length (c_wing_plt_area_xz s)) = (j - 1)%Z /\
  Z.of_nat (length (c_wing_plt_area_yz s)) = (j - 1)%Z /\
  c_wing_nb s = (w_nb + mirrored_before tigl j)%Z /\
  Z.of_nat (length (c_is_horiz s)) = (j - 1 + mirrored_before tigl j)%Z /\
  c_wing_tot_vol s == tot0 + np_sum (c_wing_vol s) /\
  (forall i, (1 <= i < j)%Z ->
     py_index (c_is_horiz s) (i - 1 + mirrored_before tigl i)
     = Ok (wing_is_horiz tigl i) /\
     (wingGetSymmetry tigl i <> 0%Z ->
      py_index (c_is_horiz s) (i + mirrored_before tigl i)
      = Ok (wing_is_horiz tigl i))).

(** The invariant of the main-wing scan before wing [j]. *)
Definition span_inv (tigl : TiglWings) (idx0 : Z) (j : Z)
  (st : list Q * Q * Z) : Prop :=
  let '(wing_span, b, idx) := st in
  (1 <= j)%Z /\
  wing_span = map (rounded_span tigl) (py_range 1 j) /\
  (forall k, (1 <= k < j)%Z -> rounded_span tigl k <= b) /\
  ((idx = idx0 /\ b = 0) \/
   ((1 <= idx < j)%Z /\ b = rounded_span tigl idx /\ 0 < b /\
    forall k, (1 <= k < idx)%Z -> rounded_span tigl k < b)).

(** The invariant of the wetted-area loop before wing [j]. *)
Definition surface_inv (tigl : TiglWings) (wing_sym : list Z)
  (main : Z) (m0 t0 : Q) (j : Z) (st : Q * list Q * Q) : Prop :=
  let '(m, tails, total) := st in
  (1 <= j)%Z /\
  (((1 <= main < j)%Z /\ wetted_area tigl wing_sym main = Ok m /\
    total == t0 + m + np_sum tails /\
    Z.of_nat (length tails) = (j - 2)%Z) \/
   (~ (1 <= main < j)%Z /\ m = m0 /\
    total == t0 + np_sum tails /\
    Z.of_nat (length tails) = (j - 1)%Z)).

(** ** The segment centres of [geom_eval] (lines 339-376) *)

(** [(p + q) / 2], coordinate by coordinate. *)
Definition midpoint (p q : point) : point :=
  ((px p + px q) / 2, (py p + py q) / 2, (pz p + pz q) / 2).

(** The body of the loop over [jj] (lines 346-355): [i - a] is the wing,
    [i - 1] its column in [awg.wing_center_seg_point]. *)
Definition centre_step (seg_sec : list (list seg_row))
  (wing_center_section_point : list (list point)) (i a jj : Z)
  (wcsp : list (list point)) : res (list (list point)) :=
  row <- at_rc seg_sec (jj - 1) (i - a - 1) ;;
  let j := seg_id row in
  p1 <- at_rc wing_center_section_point (j - 1) (i - a - 1) ;;
  p2 <- at_rc wing_center_section_point j (i - a - 1) ;;
  set_rc wcsp (j - 1) (i - 1) (midpoint p1 p2).

(** The body of the loop over [i] (lines 342-376); the state is
    [awg.wing_center_seg_point], [a], [c] and the signs bound so far. *)
Definition centre_wing (awg : AircraftWingGeometry)
  (seg_sec : list (list seg_row))
  (wing_center_section_point : list (list point)) (i : Z)
  (st : list (list point) * Z * bool * option point)
  : res (list (list point) * Z * bool * option point) :=
  let '(wcsp, a, c, signs) := st in
  if c then Ok (wcsp, a, false, signs)
  else
    n <- py_index (wing_seg_nb awg) (i - a - 1) ;;
    wcsp1 <- for_each (py_range 1 (n + 1))
               (centre_step seg_sec wing_center_section_point i a) wcsp ;;
    sym <- py_index (wing_sym awg) (i - 1 - a) ;;
    if (sym =? 0)%Z then Ok (wcsp1, a, false, signs)
    else
      ' (wcsp2, signs') <- geom_mirror wcsp1 sym i signs ;;
      Ok (wcsp2, (a + 1)%Z, true, signs').

(** Lines 339-376: [a = 0], [c = False] and no sign bound before the
    loop; the array is the one of line 252. *)
Definition centre_points (awg : AircraftWingGeometry)
  (seg_sec : list (list seg_row))
  (wing_center_section_point : list (list point))
  (wcsp0 : list (list point)) : res (list (list point)) :=
  ' (wcsp, _, _, _) <-
      for_each (py_range 1 (wing_nb awg + 1))
        (centre_wing awg seg_sec wing_center_section_point)
        (wcsp0, 0%Z, false, None) ;;
  Ok wcsp.

(** What [awg.wing_center_seg_point] holds for wing [w]. *)
Definition wing_centres_ok (awg : AircraftWingGeometry)
  (seg_sec : list (list seg_row)) (wcsecp W : list (list point)) (w : Z)
  : Prop :=
  forall n sym,
    py_index (wing_seg_nb awg) (w - 1) = Ok n ->
    py_index (wing_sym awg) (w - 1) = Ok sym ->
    (forall jj, (1 <= jj <= n)%Z ->
       exists row p1 p2,
         at_rc seg_sec (jj - 1) (w - 1) = Ok row /\
         at_rc wcsecp (seg_id row - 1) (w - 1) = Ok p1 /\
         at_rc wcsecp (seg_id row) (w - 1) = Ok p2 /\
         at_rc W (seg_id row - 1) (wing_column awg w)
           = Ok (midpoint p1 p2)) /\
    ((sym = 1 \/ sym = 2 \/ sym = 3)%Z ->
       exists col col',
         py_index W (wing_column awg w) = Ok col /\
         py_index W (wing_column awg w + 1) = Ok col' /\
         Forall2 (plane_flip sym) col col').

(** The segment ids that the loops read are ids of TiGL: 1 or more. *)
Definition seg_ids_positive (awg : AircraftWingGeometry)
  (seg_sec : list (list seg_row)) : Prop :=
  forall w n jj row,
    (1 <= w)%Z ->
    py_index (wing_seg_nb awg) (w - 1) = Ok n ->
    (1 <= jj <= n)%Z ->
    at_rc seg_sec (jj - 1) (w - 1) = Ok row ->
    (1 <= seg_id row)%Z.

(** The invariant of the loop over the columns before column [i - 1]:
    [k] wings are done. *)
Definition centre_inv (awg : AircraftWingGeometry)
  (seg_sec : list (list seg_row)) (wcsecp : list (list point)) (i : Z)
  (st : list (list point) * Z * bool * option point) : Prop :=
  let '(W, a, c, _) := st in
  exists k,
    (0 <= k)%Z /\
    a = (wing_column awg (k + 1) - k)%Z /\
    (i - 1)%Z = (wing_column awg (k + 1) - if c then 1 else 0)%Z /\
    forall w, (1 <= w <= k)%Z -> wing_centres_ok awg seg_sec wcsecp W w.

(** The section centres and the segment table of [three_wings_awg]; the
    segments of the second wing are listed tip first. *)
Definition three_wings_seg_sec : list (list seg_row) :=
  [[(1, 2, 1)%Z; (0, 0, 0)%Z];
   [(2, 3, 2)%Z; (1, 2, 1)%Z];
   [(1, 2, 1)%Z; (0, 0, 0)%Z]].

Definition three_wings_zero : list (list point) :=
  repeat (repeat (0, 0, 0) 2) 4.

(** ** Python strings

    A [str] is the list of its code points; [str_of] reads an ASCII
    literal. *)
Definition str : Type := list Z.

Definition str_of (s : String.string) : str :=
  map (fun c => Z.of_N (Ascii.N_of_ascii c)) (String.list_ascii_of_string s).

(** ["\n"] *)
Definition newline : str := [10%Z].

(** ** [moduleinterfaces.py]

    The attribute [unit] of an entry is [unit_str] here.

    [V] is the type of the values that are not [None]: a default value is
    [None] or [Some v]. *)
Record Entry (V : Type) : Type := mkEntry {
  var_name : str;
  default_value : option V;
  unit_str : str;
  descr : str;
  cpacs_path : str
}.

Arguments mkEntry {V} _ _ _ _ _.
Arguments var_name {V} _.
Arguments default_value {V} _.
Arguments unit_str {V} _.
Arguments descr {V} _.
Arguments cpacs_path {V} _.

(** The keyword arguments of a call: each of the five keywords of
    [_Entry.__init__] is given or not, and [kw_other] lists the names of
    the other keywords of the call, in its order. *)
Record kwargs (V : Type) : Type := mkKwargs {
  kw_var_name : option str;
  kw_default_value : option (option V);
  kw_unit : option str;
  kw_descr : option str;
  kw_cpacs_path : option str;
  kw_other : list str
}.

Arguments mkKwargs {V} _ _ _ _ _ _.
Arguments kw_var_name {V} _.
Arguments kw_default_value {V} _.
Arguments kw_unit {V} _.
Arguments kw_descr {V} _.
Arguments kw_cpacs_path {V} _.
Arguments kw_other {V} _.

(** A keyword that is not given takes the default of the signature. *)
Definition keyword {A : Type} (given : option A) (default : A) : A :=
  match given with
  | Some a => a
  | None => default
  end.

(** What the functions of the module raise. *)
Inductive interface_error : Type :=
| KeyError (key : str)
| OutputDefaultValueError
| TypeError (keyword : str)
| CPACSRequirementError (msg : str).

Inductive outcome (A : Type) : Type :=
| Returns (a : A)
| Raises (e : interface_error).

Arguments Returns {A} a.
Arguments Raises {A} e.

(** The entry that [_Entry] builds from the keywords (lines 41-57); a
    keyword that [__init__] does not have is a [TypeError]. *)
Definition new_entry {V : Type} (kw : kwargs V) : outcome (Entry V) :=
  match kw_other kw with
  | key :: _ => Raises (TypeError key)
  | [] =>
      Returns (mkEntry (keyword (kw_var_name kw) [])
                       (keyword (kw_default_value kw) None)
                       (keyword (kw_unit kw) (str_of "1"%string))
                       (keyword (kw_descr kw) [])
                       (keyword (kw_cpacs_path kw) []))
  end.

Record CPACSInOut (V : Type) : Type := mkCPACSInOut {
  inputs : list (Entry V);
  outputs : list (Entry V)
}.

Arguments mkCPACSInOut {V} _ _.
Arguments inputs {V} _.
Arguments outputs {V} _.

(** [CPACSInOut.add_input] (lines 70-72). *)
Definition add_input {V : Type} (kw : kwargs V) (io : CPACSInOut V)
  : outcome (CPACSInOut V) :=
  match new_entry kw with
  | Raises e => Raises e
  | Returns entry => Returns (mkCPACSInOut (inputs io ++ [entry]) (outputs io))
  end.

(** [CPACSInOut.add_output] (lines 74-79): [kwargs['default_value']] is a
    [KeyError] when the keyword is not given, and the [ValueError] of
    line 76 is [OutputDefaultValueError]. *)
Definition add_output {V : Type} (kw : kwargs V) (io : CPACSInOut V)
  : outcome (CPACSInOut V) :=
  match kw_default_value kw with
  | None => Raises (KeyError (str_of "default_value"%string))
  | Some (Some _) => Raises OutputDefaultValueError
  | Some None =>
      match new_entry kw with
      | Raises e => Raises e
      | Returns entry =>
          Returns (mkCPACSInOut (inputs io) (outputs io ++ [entry]))
      end
  end.

(** The body of the loop of lines 97-101; [checkElement] is the query of
    the TIXI handle of the CPACS file. *)
Definition missing_step {V : Type} (checkElement : str -> bool)
  (missing_nodes : list str) (entry : Entry V) : list str :=
  match default_value entry with
  | Some _ => missing_nodes
  | None =>
      if checkElement (cpacs_path entry) then missing_nodes
      else missing_nodes ++ [cpacs_path entry]
  end.

(** The body of the loop of lines 105-106. *)
Definition missing_line (missing_str missing : str) : str :=
  missing_str ++ (str_of "==> "%string ++ missing) ++ newline.

(** [check_cpacs_input_requirements] (lines 86-110). *)
Definition check_cpacs_input_requirements {V : Type}
  (checkElement : str -> bool) (cpacs_inout : CPACSInOut V) : outcome unit :=
  let required_inputs := inputs cpacs_inout in
  let missing_nodes :=
    fold_left (missing_step checkElement) required_inputs [] in
  match missing_nodes with
  | [] => Returns tt
  | _ :: _ =>
      let missing_str := fold_left missing_line missing_nodes [] in
      Raises (CPACSRequirementError
                (str_of "CPACS path required but does not exist"%string
                 ++ newline ++ missing_str))
  end.

(** The objects that calls of [add_input] and [add_output] build from
    [CPACSInOut()]. *)
Inductive built {V : Type} : CPACSInOut V -> Prop :=
| built_init : built (mkCPACSInOut [] [])
| built_add_input (kw : kwargs V) (io io' : CPACSInOut V) :
    built io -> add_input kw io = Returns io' -> built io'
| built_add_output (kw : kwargs V) (io io' : CPACSInOut V) :
    built io -> add_output kw io = Returns io' -> built io'.

(** The inputs without a default value whose CPACS path is missing. *)
Definition missing_inputs {V : Type} (checkElement : str -> bool)
  (entries : list (Entry V)) : list str :=
  map cpacs_path
    (filter (fun e => match default_value e with
                      | Some _ => false
                      | None => negb (checkElement (cpacs_path e))
                      end) entries).

(** The message of the exception for the missing paths [paths]. *)
Definition requirement_message (paths : list str) : str :=
  str_of "CPACS path required but does not exist"%string ++ newline
  ++ concat (map (fun p => str_of "==> "%string ++ p ++ newline) paths).

(** ** The string helpers of [settingsgui.py] *)

(** [s.startswith(old)] *)
Fixpoint startswith (s old : str) {struct old} : bool :=
  match old, s with
  | [], _ => true
  | o :: old', x :: s' => (x =? o)%Z && startswith s' old'
  | _ :: _, [] => false
  end.

(** [s.replace(old, new)] for a non-empty [old]: the occurrences of [old]
    are taken from the left and do not overlap.  [skip] is the number of
    characters of the occurrence just replaced that are still to be
    passed. *)
Fixpoint replace_from (old new : str) (skip : nat) (s : str) : str :=
  match s with
  | [] => []
  | x :: t =>
      match skip with
      | S k => replace_from old new k t
      | O => if startswith s old
             then new ++ replace_from old new (length old - 1) t
             else x :: replace_from old new 0 t
      end
  end.

(** [s.replace(old, new)]; for an empty [old], [new] is put before every
    character and at the end. *)
Definition str_replace (s old new : str) : str :=
  match old with
  | [] => new ++ flat_map (fun x => x :: new) s
  | _ :: _ => replace_from old new 0 s
  end.

(** [replace_table] (line 615): the digits 0 to 9 and their superscripts
    (U+2070, U+00B9, U+00B2, U+00B3, U+2074 to U+2079). *)
Definition replace_table : list (Z * Z) :=
  [(48, 8304); (49, 185); (50, 178); (51, 179); (52, 8308);
   (53, 8309); (54, 8310); (55, 8311); (56, 8312); (57, 8313)]%Z.

(** [make_exp] (lines 613-618). *)
Definition make_exp (string : str) : str :=
  fold_left (fun s sub => str_replace s [fst sub] [snd sub])
            replace_table string.

(** ["^"] and the class [[0-9]]. *)
Definition caret : Z := 94%Z.

Definition is_digit (x : Z) : bool := ((48 <=? x) && (x <=? 57))%Z.

(** The longest run of digits at the start of [s]: what [[0-9]*]
    matches there. *)
Fixpoint digits_of (s : str) : str :=
  match s with
  | x :: t => if is_digit x then x :: digits_of t else []
  | [] => []
  end.

(** [number_exp.findall(string)] for the pattern of line 620: the matches
    from the left, the search going on after the end of each match;
    [skip] is the number of characters of the last match still to be
    passed. *)
Fixpoint findall_from (skip : nat) (s : str) : list str :=
  match s with
  | [] => []
  | x :: t =>
      match skip with
      | S k => findall_from k t
      | O => if (x =? caret)%Z
             then let d := digits_of t in
                  (caret :: d) :: findall_from (length d) t
             else findall_from 0 t
      end
  end.

(** [pretty_exponent] (lines 603-626). *)
Definition pretty_exponent (string : str) : str :=
  let matches := findall_from 0 string in
  fold_left (fun s m => str_replace s m (make_exp (tl m))) matches string.

(** The first [while] of [wrap_in_brackets] (lines 650-651), [c] being
    the character [brackets[0]]. *)
Fixpoint cut_leading (c : Z) (s : str) : str :=
  match s with
  | x :: t => if (x =? c)%Z then cut_leading c t else s
  | [] => []
  end.

(** [s.endswith(c)] for a one-character [c]. *)
Definition endswith_char (c : Z) (s : str) : bool :=
  match rev s with
  | x :: _ => (x =? c)%Z
  | [] => false
  end.

(** The second [while] (lines 652-653), run for at most [fuel] turns. *)
Fixpoint cut_trailing_loop (fuel : nat) (c : Z) (s : str) : str :=
  match fuel with
  | O => s
  | S f => if endswith_char c s
           then cut_trailing_loop f c (removelast s)
           else s
  end.

(** Every turn removes a character: [len(s)] turns are enough. *)
Definition cut_trailing (c : Z) (s : str) : str :=
  cut_trailing_loop (length s) c s.

(** [' ' * space] *)
Definition spaces (space : Z) : str := repeat 32%Z (Z.to_nat space).

(** [wrap_in_brackets] (lines 629-655). *)
Definition wrap_in_brackets (string brackets : str) (space : Z) : res str :=
  b0 <- py_index brackets 0 ;;
  let string1 := cut_leading b0 string in
  b1 <- py_index brackets 1 ;;
  let string2 := cut_trailing b1 string1 in
  Ok ([91%Z] ++ spaces space ++ string2 ++ spaces space ++ [93%Z]).

(** [pretty_unit] (lines 588-600): the brackets are the default. *)
Definition pretty_unit (unit_string : str) : res str :=
  wrap_in_brackets (pretty_exponent unit_string) (str_of "[]"%string) 1.

(** The superscript of a digit; any other character is left as it is. *)
Definition superscript (x : Z) : Z :=
  fold_left (fun y sub => if (y =? fst sub)%Z then snd sub else y)
            replace_table x.

Definition no_caret (s : str) : Prop := ~ In caret s.

Definition all_digits (s : str) : Prop := Forall (fun x => is_digit x = true) s.

(** Every ["^"] of [s] is followed by the digits of a match of [M]. *)
Fixpoint covered (M : list str) (s : str) : Prop :=
  match s with
  | [] => True
  | x :: t =>
      (x = caret ->
       exists d r, In (caret :: d) M /\ all_digits d /\ t = d ++ r) /\
      covered M t
  end.

(** A fuselage segment of length 0 and width 0 (two sections at the same
    place) and of perimeter 2, and a wing segment of length 0: the
    ceilings of the quotients are 0. *)
Definition flat_fuse_afg : AircraftFuseGeometry :=
  mkAFG 1 [[(1, 2, 1)%Z]] [[0]] [[2]] [[0]] [[(1 # 2, 0, 0)]].

Definition flat_wing_awg : AircraftWingGeometry :=
  mkAWG 1 1 [0%Z] [1%Z] [10] [[(1, 2, 1)%Z]] [[0]] [[(0, 3 # 2, 0)]].

(** The parallel-axis product term of the discretizer, [m * dx * dz],
    summed over the engines (the reading of the specification). *)
Definition parallel_axis_Ixz (center_of_gravity : point) (mass : Q)
  (placements : list point) : Q :=
  np_sum (map (fun p => mass * (px p - px center_of_gravity)
                             * (pz p - pz center_of_gravity)) placements).

Definition one_engine : EngineData :=
  mkEngineData 1 [(1, 0, 2)] 1.

(** C3. With one engine of mass 1 placed at (1, 0, 2) and the centre of
    gravity at the origin, [engine_inertia] returns Ixz = 1 (mass * dx * dx)
    whereas the parallel-axis term mass * dx * dz is 2. *)
Theorem engine_inertia_Ixz_uses_dx_twice :
  exists t, engine_inertia (0, 0, 0) one_engine = Ok t /\
            Ixz t == 1 /\
            parallel_axis_Ixz (0, 0, 0) (en_mass one_engine)
                              (EN_PLACEMENT one_engine) == 2 /\
            ~ Ixz t == parallel_axis_Ixz (0, 0, 0) (en_mass one_engine)
                                         (EN_PLACEMENT one_engine).
Proof.
  eexists. split; [ vm_compute; reflexivity | ].
  repeat split; vm_compute; congruence.
Qed.

(** * Properties *)

(** ** Results and sums *)

Lemma bind_Ok {A B : Type} (c : res A) (k : A -> res B) (b : B) :
  bind c k = Ok b -> exists a, c = Ok a /\ k a = Ok b.
Proof.
  destruct c as [a | e]; simpl; intros H; [ eauto | discriminate ].
Qed.

Ltac bind_inv H :=
  let x := fresh "x" in
  let Hx := fresh "Hx" in
  apply bind_Ok in H; destruct H as [x [Hx H]].

Tactic Notation "bind_inv" hyp(H) "as" simple_intropattern(x) ident(Hx) :=
  apply bind_Ok in H; destruct H as [x [Hx H]].

Lemma fold_Qplus_acc (l : list Q) (a : Q) :
  fold_left Qplus l a == a + fold_left Qplus l 0.
Proof.
  revert a. induction l as [| x l IH]; intros a; simpl.
  - ring.
  - rewrite IH. rewrite (IH (0 + x)). ring.
Qed.

Lemma np_sum_cons (x : Q) (l : list Q) : np_sum (x :: l) == x + np_sum l.
Proof.
  unfold np_sum. simpl. rewrite fold_Qplus_acc. ring.
Qed.

Lemma np_sum_app (l1 l2 : list Q) :
  np_sum (l1 ++ l2) == np_sum l1 + np_sum l2.
Proof.
  induction l1 as [| x l1 IH]; simpl.
  - unfold np_sum at 2. simpl. ring.
  - rewrite !np_sum_cons, IH. ring.
Qed.

Lemma np_sum_map_ext {A : Type} (f g : A -> Q) (l : list A) :
  (forall a, f a == g a) -> np_sum (map f l) == np_sum (map g l).
Proof.
  intros H. induction l as [| a l IH]; simpl.
  - reflexivity.
  - rewrite !np_sum_cons, IH, H. reflexivity.
Qed.

Lemma np_sum_map_opp {A : Type} (f : A -> Q) (l : list A) :
  np_sum (map (fun a => - f a) l) == - np_sum (map f l).
Proof.
  induction l as [| a l IH]; simpl.
  - reflexivity.
  - rewrite !np_sum_cons, IH. ring.
Qed.

Lemma np_sum_map_nonneg {A : Type} (f : A -> Q) (l : list A) :
  (forall a, 0 <= f a) -> 0 <= np_sum (map f l).
Proof.
  intros H. induction l as [| a l IH]; simpl.
  - unfold np_sum. simpl. lra.
  - rewrite np_sum_cons. specialize (H a). lra.
Qed.

Lemma cloud_mass_count (M : Q) (pts : list point) :
  cloud_mass M pts == inject_Z (Z.of_nat (length pts)) * M.
Proof.
  unfold cloud_mass. induction pts as [| p pts IH].
  - simpl. unfold np_sum. simpl. ring.
  - cbn [map length]. rewrite np_sum_cons, IH.
    rewrite Nat2Z.inj_succ. unfold Z.succ. rewrite inject_Z_plus. ring.
Qed.

Lemma point_mass_nonneg (mass : Q) (pts : list point) :
  0 <= mass -> 0 <= point_mass mass pts.
Proof.
  intros H. unfold point_mass, Qdiv.
  apply Qmult_le_0_compat; [ exact H | ].
  apply Qinv_le_0_compat.
  change 0 with (inject_Z 0). rewrite <- Zle_Qle. lia.
Qed.

Lemma cloud_mass_point_mass (mass : Q) (pts : list point) :
  pts <> [] -> cloud_mass (point_mass mass pts) pts == mass.
Proof.
  intros H. rewrite cloud_mass_count. unfold point_mass.
  field. intros E.
  assert (Hn : (0 < Z.of_nat (length pts))%Z).
  { destruct pts; [ congruence | simpl; lia ]. }
  rewrite (Zlt_Qlt 0) in Hn. change (inject_Z 0) with 0 in Hn. lra.
Qed.

(** ** Mirroring *)

Lemma mirror_points_length (signs : point) (pts : list point) :
  length (mirror_points signs pts) = length pts.
Proof. apply length_map. Qed.

Lemma wing_sym_signs_plane (sym : Z) (old : option point) :
  (sym = 1 \/ sym = 2 \/ sym = 3)%Z ->
  exists signs, wing_sym_signs sym old = Some signs /\
                forall p, plane_flip sym p (mirror_point signs p).
Proof.
  intros [-> | [-> | ->]]; eexists; (split; [ reflexivity | ]);
    intros [[x y] z]; unfold plane_flip, mirror_point, px, py, pz; simpl;
    repeat split; ring.
Qed.

Lemma geom_sym_signs_plane (sym : Z) (old : option point) :
  (sym = 1 \/ sym = 2 \/ sym = 3)%Z ->
  exists signs, geom_sym_signs sym old = Some signs /\
                forall p, plane_flip sym p (mirror_point signs p).
Proof.
  intros [-> | [-> | ->]]; eexists; (split; [ reflexivity | ]);
    intros [[x y] z]; unfold plane_flip, mirror_point, px, py, pz; simpl;
    repeat split; ring.
Qed.

Lemma mirror_points_flip (sym : Z) (signs : point) (pts : list point) :
  (forall p, plane_flip sym p (mirror_point signs p)) ->
  Forall2 (plane_flip sym) pts (mirror_points signs pts).
Proof.
  intros H. induction pts as [| p pts IH]; simpl; constructor; auto.
Qed.

Lemma wing_mirror_plane (cg : point) (mass : Q) (sym : Z)
  (old : option point) (pts : list point) :
  (sym = 1 \/ sym = 2 \/ sym = 3)%Z ->
  exists signs,
    wing_sym_signs sym old = Some signs /\
    wing_mirror cg mass sym old pts =
      Ok (Some (mkMirrored (mirror_points signs pts)
                  (point_mass mass (mirror_points signs pts))
                  (lumped_tensor (point_mass mass (mirror_points signs pts))
                                 cg (mirror_points signs pts))),
          Some signs).
Proof.
  intros H. destruct (wing_sym_signs_plane sym old H) as [signs [Hs _]].
  exists signs. split; [ exact Hs | ].
  unfold wing_mirror.
  replace (sym =? 0)%Z with false by (symmetry; apply Z.eqb_neq; lia).
  rewrite Hs. reflexivity.
Qed.

Lemma py_index_Ok_nth {A : Type} (l : list A) (k : Z) :
  (0 <= k < Z.of_nat (length l))%Z ->
  exists a, py_index l k = Ok a /\ nth_error l (Z.to_nat k) = Some a.
Proof.
  intros H. unfold py_index.
  replace (k <? 0)%Z with false by (symmetry; apply Z.ltb_ge; lia).
  replace (0 <=? k)%Z with true by (symmetry; apply Z.leb_le; lia).
  replace (k <? Z.of_nat (length l))%Z with true
    by (symmetry; apply Z.ltb_lt; lia).
  simpl.
  destruct (nth_error l (Z.to_nat k)) as [a |] eqn:E; [ eauto | ].
  apply nth_error_None in E. lia.
Qed.

Lemma list_set_Ok {A : Type} (l : list A) (k : Z) (v : A) :
  (0 <= k < Z.of_nat (length l))%Z ->
  list_set l k v =
    Ok (firstn (Z.to_nat k) l ++ v :: skipn (S (Z.to_nat k)) l).
Proof.
  intros H. unfold list_set.
  replace (k <? 0)%Z with false by (symmetry; apply Z.ltb_ge; lia).
  replace (0 <=? k)%Z with true by (symmetry; apply Z.leb_le; lia).
  replace (k <? Z.of_nat (length l))%Z with true
    by (symmetry; apply Z.ltb_lt; lia).
  reflexivity.
Qed.

Lemma set_length {A : Type} (l : list A) (k : nat) (v : A) :
  (k < length l)%nat ->
  length (firstn k l ++ v :: skipn (S k) l) = length l.
Proof.
  intros H. rewrite length_app, length_firstn. cbn [length].
  rewrite length_skipn. lia.
Qed.

Lemma set_nth_same {A : Type} (l : list A) (k : nat) (v : A) :
  (k < length l)%nat ->
  nth_error (firstn k l ++ v :: skipn (S k) l) k = Some v.
Proof.
  intros H. rewrite nth_error_app2; rewrite length_firstn.
  - replace (k - Nat.min k (length l))%nat with 0%nat by lia. reflexivity.
  - lia.
Qed.

Lemma set_nth_other {A : Type} (l : list A) (k k' : nat) (v : A) :
  (k < length l)%nat -> k' <> k ->
  nth_error (firstn k l ++ v :: skipn (S k) l) k' = nth_error l k'.
Proof.
  intros H Hk.
  rewrite <- (firstn_skipn k l) at 3.
  destruct (Nat.lt_ge_cases k' k) as [Hlt | Hge].
  - rewrite !nth_error_app1 by (rewrite length_firstn; lia). reflexivity.
  - rewrite !nth_error_app2 by (rewrite length_firstn; lia).
    rewrite length_firstn.
    replace (Nat.min k (length l)) with k by lia.
    destruct (k' - k)%nat as [| d] eqn:E; [ lia | ].
    simpl.
    assert (Hs : skipn k l = nth k l v :: skipn (S k) l).
    { clear -H. revert k H. induction l as [| a l IH]; intros k H.
      - simpl in H. lia.
      - destruct k; [ reflexivity | ]. simpl. simpl in H.
        rewrite IH by lia. reflexivity. }
    rewrite Hs. reflexivity.
Qed.

(** C5. With a symmetry plane declared (code 1, 2 or 3), the mirrored
    cloud that [wing_inertia] builds for a segment, and the mirrored column
    of segment centre points that [geom_eval] builds, are the originals
    point by point with exactly one sign flipped: z for code 1 (x-y plane),
    y for code 2 (x-z plane), x for code 3 (y-z plane); the two other
    coordinates are unchanged. *)
Theorem mirrored_points_flip_one_sign
  (sym : Z) (cg : point) (mass : Q) (old : option point)
  (pts : list point) (arr : list (list point)) (i : Z)
  (old' : option point) :
  (sym = 1 \/ sym = 2 \/ sym = 3)%Z ->
  (1 <= i < Z.of_nat (length arr))%Z ->
  (exists m signs,
      wing_mirror cg mass sym old pts = Ok (Some m, Some signs) /\
      Forall2 (plane_flip sym) pts (mi_pts m)) /\
  (exists arr' signs col col',
      geom_mirror arr sym i old' = Ok (arr', Some signs) /\
      py_index arr (i - 1) = Ok col /\
      py_index arr' i = Ok col' /\
      Forall2 (plane_flip sym) col col').
Proof.
  intros Hsym Hi. split.
  - destruct (wing_mirror_plane cg mass sym old pts Hsym)
      as [signs [Hs Hm]].
    destruct (wing_sym_signs_plane sym old Hsym) as [signs' [Hs' Hflip]].
    rewrite Hs in Hs'. injection Hs' as <-.
    eexists. exists signs. split; [ exact Hm | ].
    simpl. apply mirror_points_flip. exact Hflip.
  - destruct (geom_sym_signs_plane sym old' Hsym) as [signs [Hs Hflip]].
    destruct (py_index_Ok_nth arr (i - 1)) as [col [Hcol _]]; [ lia | ].
    set (arr' := firstn (Z.to_nat i) arr
                 ++ mirror_points signs col :: skipn (S (Z.to_nat i)) arr).
    exists arr', signs, col, (mirror_points signs col).
    assert (Hlen : (Z.to_nat i < length arr)%nat) by lia.
    repeat split.
    + unfold geom_mirror.
      replace (sym =? 0)%Z with false by (symmetry; apply Z.eqb_neq; lia).
      rewrite Hs, Hcol. simpl.
      rewrite list_set_Ok by lia. reflexivity.
    + exact Hcol.
    + destruct (py_index_Ok_nth arr' i) as [c [Hc Hn]].
      { unfold arr'. rewrite set_length by exact Hlen. lia. }
      unfold arr' in Hn. rewrite set_nth_same in Hn by exact Hlen.
      injection Hn as <-. exact Hc.
    + apply mirror_points_flip. exact Hflip.
Qed.

Lemma mirrored_points_flip_one_sign_witness :
  (exists m signs,
      wing_mirror (0, 0, 0) 6 2 None [(1, 2, 3); (4, 5, 6)]
        = Ok (Some m, Some signs) /\
      Forall2 (plane_flip 2) [(1, 2, 3); (4, 5, 6)] (mi_pts m)) /\
  (exists arr' signs col col',
      geom_mirror [[(1, 2, 3)]; [(0, 0, 0)]] 2 1 None
        = Ok (arr', Some signs) /\
      py_index [[(1, 2, 3)]; [(0, 0, 0)]] (1 - 1) = Ok col /\
      py_index arr' 1 = Ok col' /\
      Forall2 (plane_flip 2) col col').
Proof.
  apply (mirrored_points_flip_one_sign 2 (0, 0, 0) 6 None
           [(1, 2, 3); (4, 5, 6)] [[(1, 2, 3)]; [(0, 0, 0)]] 1 None).
  - right. left. reflexivity.
  - simpl. lia.
Defined.

(** ** The tensor of a mirrored cloud *)

Lemma Qsq_nonneg (x : Q) : 0 <= x ^ 2.
Proof.
  assert (H : x ^ 2 == x * x) by (simpl; reflexivity).
  rewrite H. nra.
Qed.

Lemma Qsq_sum_nonneg (x y : Q) : 0 <= x ^ 2 + y ^ 2.
Proof.
  pose proof (Qsq_nonneg x). pose proof (Qsq_nonneg y). lra.
Qed.

Lemma lumped_diagonal_nonneg (M : Q) (cg : point) (pts : list point) :
  0 <= M ->
  0 <= Ixx (lumped_tensor M cg pts) /\
  0 <= Iyy (lumped_tensor M cg pts) /\
  0 <= Izz (lumped_tensor M cg pts).
Proof.
  intros HM. unfold lumped_tensor. simpl.
  repeat split; apply np_sum_map_nonneg; intros p;
    apply Qmult_le_0_compat; try exact HM; apply Qsq_sum_nonneg.
Qed.

Lemma np_sum_map_mirror (f g : point -> Q) (signs : point)
  (pts : list point) :
  (forall p, f (mirror_point signs p) == g p) ->
  np_sum (map f (mirror_points signs pts)) == np_sum (map g pts).
Proof.
  intros H. unfold mirror_points. rewrite map_map.
  apply np_sum_map_ext. exact H.
Qed.

Ltac mirror_term :=
  intros [[x y] z]; unfold mirror_point, px, py, pz; simpl;
  unfold px, py, pz; simpl.

(** C6. For a segment cloud with a non-negative mass and a declared
    mirror plane, the mirrored contribution is the six sums taken on the
    mirrored coordinates; its diagonal entries are non-negative; and about
    a centre of gravity lying in the plane the diagonal entries equal
    those of the original cloud while the products change sign with the
    plane: the x-z mirror (code 2) negates Ixy and Iyz and keeps Ixz, the
    x-y mirror (code 1) negates Iyz and Ixz and keeps Ixy, the y-z mirror
    (code 3) negates Ixy and Ixz and keeps Iyz. *)
Theorem mirrored_tensor_signs
  (cg : point) (mass : Q) (sym : Z) (old : option point)
  (pts : list point) :
  0 <= mass ->
  (sym = 1 \/ sym = 2 \/ sym = 3)%Z ->
  exists m signs,
    wing_mirror cg mass sym old pts = Ok (Some m, Some signs) /\
    mi_pts m = mirror_points signs pts /\
    mi_I m = lumped_tensor (mi_M m) cg (mi_pts m) /\
    0 <= Ixx (mi_I m) /\ 0 <= Iyy (mi_I m) /\ 0 <= Izz (mi_I m) /\
    let I := lumped_tensor (point_mass mass pts) cg pts in
    (sym = 2%Z -> py cg == 0 ->
       Ixx (mi_I m) == Ixx I /\ Iyy (mi_I m) == Iyy I /\
       Izz (mi_I m) == Izz I /\
       Ixy (mi_I m) == - Ixy I /\ Iyz (mi_I m) == - Iyz I /\
       Ixz (mi_I m) == Ixz I) /\
    (sym = 1%Z -> pz cg == 0 ->
       Ixx (mi_I m) == Ixx I /\ Iyy (mi_I m) == Iyy I /\
       Izz (mi_I m) == Izz I /\
       Ixy (mi_I m) == Ixy I /\ Iyz (mi_I m) == - Iyz I /\
       Ixz (mi_I m) == - Ixz I) /\
    (sym = 3%Z -> px cg == 0 ->
       Ixx (mi_I m) == Ixx I /\ Iyy (mi_I m) == Iyy I /\
       Izz (mi_I m) == Izz I /\
       Ixy (mi_I m) == - Ixy I /\ Iyz (mi_I m) == Iyz I /\
       Ixz (mi_I m) == - Ixz I).
Proof.
  intros Hmass Hsym.
  destruct (wing_mirror_plane cg mass sym old pts Hsym) as [signs [Hs Hm]].
  eexists. exists signs. split; [ exact Hm | ].
  cbn [mi_pts mi_I mi_M].
  split; [ reflexivity | ]. split; [ reflexivity | ].
  pose proof (lumped_diagonal_nonneg
                (point_mass mass (mirror_points signs pts)) cg
                (mirror_points signs pts)
                (point_mass_nonneg mass _ Hmass)) as [Hxx [Hyy Hzz]].
  split; [ exact Hxx | ]. split; [ exact Hyy | ]. split; [ exact Hzz | ].
  unfold point_mass. rewrite mirror_points_length.
  fold (point_mass mass pts). set (M := point_mass mass pts).
  destruct cg as [[cx cy] cz].
  cbv zeta. unfold lumped_tensor. cbn [Ixx Iyy Izz Ixy Iyz Ixz].
  split; [ | split ]; intros -> Hcg; cbn in Hs; injection Hs as <-;
    unfold px, py, pz in Hcg; cbn [fst snd] in Hcg;
    repeat split;
    try (rewrite <- np_sum_map_opp);
    apply np_sum_map_mirror; mirror_term; try (rewrite Hcg); ring.
Qed.

Lemma mirrored_tensor_signs_witness :
  0 <= 6 /\ (2 = 1 \/ 2 = 2 \/ 2 = 3)%Z /\
  exists m signs,
    wing_mirror (0, 0, 0) 6 2 None [(1, 2, 3); (4, 5, 6)]
      = Ok (Some m, Some signs) /\
    0 <= Ixx (mi_I m) /\ 0 <= Iyy (mi_I m) /\ 0 <= Izz (mi_I m) /\
    let I := lumped_tensor (point_mass 6 [(1, 2, 3); (4, 5, 6)]) (0, 0, 0)
                           [(1, 2, 3); (4, 5, 6)] in
    Ixy (mi_I m) == - Ixy I /\ Iyz (mi_I m) == - Iyz I /\
    Ixz (mi_I m) == Ixz I.
Proof.
  assert (H6 : 0 <= 6) by lra.
  assert (H2 : (2 = 1 \/ 2 = 2 \/ 2 = 3)%Z) by (right; left; reflexivity).
  split; [ exact H6 | ]. split; [ exact H2 | ].
  destruct (mirrored_tensor_signs (0, 0, 0) 6 2 None
              [(1, 2, 3); (4, 5, 6)] H6 H2)
    as [m [signs [Hm [_ [_ [Hxx [Hyy [Hzz [Hxz _]]]]]]]]].
  exists m, signs.
  split; [ exact Hm | ]. split; [ exact Hxx | ]. split; [ exact Hyy | ].
  split; [ exact Hzz | ].
  destruct (Hxz eq_refl (Qeq_refl 0)) as [_ [_ [_ [Hxy [Hyz Hxz']]]]].
  repeat split; assumption.
Defined.

(** ** A wing without symmetry plane *)

Lemma wing_mirror_none (cg : point) (mass : Q) (old : option point)
  (pts : list point) :
  wing_mirror cg mass 0 old pts = Ok (None, old).
Proof. reflexivity. Qed.

Lemma wing_segment_no_symmetry
  (tigl : Tigl) (subd_c SPACING : Q) (fuse : Z) (cg : point)
  (mass_seg_i : list (list Q)) (awg : AircraftWingGeometry) (zeta : Q)
  (w a i : Z) (old : option point) :
  py_index (wing_sym awg) (w - 1) = Ok 0%Z ->
  wing_segment tigl subd_c SPACING fuse cg mass_seg_i awg zeta w a i old =
    (o <- wing_segment_own tigl subd_c SPACING fuse cg mass_seg_i awg zeta
                           w a i ;;
     Ok (mkSegmentResult o None old)).
Proof.
  intros Hsym. unfold wing_segment.
  destruct (wing_segment_own tigl subd_c SPACING fuse cg mass_seg_i awg
              zeta w a i) as [o | e]; simpl; [ | reflexivity ].
  rewrite Hsym. reflexivity.
Qed.

Lemma wing_segment_acc_none (s : wing_state) (o : own_cloud) :
  wing_segment_acc s (mkSegmentResult o None (ws_signs s)) = wing_own_acc s o.
Proof. reflexivity. Qed.

Lemma wing_segments_no_symmetry
  (tigl : Tigl) (subd_c SPACING : Q) (fuse : Z) (cg : point)
  (mass_seg_i : list (list Q)) (awg : AircraftWingGeometry) (zeta : Q)
  (w : Z) (ids : list Z) :
  py_index (wing_sym awg) (w - 1) = Ok 0%Z ->
  forall s,
    wing_segments tigl subd_c SPACING fuse cg mass_seg_i awg zeta w ids s =
    wing_own_segments tigl subd_c SPACING fuse cg mass_seg_i awg zeta w
                      ids s.
Proof.
  intros Hsym. induction ids as [| i rest IH]; intros s; simpl.
  - reflexivity.
  - destruct (i =? 0)%Z; [ reflexivity | ].
    rewrite wing_segment_no_symmetry by exact Hsym.
    destruct (wing_segment_own tigl subd_c SPACING fuse cg mass_seg_i awg
                zeta w (ws_a s) i) as [o | e]; simpl; [ | reflexivity ].
    rewrite wing_segment_acc_none. apply IH.
Qed.

Lemma wing_trace_no_symmetry
  (tigl : Tigl) (subd_c SPACING : Q) (fuse : Z) (cg : point)
  (mass_seg_i : list (list Q)) (awg : AircraftWingGeometry) (zeta : Q)
  (w : Z) (ids : list Z) :
  py_index (wing_sym awg) (w - 1) = Ok 0%Z ->
  forall s rs,
    wing_trace tigl subd_c SPACING fuse cg mass_seg_i awg zeta w ids s
      = Ok rs ->
    Forall (fun r => sr_mirror r = None) rs.
Proof.
  intros Hsym. induction ids as [| i rest IH]; intros s rs; simpl.
  - intros [= <-]. constructor.
  - destruct (i =? 0)%Z; [ intros [= <-]; constructor | ].
    rewrite wing_segment_no_symmetry by exact Hsym.
    destruct (wing_segment_own tigl subd_c SPACING fuse cg mass_seg_i awg
                zeta w (ws_a s) i) as [o | e]; simpl; [ | discriminate ].
    intros H. bind_inv H as rs' Hrs. injection H as <-.
    constructor; [ reflexivity | ]. eapply IH. exact Hrs.
Qed.

(** The loop over the segments is the trace of their results folded into
    the accumulators. *)
Lemma wing_segments_trace
  (tigl : Tigl) (subd_c SPACING : Q) (fuse : Z) (cg : point)
  (mass_seg_i : list (list Q)) (awg : AircraftWingGeometry) (zeta : Q)
  (w : Z) (ids : list Z) (s : wing_state) :
  wing_segments tigl subd_c SPACING fuse cg mass_seg_i awg zeta w ids s =
    (rs <- wing_trace tigl subd_c SPACING fuse cg mass_seg_i awg zeta w
                      ids s ;;
     Ok (fold_left wing_segment_acc rs s)).
Proof.
  revert s. induction ids as [| i rest IH]; intros s; simpl.
  - reflexivity.
  - destruct (i =? 0)%Z; [ reflexivity | ].
    destruct (wing_segment tigl subd_c SPACING fuse cg mass_seg_i awg zeta
                w (ws_a s) i (ws_signs s)) as [r | e]; simpl;
      [ | reflexivity ].
    rewrite IH.
    destruct (wing_trace tigl subd_c SPACING fuse cg mass_seg_i awg zeta w
                rest (wing_segment_acc s r)); reflexivity.
Qed.

(** C8. For a wing whose symmetry code is 0, the body of the loop of
    [wing_inertia] does exactly what the accumulation of the sampled
    clouds alone does (same tensor, same point cloud, same offset [a]),
    and no segment of the wing has a mirrored cloud. *)
Theorem no_symmetry_no_mirror
  (tigl : Tigl) (subd_c SPACING : Q) (fuse : Z) (cg : point)
  (mass_seg_i : list (list Q)) (awg : AircraftWingGeometry) (w : Z)
  (s : wing_state) :
  py_index (wing_sym awg) (w - 1) = Ok 0%Z ->
  wing_body tigl subd_c SPACING fuse cg mass_seg_i awg w s =
    wing_own_body tigl subd_c SPACING fuse cg mass_seg_i awg w s /\
  (forall zeta ids rs,
      wing_trace tigl subd_c SPACING fuse cg mass_seg_i awg zeta w ids s
        = Ok rs ->
      Forall (fun r => sr_mirror r = None) rs).
Proof.
  intros Hsym. split.
  - unfold wing_body, wing_own_body.
    destruct (wing_zeta subd_c) as [zeta | e]; simpl; [ | reflexivity ].
    destruct (py_index (w_seg_sec awg) (w - 1)) as [col | e]; simpl;
      [ | reflexivity ].
    rewrite wing_segments_no_symmetry by exact Hsym.
    destruct (wing_own_segments tigl subd_c SPACING fuse cg mass_seg_i awg
                zeta w (map seg_id col) s) as [s' | e]; simpl;
      [ | reflexivity ].
    rewrite Hsym. reflexivity.
  - intros zeta ids rs. apply wing_trace_no_symmetry. exact Hsym.
Qed.

Lemma no_symmetry_no_mirror_witness :
  py_index (wing_sym plain_wing_awg) (1 - 1) = Ok 0%Z /\
  wing_body plain_wing 1 1 0 (0, 0, 0) [[100]] plain_wing_awg 1
            wing_state_init =
    wing_own_body plain_wing 1 1 0 (0, 0, 0) [[100]] plain_wing_awg 1
                  wing_state_init /\
  (forall zeta ids rs,
      wing_trace plain_wing 1 1 0 (0, 0, 0) [[100]] plain_wing_awg zeta 1
                 ids wing_state_init = Ok rs ->
      Forall (fun r => sr_mirror r = None) rs).
Proof.
  split; [ reflexivity | ].
  apply (no_symmetry_no_mirror plain_wing 1 1 0 (0, 0, 0) [[100]]
           plain_wing_awg 1 wing_state_init).
  reflexivity.
Defined.

(** ** Ranges *)

Lemma py_range_nil (lo hi : Z) : (hi <= lo)%Z -> py_range lo hi = [].
Proof.
  intros H. unfold py_range.
  replace (Z.to_nat (hi - lo)) with 0%nat by lia. reflexivity.
Qed.

Lemma py_range_snoc (lo hi : Z) :
  (lo <= hi)%Z -> py_range lo (hi + 1) = py_range lo hi ++ [hi].
Proof.
  intros H. unfold py_range.
  replace (Z.to_nat (hi + 1 - lo)) with (Z.to_nat (hi - lo) + 1)%nat by lia.
  rewrite seq_app, map_app. simpl.
  f_equal. f_equal. lia.
Qed.

Lemma py_range_cons (lo hi : Z) :
  (lo < hi)%Z -> py_range lo hi = lo :: py_range (lo + 1) hi.
Proof.
  intros H. unfold py_range.
  replace (Z.to_nat (hi - lo)) with (S (Z.to_nat (hi - (lo + 1)))) by lia.
  simpl. f_equal; [ lia | ].
  rewrite <- seq_shift, map_map.
  apply map_ext. intros k. lia.
Qed.

Lemma in_py_range (lo hi k : Z) :
  In k (py_range lo hi) <-> (lo <= k < hi)%Z.
Proof.
  unfold py_range. rewrite in_map_iff. split.
  - intros [n [<- Hn]]. apply in_seq in Hn. lia.
  - intros H. exists (Z.to_nat (k - lo)). split; [ lia | ].
    apply in_seq. lia.
Qed.

Lemma py_range_length (lo hi : Z) :
  length (py_range lo hi) = Z.to_nat (hi - lo).
Proof.
  unfold py_range. rewrite length_map, length_seq. reflexivity.
Qed.

(** ** Subdivision counts *)

Lemma ceil_div_Ok (x spacing : Q) :
  ~ spacing == 0 -> ceil_div x spacing = Ok (Qceiling (x / spacing)).
Proof.
  intros H. unfold ceil_div.
  destruct (Qeq_bool spacing 0) eqn:E; [ | reflexivity ].
  apply Qeq_bool_iff in E. contradiction.
Qed.

Lemma clamp_subd_nonzero (c : Z) : clamp_subd c <> 0%Z.
Proof.
  unfold clamp_subd. destruct (c =? 0)%Z eqn:E; [ lia | ].
  apply Z.eqb_neq in E. exact E.
Qed.

(** C7. With a spacing different from zero, the three subdivision counts
    of a fuselage segment are the ceilings of length / SPACING,
    perimeter / SPACING and (width / 2) / SPACING, and the spanwise count
    of a wing segment is the ceiling of length / SPACING, each replaced by
    1 when it is 0; nothing is raised and no count is 0. *)
Theorem subdivision_counts_clamped
  (SPACING : Q) (afg : AircraftFuseGeometry) (f i : Z)
  (len per width : Q) (awg : AircraftWingGeometry) (w a i' : Z)
  (wlen : Q) :
  ~ SPACING == 0 ->
  at_rc (fuse_seg_length afg) (i - 1) (f - 1) = Ok len ->
  at_rc (fuse_sec_per afg) (i - 1) (f - 1) = Ok per ->
  at_rc (fuse_sec_width afg) (i - 1) (f - 1) = Ok width ->
  at_rc (wing_seg_length awg) (i' - 1) (w + a - 1) = Ok wlen ->
  let clamp c := if (c =? 0)%Z then 1%Z else c in
  fuse_subdivisions SPACING afg f i =
    Ok (clamp (Qceiling (len / SPACING)),
        clamp (Qceiling (per / SPACING)),
        clamp (Qceiling ((width / 2) / SPACING))) /\
  wing_subd_l SPACING awg w a i' = Ok (clamp (Qceiling (wlen / SPACING))) /\
  (forall c, clamp c <> 0%Z) /\
  clamp 0%Z = 1%Z.
Proof.
  intros Hsp Hlen Hper Hwidth Hwlen clamp.
  repeat split.
  - unfold fuse_subdivisions.
    rewrite Hlen, Hper, Hwidth. simpl.
    rewrite !ceil_div_Ok by exact Hsp. reflexivity.
  - unfold wing_subd_l. rewrite Hwlen. simpl.
    rewrite ceil_div_Ok by exact Hsp. reflexivity.
  - intros c. apply clamp_subd_nonzero.
Qed.

Lemma subdivision_counts_clamped_witness :
  ~ (1 # 2) == 0 /\
  Qceiling (0 / (1 # 2)) = 0%Z /\
  Qceiling ((0 / 2) / (1 # 2)) = 0%Z /\
  fuse_subdivisions (1 # 2) flat_fuse_afg 1 1 = Ok (1, 4, 1)%Z /\
  wing_subd_l (1 # 2) flat_wing_awg 1 0 1 = Ok 1%Z.
Proof.
  assert (H : ~ (1 # 2) == 0) by (intros E; discriminate E).
  split; [ exact H | ].
  split; [ reflexivity | ]. split; [ reflexivity | ].
  destruct (subdivision_counts_clamped (1 # 2) flat_fuse_afg 1 1 0 2 0
              flat_wing_awg 1 0 1 0 H eq_refl eq_refl eq_refl eq_refl)
    as [Hf [Hw _]].
  split; [ exact Hf | exact Hw ].
Defined.

(** The counts that [fuse_segment] and [wing_segment_own] sample with are
    those of [fuse_subdivisions] and [wing_subd_l]. *)
Lemma fuse_segment_subdivisions
  (m : MathLib) (tigl : Tigl) (SPACING : Q) (mass_seg_i : list (list Q))
  (afg : AircraftFuseGeometry) (f i : Z) (old : option point)
  (r : fuse_segment_result) :
  fuse_segment m tigl SPACING mass_seg_i afg f i old = Ok r ->
  fuse_subdivisions SPACING afg f i = Ok (fr_subd r).
Proof.
  unfold fuse_segment. intros H.
  bind_inv H as [[subd_l SUBD_C0] subd_r] Hsub.
  bind_inv H as D HD. bind_inv H as c Hc.
  bind_inv H as [fpts p0] Hst.
  bind_inv H as mass Hmass. injection H as <-. exact Hsub.
Qed.

(** ** The chordwise coordinate *)

Lemma zsum_app (l1 l2 : list Z) : zsum (l1 ++ l2) = (zsum l1 + zsum l2)%Z.
Proof.
  induction l1 as [| x l1 IH]; simpl; [ reflexivity | rewrite IH; lia ].
Qed.

Lemma zsum_nonneg (l : list Z) :
  Forall (fun k => (0 <= k)%Z) l -> (0 <= zsum l)%Z.
Proof.
  induction 1 as [| k l Hk _ IH]; simpl; lia.
Qed.

Lemma py_range_nonneg (hi : Z) :
  Forall (fun k => (0 <= k)%Z) (py_range 0 hi).
Proof.
  apply Forall_forall. intros k Hk. apply in_py_range in Hk. lia.
Qed.

Lemma fold_DEN (l : list Z) (a : Q) :
  fold_left (fun den d => den + inject_Z d) l a == a + inject_Z (zsum l).
Proof.
  revert a. induction l as [| d l IH]; intros a; simpl.
  - ring.
  - rewrite IH. rewrite inject_Z_plus. ring.
Qed.

Lemma py_int_nonneg (x : Q) : 0 <= x -> (0 <= py_int x)%Z.
Proof.
  intros H. unfold py_int. apply Z.quot_pos; [ | lia ].
  destruct x as [n d]. unfold Qle in H. simpl in *. lia.
Qed.

Lemma py_int_plus_2 (x : Q) : 0 <= x -> py_int (x + 2) = (py_int x + 2)%Z.
Proof.
  intros H. destruct x as [n d].
  assert (E1 : Qnum ((n # d) + 2) = (n + 2 * Z.pos d)%Z) by (simpl; lia).
  assert (E2 : Z.pos (Qden ((n # d) + 2)) = Z.pos d) by (simpl; lia).
  unfold py_int. rewrite E1, E2. cbn [Qnum Qden].
  unfold Qle in H. cbn [Qnum Qden] in H.
  apply Z.quot_add; [ lia | nia ].
Qed.

Lemma wing_DEN_value (subd_c : Q) :
  0 <= subd_c ->
  wing_DEN subd_c ==
    inject_Z (zsum (py_range 0 (py_int subd_c + 1)) + (py_int subd_c + 1)).
Proof.
  intros H. unfold wing_DEN. rewrite fold_DEN.
  rewrite py_int_plus_2 by exact H.
  pose proof (py_int_nonneg subd_c H) as Hn.
  replace (py_int subd_c + 2)%Z with ((py_int subd_c + 1) + 1)%Z by lia.
  rewrite py_range_snoc by lia.
  rewrite zsum_app. simpl.
  rewrite Z.add_0_r. ring.
Qed.

Lemma ze_step_0 (zeta : Q) (k : Z) (ze : Q) :
  ze_step 0 zeta k ze = ze + inject_Z k * zeta.
Proof. reflexivity. Qed.

Lemma ze_step_1 (zeta : Q) (k : Z) (ze : Q) :
  ze_step 1 zeta k ze = ze - inject_Z k * zeta.
Proof. reflexivity. Qed.

Lemma unit_fraction (a D : Z) (zeta : Q) :
  (0 < D)%Z -> (0 <= a <= D)%Z -> zeta == 1 / inject_Z D ->
  0 <= inject_Z a * zeta /\ inject_Z a * zeta <= 1.
Proof.
  intros HD Ha Hz.
  assert (HDq : 0 < inject_Z D).
  { change 0 with (inject_Z 0). rewrite <- Zlt_Qlt. exact HD. }
  assert (H0 : 0 <= inject_Z a).
  { change 0 with (inject_Z 0). rewrite <- Zle_Qle. lia. }
  assert (H1 : inject_Z a <= inject_Z D) by (rewrite <- Zle_Qle; lia).
  assert (E : inject_Z a * zeta == inject_Z a / inject_Z D).
  { rewrite Hz. field. lra. }
  rewrite E. split.
  - apply Qle_shift_div_l; [ exact HDq | ]. rewrite Qmult_0_l. exact H0.
  - apply Qle_shift_div_r; [ exact HDq | ]. rewrite Qmult_1_l. exact H1.
Qed.

(** With [D] the denominator, the walk from 0 stays at [acc / D] for the
    sum [acc] of the counters seen so far. *)
Lemma chord_params_up (D : Z) (zeta : Q) (ks : list Z) :
  (0 < D)%Z -> zeta == 1 / inject_Z D ->
  Forall (fun k => (0 <= k)%Z) ks ->
  forall (acc : Z) (ze : Q),
    (0 <= acc)%Z -> (acc + zsum ks <= D)%Z ->
    ze == inject_Z acc * zeta ->
    Forall in_unit (chord_params 0 zeta ks ze).
Proof.
  intros HD Hz Hks.
  induction Hks as [| k ks Hk Hks IH]; intros acc ze Hacc Hsum Hze; simpl.
  - constructor.
  - pose proof (zsum_nonneg ks Hks) as Hnn.
    simpl in Hsum.
    assert (Hze' : ze_step 0 zeta k ze == inject_Z (acc + k) * zeta).
    { rewrite ze_step_0, Hze, inject_Z_plus. ring. }
    constructor.
    + unfold in_unit. rewrite Hze'.
      apply (unit_fraction (acc + k) D zeta HD); [ lia | exact Hz ].
    + apply (IH (acc + k)%Z); [ lia | lia | exact Hze' ].
Qed.

(** The walk from 1 stays at [1 - acc / D]. *)
Lemma chord_params_down (D : Z) (zeta : Q) (ks : list Z) :
  (0 < D)%Z -> zeta == 1 / inject_Z D ->
  Forall (fun k => (0 <= k)%Z) ks ->
  forall (acc : Z) (ze : Q),
    (0 <= acc)%Z -> (acc + zsum ks <= D)%Z ->
    ze == 1 - inject_Z acc * zeta ->
    Forall in_unit (chord_params 1 zeta ks ze).
Proof.
  intros HD Hz Hks.
  induction Hks as [| k ks Hk Hks IH]; intros acc ze Hacc Hsum Hze; simpl.
  - constructor.
  - pose proof (zsum_nonneg ks Hks) as Hnn.
    simpl in Hsum.
    assert (Hze' : ze_step 1 zeta k ze == 1 - inject_Z (acc + k) * zeta).
    { rewrite ze_step_1, Hze, inject_Z_plus. ring. }
    constructor.
    + unfold in_unit. rewrite Hze'.
      destruct (unit_fraction (acc + k) D zeta HD) as [Hlo Hhi];
        [ lia | exact Hz | ].
      lra.
    + apply (IH (acc + k)%Z); [ lia | lia | exact Hze' ].
Qed.

Lemma chord_loop_queries (tigl : Tigl) (w i : Z) (et ZLE zeta : Q)
  (ks : list Z) (ze : Q) :
  chord_loop tigl w i et ZLE zeta ks ze =
    chord_queries tigl w i et (chord_params ZLE zeta ks ze).
Proof.
  revert ze. induction ks as [| k ks IH]; intros ze; simpl.
  - reflexivity.
  - rewrite IH. reflexivity.
Qed.

Lemma station_ZLE_cases (tigl : Tigl) (w i : Z) (et : Q) :
  station_ZLE tigl w i et = 0 \/ station_ZLE tigl w i et = 1.
Proof.
  unfold station_ZLE.
  destruct (Qltb _ _); [ left | right ]; reflexivity.
Qed.

(** C10. With [subd_c >= 0], [zeta = 1/DEN] is computed without error and,
    at every spanwise station, the chordwise coordinates passed to
    [wingGetLowerPoint] and [wingGetUpperPoint] (0 and 1 for the two edge
    points, then the values of [ze] of the [k] loop, each used for a lower
    and an upper point) all lie in the closed interval from 0 to 1. *)
Theorem chordwise_coordinate_in_unit_interval
  (tigl : Tigl) (subd_c : Q) (w i : Z) (et : Q) :
  0 <= subd_c ->
  exists zeta,
    wing_zeta subd_c = Ok zeta /\
    let ZLE := station_ZLE tigl w i et in
    let zes := chord_params ZLE zeta (py_range 0 (py_int subd_c + 1)) ZLE in
    station_points tigl subd_c zeta w i et =
      wingGetLowerPoint tigl w i et 0
        :: wingGetLowerPoint tigl w i et 1
        :: chord_queries tigl w i et zes /\
    station_params ZLE subd_c zeta = 0 :: 1 :: zes /\
    Forall in_unit (station_params ZLE subd_c zeta).
Proof.
  intros Hc.
  pose proof (py_int_nonneg subd_c Hc) as Hn.
  set (n := py_int subd_c) in *.
  set (S := zsum (py_range 0 (n + 1))).
  assert (HS : (0 <= S)%Z) by (apply zsum_nonneg, py_range_nonneg).
  set (D := (S + (n + 1))%Z).
  assert (HD : (0 < D)%Z) by (unfold D; lia).
  assert (HDEN : wing_DEN subd_c == inject_Z D)
    by (apply wing_DEN_value; exact Hc).
  assert (HDq : 0 < inject_Z D).
  { change 0 with (inject_Z 0). rewrite <- Zlt_Qlt. exact HD. }
  exists (1 / wing_DEN subd_c).
  split.
  - unfold wing_zeta.
    destruct (Qeq_bool (wing_DEN subd_c) 0) eqn:E; [ | reflexivity ].
    apply Qeq_bool_iff in E. rewrite HDEN in E. lra.
  - cbv zeta.
    assert (Hz : 1 / wing_DEN subd_c == 1 / inject_Z D)
      by (rewrite HDEN; reflexivity).
    split; [ | split ].
    + unfold station_points. rewrite chord_loop_queries. reflexivity.
    + reflexivity.
    + unfold station_params. fold n.
      constructor; [ unfold in_unit; lra | ].
      constructor; [ unfold in_unit; lra | ].
      destruct (station_ZLE_cases tigl w i et) as [-> | ->].
      * apply (chord_params_up D _ _ HD Hz (py_range_nonneg _) 0%Z);
          [ lia | fold S; unfold D; lia | simpl; ring ].
      * apply (chord_params_down D _ _ HD Hz (py_range_nonneg _) 0%Z);
          [ lia | fold S; unfold D; lia | simpl; ring ].
Qed.

Lemma chordwise_coordinate_in_unit_interval_witness :
  0 <= 2 /\
  exists zeta,
    wing_zeta 2 = Ok zeta /\
    Forall in_unit (station_params (station_ZLE plain_wing 1 1 0) 2 zeta).
Proof.
  assert (H : 0 <= 2) by lra.
  split; [ exact H | ].
  destruct (chordwise_coordinate_in_unit_interval plain_wing 2 1 1 0 H)
    as [zeta [Hz [_ [_ Hall]]]].
  exists zeta. split; [ exact Hz | exact Hall ].
Defined.

(** ** Conservation of the mass *)

Lemma py_index_In {A : Type} (l : list A) (k : Z) (a : A) :
  py_index l k = Ok a -> In a l.
Proof.
  unfold py_index.
  destruct ((0 <=? _)%Z && _)%bool; [ | discriminate ].
  destruct (nth_error l _) as [b |] eqn:E; [ | discriminate ].
  intros [= <-]. eapply nth_error_In. exact E.
Qed.

Lemma at_rc_nonneg (a : list (list Q)) (r c : Z) (x : Q) :
  nonneg_array a -> at_rc a r c = Ok x -> 0 <= x.
Proof.
  intros Ha H. unfold at_rc in H. bind_inv H as col Hx.
  apply py_index_In in Hx. apply py_index_In in H.
  unfold nonneg_array in Ha. rewrite Forall_forall in Ha.
  specialize (Ha _ Hx). rewrite Forall_forall in Ha. apply Ha. exact H.
Qed.

Lemma Qceiling_nonneg (x : Q) : 0 <= x -> (0 <= Qceiling x)%Z.
Proof.
  intros H. pose proof (Qle_ceiling x) as Hc.
  rewrite Zle_Qle. change (inject_Z 0) with 0. lra.
Qed.

Lemma ceil_div_pos (x spacing : Q) (c : Z) :
  0 < spacing -> 0 <= x -> ceil_div x spacing = Ok c ->
  (1 <= clamp_subd c)%Z.
Proof.
  intros Hsp Hx H. rewrite ceil_div_Ok in H by lra.
  injection H as <-.
  assert (Hq : 0 <= x / spacing).
  { apply Qle_shift_div_l; [ exact Hsp | ]. rewrite Qmult_0_l. exact Hx. }
  pose proof (Qceiling_nonneg _ Hq) as Hc.
  unfold clamp_subd. destruct (Qceiling (x / spacing) =? 0)%Z eqn:E;
    [ lia | ]. apply Z.eqb_neq in E. lia.
Qed.

Lemma wing_segment_points_nonempty (tigl : Tigl) (subd_c zeta : Q)
  (w i subd_l : Z) :
  (1 <= subd_l)%Z -> wing_segment_points tigl subd_c zeta w i subd_l <> [].
Proof.
  intros H. unfold wing_segment_points.
  rewrite py_range_cons by lia. simpl. discriminate.
Qed.

Lemma wing_segment_own_mass
  (tigl : Tigl) (subd_c SPACING : Q) (fuse : Z) (cg : point)
  (mass_seg_i : list (list Q)) (awg : AircraftWingGeometry) (zeta : Q)
  (w a i : Z) (o : own_cloud) :
  0 < SPACING -> nonneg_array (wing_seg_length awg) ->
  wing_segment_own tigl subd_c SPACING fuse cg mass_seg_i awg zeta w a i
    = Ok o ->
  at_rc mass_seg_i (i - 1) (fuse + w + a - 1) = Ok (ow_mass o) /\
  ow_M o = point_mass (ow_mass o) (ow_pts o) /\
  ow_I o = lumped_tensor (ow_M o) cg (ow_pts o) /\
  ow_pts o <> [].
Proof.
  intros Hsp Hlen H. unfold wing_segment_own in H.
  bind_inv H as subd_l Hl. bind_inv H as c Hc. bind_inv H as mass Hmass.
  injection H as <-. simpl.
  repeat split; try assumption.
  apply wing_segment_points_nonempty.
  unfold wing_subd_l in Hl. bind_inv Hl as len Hlen'.
  bind_inv Hl as subd Hsubd. injection Hl as <-.
  eapply ceil_div_pos; [ exact Hsp | | eassumption ].
  eapply at_rc_nonneg; eassumption.
Qed.

Lemma wing_mirror_mass (cg : point) (mass : Q) (sym : Z)
  (old : option point) (pts : list point) (mi : mirrored)
  (signs : option point) :
  pts <> [] ->
  wing_mirror cg mass sym old pts = Ok (Some mi, signs) ->
  cloud_mass (mi_M mi) (mi_pts mi) == mass.
Proof.
  intros Hne H. unfold wing_mirror in H.
  destruct (sym =? 0)%Z; [ discriminate | ].
  destruct (wing_sym_signs sym old) as [sg |]; [ | discriminate ].
  injection H as <- _. simpl.
  apply cloud_mass_point_mass.
  intros E. apply Hne. destruct pts; [ reflexivity | discriminate ].
Qed.

Lemma wing_trace_mass
  (tigl : Tigl) (subd_c SPACING : Q) (fuse : Z) (cg : point)
  (mass_seg_i : list (list Q)) (awg : AircraftWingGeometry) (zeta : Q)
  (w : Z) (ids : list Z) :
  0 < SPACING -> nonneg_array (wing_seg_length awg) ->
  forall s rs,
    wing_trace tigl subd_c SPACING fuse cg mass_seg_i awg zeta w ids s
      = Ok rs ->
    Forall2 (fun i r =>
               at_rc mass_seg_i (i - 1) (fuse + w + ws_a s - 1)
                 = Ok (ow_mass (sr_own r)) /\
               ow_M (sr_own r)
                 = point_mass (ow_mass (sr_own r)) (ow_pts (sr_own r)) /\
               cloud_mass (ow_M (sr_own r)) (ow_pts (sr_own r))
                 == ow_mass (sr_own r) /\
               forall mi, sr_mirror r = Some mi ->
                          cloud_mass (mi_M mi) (mi_pts mi)
                            == ow_mass (sr_own r))
            (before_zero ids) rs.
Proof.
  intros Hsp Hlen. induction ids as [| i rest IH]; intros s rs H;
    simpl in H |- *.
  - injection H as <-. constructor.
  - destruct (i =? 0)%Z; [ injection H as <-; constructor | ].
    bind_inv H as r Hr. bind_inv H as rs' Hrs. injection H as <-.
    unfold wing_segment in Hr. bind_inv Hr as o Ho.
    bind_inv Hr as sym Hsym. bind_inv Hr as [mir signs] Hmir.
    injection Hr as <-. simpl.
    destruct (wing_segment_own_mass _ _ _ _ _ _ _ _ _ _ _ _ Hsp Hlen Ho)
      as [Hm [HM [_ Hne]]].
    constructor.
    + cbn [sr_own sr_mirror]. split; [ exact Hm | ].
      split; [ exact HM | ]. split.
      * rewrite HM. apply cloud_mass_point_mass. exact Hne.
      * intros mi ->. eapply wing_mirror_mass; eassumption.
    + apply IH in Hrs. simpl in Hrs.
      destruct mir; simpl in Hrs; exact Hrs.
Qed.

Lemma ring_points_nonempty (tigl : Tigl) (f i : Z) (et zeta : Q)
  (SUBD_C0 : Z) :
  (0 <= SUBD_C0)%Z -> ring_points tigl f i et zeta SUBD_C0 <> [].
Proof.
  intros H. unfold ring_points. rewrite py_range_cons by lia.
  simpl. discriminate.
Qed.

Lemma fuse_station_grows (m : MathLib) (tigl : Tigl) (f i : Z)
  (eta zeta : Q) (SUBD_C0 subd_r : Z) (D : list Q) (c : point) (j : Z)
  (fpts fpts' : list point) (old p0 : option point) :
  (0 <= SUBD_C0)%Z ->
  fuse_station m tigl f i eta zeta SUBD_C0 subd_r D c j (fpts, old)
    = Ok (fpts', p0) ->
  (length fpts < length fpts')%nat.
Proof.
  intros HC H. unfold fuse_station in H.
  pose proof (ring_points_nonempty tigl f i (inject_Z j * eta) zeta
                SUBD_C0 HC) as Hne.
  destruct (ring_points tigl f i (inject_Z j * eta) zeta SUBD_C0)
    as [| p ring]; [ congruence | ].
  destruct (0 <? subd_r)%Z.
  - destruct (last_point old (p :: ring)); [ | discriminate ].
    injection H as <- _. rewrite !length_app. simpl. lia.
  - injection H as <- _. rewrite length_app. simpl. lia.
Qed.

Lemma fuse_stations_grow (m : MathLib) (tigl : Tigl) (f i : Z)
  (eta zeta : Q) (SUBD_C0 subd_r : Z) (D : list Q) (c : point)
  (js : list Z) :
  (0 <= SUBD_C0)%Z ->
  forall fpts old fpts' p0,
    for_each js (fuse_station m tigl f i eta zeta SUBD_C0 subd_r D c)
             (fpts, old) = Ok (fpts', p0) ->
    (length fpts + length js <= length fpts')%nat.
Proof.
  intros HC. induction js as [| j js IH]; intros fpts old fpts' p0 H;
    simpl in H |- *.
  - injection H as <- _. lia.
  - bind_inv H as [fpts1 old1] Hst.
    apply fuse_station_grows in Hst; [ | exact HC ].
    apply IH in H. lia.
Qed.

Lemma fuse_segment_mass
  (m : MathLib) (tigl : Tigl) (SPACING : Q) (mass_seg_i : list (list Q))
  (afg : AircraftFuseGeometry) (f i : Z) (old : option point)
  (r : fuse_segment_result) :
  0 < SPACING ->
  nonneg_array (fuse_seg_length afg) -> nonneg_array (fuse_sec_per afg) ->
  fuse_segment m tigl SPACING mass_seg_i afg f i old = Ok r ->
  at_rc mass_seg_i (i - 1) (f - 1) = Ok (fr_mass r) /\
  fr_M r = point_mass (fr_mass r) (fr_pts r) /\
  fr_pts r <> [].
Proof.
  intros Hsp Hlen Hper H. unfold fuse_segment in H.
  bind_inv H as [[subd_l SUBD_C0] subd_r] Hsub.
  bind_inv H as D HD. bind_inv H as c Hc.
  bind_inv H as [fpts p0] Hst.
  bind_inv H as mass Hmass. injection H as <-. simpl.
  repeat split; try assumption.
  unfold fuse_subdivisions in Hsub.
  bind_inv Hsub as len Hl1. bind_inv Hsub as cl Hl2.
  bind_inv Hsub as per Hp1. bind_inv Hsub as cp Hp2.
  bind_inv Hsub as width Hw1. bind_inv Hsub as cw Hw2.
  injection Hsub as <- <- <-.
  assert (Hl : (1 <= clamp_subd cl)%Z).
  { eapply ceil_div_pos; [ exact Hsp | | exact Hl2 ].
    eapply at_rc_nonneg; [ exact Hlen | exact Hl1 ]. }
  assert (Hcc : (1 <= clamp_subd cp)%Z).
  { eapply ceil_div_pos; [ exact Hsp | | exact Hp2 ].
    eapply at_rc_nonneg; [ exact Hper | exact Hp1 ]. }
  apply fuse_stations_grow in Hst; [ | lia ].
  rewrite py_range_length in Hst. simpl in Hst.
  intros ->. simpl in Hst. lia.
Qed.

Lemma fuse_trace_mass
  (m : MathLib) (tigl : Tigl) (SPACING : Q) (mass_seg_i : list (list Q))
  (afg : AircraftFuseGeometry) (f : Z) (ids : list Z) :
  0 < SPACING ->
  nonneg_array (fuse_seg_length afg) -> nonneg_array (fuse_sec_per afg) ->
  forall p0 rs,
    fuse_trace m tigl SPACING mass_seg_i afg f ids p0 = Ok rs ->
    Forall2 (fun i r =>
               at_rc mass_seg_i (i - 1) (f - 1) = Ok (fr_mass r) /\
               fr_M r = point_mass (fr_mass r) (fr_pts r) /\
               cloud_mass (fr_M r) (fr_pts r) == fr_mass r)
            ids rs.
Proof.
  intros Hsp Hlen Hper. induction ids as [| i rest IH]; intros p0 rs H;
    simpl in H.
  - injection H as <-. constructor.
  - bind_inv H as r Hr. bind_inv H as rs' Hrs. injection H as <-.
    destruct (fuse_segment_mass _ _ _ _ _ _ _ _ _ Hsp Hlen Hper Hr)
      as [Hm [HM Hne]].
    constructor.
    + split; [ exact Hm | ]. split; [ exact HM | ].
      rewrite HM. apply cloud_mass_point_mass. exact Hne.
    + eapply IH. exact Hrs.
Qed.

Lemma np_sum_map_Forall2 {A B : Type} (f g : B -> Q) (P : A -> B -> Prop)
  (l : list A) (rs : list B) :
  (forall a b, P a b -> f b == g b) ->
  Forall2 P l rs -> np_sum (map f rs) == np_sum (map g rs).
Proof.
  intros H. induction 1 as [| a b l rs Hab _ IH]; simpl.
  - reflexivity.
  - rewrite !np_sum_cons, IH, (H a b Hab). reflexivity.
Qed.

(** The loop over the segments of a fuselage is the trace of their results
    folded into the accumulators. *)
Lemma fuse_segments_trace
  (m : MathLib) (tigl : Tigl) (SPACING : Q) (cg : point)
  (mass_seg_i : list (list Q)) (afg : AircraftFuseGeometry) (f : Z)
  (ids : list Z) (s : fuse_state) :
  for_each ids (fuse_segment_step m tigl SPACING cg mass_seg_i afg f) s =
    (rs <- fuse_trace m tigl SPACING mass_seg_i afg f ids (fs_p0 s) ;;
     Ok (fold_left (fuse_acc cg) rs s)).
Proof.
  revert s. induction ids as [| i rest IH]; intros s; simpl.
  - reflexivity.
  - unfold fuse_segment_step at 1.
    destruct (fuse_segment m tigl SPACING mass_seg_i afg f i (fs_p0 s))
      as [r | e]; simpl; [ | reflexivity ].
    rewrite IH. simpl.
    destruct (fuse_trace m tigl SPACING mass_seg_i afg f rest (fr_p0 r));
      reflexivity.
Qed.

Lemma Forall2_right {A B : Type} (P : A -> B -> Prop) (Q' : B -> Prop)
  (l : list A) (rs : list B) :
  (forall a b, P a b -> Q' b) -> Forall2 P l rs -> Forall Q' rs.
Proof.
  intros H. induction 1; constructor; eauto.
Qed.

(** C2, as amended.  With a positive spacing and non-negative lengths and
    perimeters, every segment cloud sampled by [fuselage_inertia] and
    [wing_inertia] is given the mass read for that segment in the column
    of its component in [mass_seg_i], divided by its number of points:
    the masses of its points add up to the mass of the segment and,
    summed over the segments of a fuselage or of a wing, to the supplied
    masses of that column.  The mirrored cloud of a wing segment is given
    the mass of the wing's own column once more; the column that stands
    for the mirrored wing is not read, and the mirrored cloud carries the
    mass supplied there exactly when that mass equals the one of the
    wing's own column. *)
Theorem sampled_mass_is_conserved
  (m : MathLib) (tigl : Tigl) (SPACING : Q) (cg : point)
  (mass_seg_i : list (list Q))
  (afg : AircraftFuseGeometry) (f : Z) (fids : list Z) (p0 : option point)
  (frs : list fuse_segment_result)
  (subd_c : Q) (fuse : Z) (awg : AircraftWingGeometry) (zeta : Q) (w : Z)
  (wids : list Z) (s : wing_state) (wrs : list segment_result) :
  0 < SPACING ->
  nonneg_array (fuse_seg_length afg) ->
  nonneg_array (fuse_sec_per afg) ->
  nonneg_array (wing_seg_length awg) ->
  fuse_trace m tigl SPACING mass_seg_i afg f fids p0 = Ok frs ->
  wing_trace tigl subd_c SPACING fuse cg mass_seg_i awg zeta w wids s
    = Ok wrs ->
  (Forall2 (fun i r =>
              at_rc mass_seg_i (i - 1) (f - 1) = Ok (fr_mass r) /\
              fr_M r = point_mass (fr_mass r) (fr_pts r))
           fids frs /\
   np_sum (map (fun r => cloud_mass (fr_M r) (fr_pts r)) frs)
     == np_sum (map fr_mass frs)) /\
  (Forall2 (fun i r =>
              at_rc mass_seg_i (i - 1) (fuse + w + ws_a s - 1)
                = Ok (ow_mass (sr_own r)) /\
              ow_M (sr_own r)
                = point_mass (ow_mass (sr_own r)) (ow_pts (sr_own r)))
           (before_zero wids) wrs /\
   np_sum (map (fun r => cloud_mass (ow_M (sr_own r)) (ow_pts (sr_own r)))
               wrs)
     == np_sum (map (fun r => ow_mass (sr_own r)) wrs) /\
   Forall2 (fun i r =>
              forall mi, sr_mirror r = Some mi ->
                cloud_mass (mi_M mi) (mi_pts mi) == ow_mass (sr_own r) /\
                forall supplied,
                  at_rc mass_seg_i (i - 1) (fuse + w + ws_a s)
                    = Ok supplied ->
                  (cloud_mass (mi_M mi) (mi_pts mi) == supplied <->
                   supplied == ow_mass (sr_own r)))
           (before_zero wids) wrs).
Proof.
  intros Hsp Hflen Hfper Hwlen Hf Hw.
  pose proof (fuse_trace_mass m tigl SPACING mass_seg_i afg f fids Hsp
                Hflen Hfper p0 frs Hf) as HF.
  pose proof (wing_trace_mass tigl subd_c SPACING fuse cg mass_seg_i awg
                zeta w wids Hsp Hwlen s wrs Hw) as HW.
  split; [ split | split; [ | split ] ].
  - eapply Forall2_impl; [ | exact HF ]. simpl. intros i r [H1 [H2 _]].
    split; assumption.
  - eapply np_sum_map_Forall2; [ | exact HF ]. simpl.
    intros i r [_ [_ H3]]. exact H3.
  - eapply Forall2_impl; [ | exact HW ]. simpl. intros i r [H1 [H2 _]].
    split; assumption.
  - eapply np_sum_map_Forall2; [ | exact HW ]. simpl.
    intros i r [_ [_ [H3 _]]]. exact H3.
  - eapply Forall2_impl; [ | exact HW ]. simpl.
    intros i r [_ [_ [_ H4]]] mi Hmi. specialize (H4 mi Hmi).
    split; [ exact H4 | ].
    intros supplied _. split; intros E.
    + eapply Qeq_trans; [ symmetry; exact E | exact H4 ].
    + eapply Qeq_trans; [ exact H4 | symmetry; exact E ].
Qed.

Lemma sampled_mass_is_conserved_witness :
  0 < 1 /\
  exists frs wrs,
    fuse_trace rational_math plain_wing 1 [[50]; [100]; [100]]
               plain_fuse_afg 1 [1%Z] None = Ok frs /\
    wing_trace plain_wing 1 1 1 (0, 0, 0) [[50]; [100]; [100]]
               mirrored_wing_awg (1 # 3) 1 [1%Z] wing_state_init = Ok wrs /\
    np_sum (map (fun r => cloud_mass (fr_M r) (fr_pts r)) frs) == 50 /\
    np_sum (map (fun r => cloud_mass (ow_M (sr_own r)) (ow_pts (sr_own r)))
                wrs) == 100 /\
    Forall (fun r => forall mi, sr_mirror r = Some mi ->
                       cloud_mass (mi_M mi) (mi_pts mi) == 100) wrs.
Proof.
  assert (H1 : 0 < 1) by lra.
  split; [ exact H1 | ].
  destruct (fuse_trace rational_math plain_wing 1 [[50]; [100]; [100]]
              plain_fuse_afg 1 [1%Z] None) as [frs | e] eqn:Hf;
    [ | vm_compute in Hf; discriminate Hf ].
  destruct (wing_trace plain_wing 1 1 1 (0, 0, 0) [[50]; [100]; [100]]
              mirrored_wing_awg (1 # 3) 1 [1%Z] wing_state_init)
    as [wrs | e] eqn:Hw; [ | vm_compute in Hw; discriminate Hw ].
  exists frs, wrs.
  split; [ reflexivity | ]. split; [ reflexivity | ].
  destruct (sampled_mass_is_conserved rational_math plain_wing 1 (0, 0, 0)
              [[50]; [100]; [100]] plain_fuse_afg 1 [1%Z] None frs
              1 1 mirrored_wing_awg (1 # 3) 1 [1%Z] wing_state_init wrs H1)
    as [[_ HF] [Hown [HW Hmir]]];
    try (repeat constructor; lra); try assumption.
  split; [ | split ].
  - rewrite HF. vm_compute in Hf. injection Hf as <-. reflexivity.
  - rewrite HW. vm_compute in Hw. injection Hw as <-. reflexivity.
  - clear HF HW Hf Hw.
    cbn [before_zero Z.eqb] in Hown, Hmir.
    inversion Hown as [| i r ids rs [Hread _] Hrest]; subst.
    inversion Hrest; subst.
    inversion Hmir as [| i' r' ids' rs' Hm _]; subst.
    constructor; [ | constructor ].
    intros mi Hmi. destruct (Hm mi Hmi) as [Hval _].
    rewrite Hval.
    change (Ok 100 = Ok (ow_mass (sr_own r))) in Hread.
    injection Hread as <-. reflexivity.
Defined.

(** The mass of the mirror image is not the mass supplied for it: with
    50 for the fuselage, 100 for the wing and 7 for the mirrored wing in
    [mass_seg_i], the mirrored cloud of the wing carries 100, and the wing
    and its mirror image together 200 where 107 was supplied. *)
Lemma mirrored_wing_mass_not_conserved :
  exists r mi,
    wing_trace plain_wing 1 1 1 (0, 0, 0) [[50]; [100]; [7]]
               mirrored_wing_awg (1 # 3) 1 [1%Z] wing_state_init = Ok [r] /\
    sr_mirror r = Some mi /\
    at_rc [[50]; [100]; [7]] (1 - 1) (1 + 1 + 0 - 1) = Ok 100 /\
    at_rc [[50]; [100]; [7]] (1 - 1) (1 + 1 + 0) = Ok 7 /\
    cloud_mass (mi_M mi) (mi_pts mi) == 100 /\
    ~ cloud_mass (mi_M mi) (mi_pts mi) == 7 /\
    cloud_mass (ow_M (sr_own r)) (ow_pts (sr_own r))
      + cloud_mass (mi_M mi) (mi_pts mi) == 200 /\
    ~ cloud_mass (ow_M (sr_own r)) (ow_pts (sr_own r))
        + cloud_mass (mi_M mi) (mi_pts mi) == 100 + 7.
Proof.
  destruct (wing_trace plain_wing 1 1 1 (0, 0, 0) [[50]; [100]; [7]]
              mirrored_wing_awg (1 # 3) 1 [1%Z] wing_state_init)
    as [wrs | e] eqn:Hw; [ | vm_compute in Hw; discriminate Hw ].
  vm_compute in Hw. injection Hw as <-.
  eexists. eexists.
  split; [ reflexivity | ]. split; [ reflexivity | ].
  split; [ reflexivity | ]. split; [ reflexivity | ].
  split; [ vm_compute; reflexivity | ].
  split; [ vm_compute; intros E; discriminate E | ].
  split; [ vm_compute; reflexivity | ].
  vm_compute. intros E. discriminate E.
Qed.

(** ** Loops and array updates *)

Lemma for_each_invariant {A S : Type} (P : S -> Prop)
  (body : A -> S -> res S) (items : list A) :
  (forall a s s', In a items -> P s -> body a s = Ok s' -> P s') ->
  forall s s', P s -> for_each items body s = Ok s' -> P s'.
Proof.
  induction items as [| a items IH]; intros Hbody s s' Hs H; simpl in H.
  - injection H as <-. exact Hs.
  - bind_inv H as s1 H1.
    apply (IH (fun a' t t' Ha' => Hbody a' t t' (or_intror Ha')) s1 s');
      [ | exact H ].
    eapply Hbody; [ left; reflexivity | exact Hs | exact H1 ].
Qed.

Lemma list_set_spec {A : Type} (l : list A) (k : Z) (v : A) (l' : list A) :
  list_set l k v = Ok l' ->
  exists n, (n < length l)%nat /\
            l' = firstn n l ++ v :: skipn (S n) l /\
            forall l2 : list A,
              length l2 = length l ->
              py_index l2 k = match nth_error l2 n with
                              | Some a => Ok a
                              | None => Raise IndexError
                              end.
Proof.
  unfold list_set, py_index. intros H.
  set (k' := if (k <? 0)%Z then (k + Z.of_nat (length l))%Z else k) in *.
  destruct ((0 <=? k')%Z && (k' <? Z.of_nat (length l))%Z)%bool eqn:E;
    [ | discriminate ].
  apply andb_prop in E. destruct E as [E1 E2].
  apply Z.leb_le in E1. apply Z.ltb_lt in E2.
  injection H as <-. exists (Z.to_nat k').
  split; [ lia | ]. split; [ reflexivity | ].
  intros l2 Hlen. rewrite Hlen. fold k'.
  replace ((0 <=? k')%Z && (k' <? Z.of_nat (length l))%Z)%bool with true
    by (symmetry; apply andb_true_intro; split;
        [ apply Z.leb_le | apply Z.ltb_lt ]; lia).
  reflexivity.
Qed.

Lemma list_set_get {A : Type} (l : list A) (k : Z) (v : A) (l' : list A) :
  list_set l k v = Ok l' -> py_index l' k = Ok v.
Proof.
  intros H. destruct (list_set_spec l k v l' H) as [n [Hn [-> Hget]]].
  rewrite Hget by (apply set_length; exact Hn).
  rewrite set_nth_same by exact Hn. reflexivity.
Qed.

Lemma set_rc_get {A : Type} (a : list (list A)) (r c : Z) (v : A)
  (a' : list (list A)) :
  set_rc a r c v = Ok a' -> at_rc a' r c = Ok v.
Proof.
  unfold set_rc, at_rc. intros H.
  bind_inv H as col Hcol. bind_inv H as col' Hcol'.
  rewrite (list_set_get _ _ _ _ H). simpl.
  eapply list_set_get. exact Hcol'.
Qed.

Lemma Forall_set {A : Type} (P : A -> Prop) (l : list A) (n : nat) (v : A) :
  Forall P l -> P v -> Forall P (firstn n l ++ v :: skipn (S n) l).
Proof.
  intros Hl Hv. revert n. induction Hl as [| a l Ha Hl IH]; intros n.
  - rewrite firstn_nil, skipn_nil. simpl. constructor; [ exact Hv | ].
    constructor.
  - destruct n as [| n]; simpl.
    + constructor; [ exact Hv | exact Hl ].
    + constructor; [ exact Ha | apply IH ].
Qed.

Lemma list_set_Forall {A : Type} (P : A -> Prop) (l : list A) (k : Z)
  (v : A) (l' : list A) :
  Forall P l -> P v -> list_set l k v = Ok l' -> Forall P l'.
Proof.
  intros Hl Hv H. destruct (list_set_spec l k v l' H) as [n [_ [-> _]]].
  apply Forall_set; assumption.
Qed.

Lemma py_index_Forall {A : Type} (P : A -> Prop) (l : list A) (k : Z)
  (a : A) :
  Forall P l -> py_index l k = Ok a -> P a.
Proof.
  intros Hl H. apply py_index_In in H.
  rewrite Forall_forall in Hl. apply Hl. exact H.
Qed.

Lemma set_rc_nonneg (a : list (list Q)) (r c : Z) (v : Q)
  (a' : list (list Q)) :
  nonneg_array a -> 0 <= v -> set_rc a r c v = Ok a' -> nonneg_array a'.
Proof.
  unfold set_rc, nonneg_array. intros Ha Hv H.
  bind_inv H as col Hcol. bind_inv H as col' Hcol'.
  eapply list_set_Forall; [ exact Ha | | exact H ].
  eapply list_set_Forall; [ | exact Hv | exact Hcol' ].
  eapply py_index_Forall; [ exact Ha | exact Hcol ].
Qed.

(** ** Segment lengths *)

Lemma segment_length_sym (m : MathLib) (p1 p2 : point) :
  (forall x y, x == y -> np_sqrt m x == np_sqrt m y) ->
  segment_length m p1 p2 == segment_length m p2 p1.
Proof.
  intros Hproper. unfold segment_length. apply Hproper. ring.
Qed.

Lemma length_step_nonneg (m : MathLib) (wcsp : list (list point))
  (i a j : Z) (lengths lengths' : list (list Q)) :
  (forall x, 0 <= np_sqrt m x) ->
  nonneg_array lengths ->
  length_step m wcsp i a j lengths = Ok lengths' ->
  nonneg_array lengths'.
Proof.
  intros Hs Hl H. unfold length_step in H.
  bind_inv H as p1 H1. bind_inv H as p2 H2.
  eapply set_rc_nonneg; [ exact Hl | | exact H ].
  unfold segment_length. apply Hs.
Qed.

Lemma length_wing_nonneg (m : MathLib) (awg : AircraftWingGeometry)
  (wcsp : list (list point)) (i : Z) (st st' : list (list Q) * Z) :
  (forall x, 0 <= np_sqrt m x) ->
  nonneg_array (fst st) ->
  length_wing m awg wcsp i st = Ok st' ->
  nonneg_array (fst st').
Proof.
  intros Hs Hl H. destruct st as [lengths a]. unfold length_wing in H.
  bind_inv H as n Hn. bind_inv H as lengths1 H1. bind_inv H as sym Hsym.
  assert (Hl1 : nonneg_array lengths1).
  { eapply (for_each_invariant nonneg_array); [ | exact Hl | exact H1 ].
    intros j s s' _ Hs0 Hstep. eapply length_step_nonneg; eassumption. }
  destruct (sym =? 0)%Z.
  - injection H as <-. exact Hl1.
  - bind_inv H as col Hcol. bind_inv H as lengths2 H2.
    injection H as <-. simpl.
    eapply list_set_Forall; [ exact Hl1 | | exact H2 ].
    eapply py_index_Forall; [ exact Hl1 | exact Hcol ].
Qed.

Lemma zeros_nonneg (rows cols : nat) :
  nonneg_array (repeat (repeat 0 rows) cols).
Proof.
  unfold nonneg_array. apply Forall_forall. intros col Hcol.
  apply repeat_spec in Hcol. subst col.
  apply Forall_forall. intros x Hx. apply repeat_spec in Hx. subst x. lra.
Qed.

Lemma getwingsegmentlength_nonneg (m : MathLib)
  (awg : AircraftWingGeometry) (wcsp : list (list point))
  (lengths : list (list Q)) :
  (forall x, 0 <= np_sqrt m x) ->
  getwingsegmentlength m awg wcsp = Ok lengths ->
  nonneg_array lengths.
Proof.
  intros Hs Hall. unfold getwingsegmentlength in Hall.
  bind_inv Hall as max_seg_nb Hmax.
  destruct ((max_seg_nb <? 0)%Z || (wing_nb awg <? 0)%Z)%bool;
    [ discriminate | ].
  bind_inv Hall as [lengths1 a1] Hloop. injection Hall as <-.
  change (nonneg_array (fst (lengths1, a1))).
  eapply (for_each_invariant (fun st => nonneg_array (fst st)));
    [ | | exact Hloop ].
  - intros w st st' _ Hst Hw. eapply length_wing_nonneg; eassumption.
  - simpl. apply zeros_nonneg.
Qed.

Lemma rational_sqrt_nonneg (x : Q) : 0 <= rational_sqrt x.
Proof.
  unfold rational_sqrt, Qle. simpl.
  pose proof (Z.sqrt_nonneg (Qnum (Qred x) * Z.pos (Qden (Qred x)))). lia.
Qed.

Lemma rational_sqrt_proper (x y : Q) :
  x == y -> rational_sqrt x == rational_sqrt y.
Proof.
  intros H. unfold rational_sqrt.
  rewrite (Qred_complete x y H). reflexivity.
Qed.

(** ** Reordering of the segments *)

(** C1. A wing of two segments given against the span (segment 1 from
    section 2 to section 3, segment 2 from section 1 to section 2, the
    sections lying at y = 1, 2, 3) is a connected chain: segment 2 then
    segment 1, from the root section 1.  [check_segment_connection] keeps
    segment 1 at the head, because the outer end of segment 2 is not
    strictly below the inner end of segment 1, finds no segment starting
    at section 3, and raises instead of returning the chain. *)
Theorem swapped_pair_is_not_reordered :
  seg_sec_column swapped_pair 2 1 2 = [(2, 3, 1)%Z; (1, 2, 2)%Z] /\
  linked [(1, 2, 2)%Z; (2, 3, 1)%Z] /\
  py (wingGetChordPoint swapped_pair 1 2 0 0)
    < py (wingGetChordPoint swapped_pair 1 1 0 0) /\
  check_segment_connection [1] [1] swapped_pair_awg swapped_pair
    = Raise ValueError.
Proof.
  repeat split; vm_compute; reflexivity.
Qed.

(** The same wing with its segments given along the span, and a wing of
    three segments given out of order whose root segment is not the one
    before segment 1, are reordered. *)
Example shuffled_three_is_reordered :
  check_segment_connection [1] [1] shuffled_three_awg shuffled_three =
    Ok (mkCscResult [4%Z] [1%Z; 2%Z]
          [[(1, 2, 2)%Z; (2, 3, 3)%Z; (3, 4, 1)%Z]]
          [[1%Z; 2%Z; 3%Z; 4%Z]]).
Proof. vm_compute. reflexivity. Qed.

(** C4. With two wings of one segment each (sections 1-2 and sections
    5-6), the section sequence returned for the second wing starts with
    section 1, the root of the first wing, and section 5 is not in it: the
    sections of its chain, without repetition, are 5 and 6. *)
Theorem second_wing_sections_start_at_first_root :
  exists r,
    check_segment_connection [1; 1] [1; 1] two_wings_awg two_wings = Ok r /\
    seg_sec_reordered r = [[(1, 2, 1)%Z]; [(5, 6, 1)%Z]] /\
    sec_index r = [[1%Z; 2%Z]; [1%Z; 6%Z]] /\
    chain_sections [(5, 6, 1)%Z] = [5%Z; 6%Z].
Proof.
  eexists. repeat split; vm_compute; reflexivity.
Qed.

(** ** What the chaining loop guarantees when it returns *)

Lemma for_each_range_invariant {S : Type} (P : Z -> S -> Prop)
  (body : Z -> S -> res S) (hi : Z) :
  (forall j s s', (j < hi)%Z -> P j s -> body j s = Ok s' ->
                  P (j + 1)%Z s') ->
  forall (n : nat) (lo : Z) (s s' : S),
    n = Z.to_nat (hi - lo) -> (lo <= hi)%Z ->
    P lo s -> for_each (py_range lo hi) body s = Ok s' -> P hi s'.
Proof.
  intros Hbody. induction n as [| n IH]; intros lo s s' Hn Hle Hs H.
  - assert (lo = hi) by lia. subst lo.
    rewrite py_range_nil in H by lia. injection H as <-. exact Hs.
  - rewrite py_range_cons in H by lia. simpl in H.
    bind_inv H as s1 H1.
    apply (IH (lo + 1)%Z s1 s'); [ lia | lia | | exact H ].
    eapply Hbody; [ | exact Hs | exact H1 ]. lia.
Qed.

Lemma linked_snoc (l : list seg_row) (r : seg_row) :
  linked l ->
  (forall prev, nth_error l (length l - 1) = Some prev ->
                seg_start r = seg_end prev) ->
  linked (l ++ [r]).
Proof.
  induction l as [| a l IH]; intros Hl Hlast.
  - exact I.
  - destruct l as [| b l].
    + simpl. split; [ | exact I ]. apply Hlast. reflexivity.
    + destruct Hl as [Hab Hl]. split; [ exact Hab | ].
      apply IH; [ exact Hl | ].
      intros prev Hprev. apply Hlast.
      simpl in Hprev |- *. rewrite Nat.sub_0_r in Hprev. exact Hprev.
Qed.

Lemma firstn_set_snoc {A : Type} (l : list A) (k : nat) (v : A) :
  (k < length l)%nat ->
  firstn (S k) (firstn k l ++ v :: skipn (S k) l) = firstn k l ++ [v].
Proof.
  intros H.
  assert (Hk : length (firstn k l) = k) by (rewrite length_firstn; lia).
  rewrite firstn_app, Hk.
  replace (S k - k)%nat with 1%nat by lia.
  rewrite firstn_all2 by lia. reflexivity.
Qed.

Lemma py_index_nth {A : Type} (l : list A) (k : Z) (a : A) :
  (0 <= k)%Z -> py_index l k = Ok a -> nth_error l (Z.to_nat k) = Some a.
Proof.
  intros Hk. unfold py_index.
  replace (k <? 0)%Z with false by (symmetry; apply Z.ltb_ge; lia).
  destruct ((0 <=? k)%Z && (k <? Z.of_nat (length l))%Z)%bool;
    [ | discriminate ].
  destruct (nth_error l (Z.to_nat k)) as [b |]; [ | discriminate ].
  intros [= <-]. reflexivity.
Qed.

Lemma list_set_nonneg {A : Type} (l : list A) (k : Z) (v : A)
  (l' : list A) :
  (0 <= k)%Z -> list_set l k v = Ok l' ->
  (Z.to_nat k < length l)%nat /\
  l' = firstn (Z.to_nat k) l ++ v :: skipn (S (Z.to_nat k)) l.
Proof.
  intros Hk. unfold list_set.
  replace (k <? 0)%Z with false by (symmetry; apply Z.ltb_ge; lia).
  destruct ((0 <=? k)%Z && (k <? Z.of_nat (length l))%Z)%bool eqn:E;
    [ | discriminate ].
  apply andb_prop in E. destruct E as [_ E]. apply Z.ltb_lt in E.
  intros [= <-]. split; [ lia | reflexivity ].
Qed.

Lemma chain_step_linked (seg_col : list seg_row) (j : Z)
  (reord reord' : list seg_row) :
  (2 <= j)%Z ->
  linked (firstn (Z.to_nat (j - 1)) reord) ->
  chain_step seg_col j reord = Ok reord' ->
  linked (firstn (Z.to_nat j) reord') /\
  In (nth (Z.to_nat (j - 1)) reord' zero_row) seg_col.
Proof.
  intros Hj Hl H. unfold chain_step in H.
  bind_inv H as prev Hprev.
  apply py_index_nth in Hprev; [ | lia ].
  destruct (filter (fun r => (seg_start r =? seg_end prev)%Z) seg_col)
    as [| r [| r' rest]] eqn:Ef; try discriminate.
  assert (Hr : In r (filter (fun r => (seg_start r =? seg_end prev)%Z)
                            seg_col)) by (rewrite Ef; left; reflexivity).
  apply filter_In in Hr. destruct Hr as [Hin Hstart].
  apply Z.eqb_eq in Hstart.
  apply list_set_nonneg in H; [ | lia ]. destruct H as [Hlen ->].
  replace (Z.to_nat j) with (S (Z.to_nat (j - 1))) by lia.
  split.
  - rewrite firstn_set_snoc by exact Hlen.
    apply linked_snoc; [ exact Hl | ].
    intros prev' Hprev'.
    rewrite length_firstn in Hprev'.
    rewrite nth_error_firstn in Hprev'.
    replace (Nat.min (Z.to_nat (j - 1)) (length reord) - 1)%nat
      with (Z.to_nat (j - 2)) in Hprev' by lia.
    destruct (Z.to_nat (j - 2) <? Z.to_nat (j - 1))%nat eqn:E;
      [ | apply Nat.ltb_ge in E; lia ].
    rewrite Hprev in Hprev'. injection Hprev' as <-. exact Hstart.
  - erewrite nth_error_nth; [ exact Hin | ].
    apply set_nth_same. exact Hlen.
Qed.

(** When the chaining loop returns, every row of the reordered column from
    the second on starts at the section where the row before it ends. *)
Lemma chain_loop_linked (seg_col : list seg_row) (n : Z)
  (reord1 reord : list seg_row) :
  for_each (py_range 2 (n + 1)) (chain_step seg_col) reord1 = Ok reord ->
  linked (firstn (Z.to_nat n) reord).
Proof.
  intros H. destruct (Z.le_gt_cases 2 n) as [Hn | Hn].
  - assert (Hinv : (2 <= n + 1)%Z /\
                   linked (firstn (Z.to_nat (n + 1 - 1)) reord)).
    { apply (for_each_range_invariant
               (fun j col => (2 <= j)%Z /\
                             linked (firstn (Z.to_nat (j - 1)) col))
               (chain_step seg_col) (n + 1)) with
        (n := Z.to_nat (n + 1 - 2)) (lo := 2%Z) (s := reord1);
        [ | reflexivity | lia | | exact H ].
      - intros j s s' Hj [H2 Hs] Hstep. split; [ lia | ].
        replace (j + 1 - 1)%Z with j by lia.
        eapply chain_step_linked; eassumption.
      - split; [ lia | ]. simpl.
        destruct reord1 as [| a l]; exact I. }
    destruct Hinv as [_ Hinv].
    replace (n + 1 - 1)%Z with n in Hinv by lia. exact Hinv.
  - rewrite py_range_nil in H by lia. injection H as <-.
    destruct (Z.to_nat n) as [| [| k]] eqn:E; [ exact I | | lia ].
    destruct reord1 as [| a l]; exact I.
Qed.

Lemma csc_reorder_linked (tigl : Tigl) (awg : AircraftWingGeometry)
  (wing_plt_area_xz wing_plt_area_yz : list Q) (nbmax0 i n : Z)
  (si si' : list Z) (reord : list seg_row) :
  csc_reorder tigl awg wing_plt_area_xz wing_plt_area_yz nbmax0 i n si
    = Ok (si', reord) ->
  linked (firstn (Z.to_nat n) reord).
Proof.
  unfold csc_reorder. intros H.
  bind_inv H as row0 Hrow0. bind_inv H as reord0 Hreord0.
  bind_inv H as [[slp si1] reord1] Hroot.
  bind_inv H as reord2 Hchain. injection H as _ <-.
  eapply chain_loop_linked. exact Hchain.
Qed.

Lemma csc_wing_reordered (tigl : Tigl) (awg : AircraftWingGeometry)
  (wing_plt_area_xz wing_plt_area_yz : list Q) (nbmax0 i : Z)
  (s s' : csc_state) :
  csc_wing tigl awg wing_plt_area_xz wing_plt_area_yz nbmax0 i s = Ok s' ->
  exists n reord,
    py_index (wing_seg_nb awg) (i - 1) = Ok n /\
    cs_reordered s' = cs_reordered s ++ [reord] /\
    linked (firstn (Z.to_nat n) reord).
Proof.
  unfold csc_wing. intros H.
  bind_inv H as n Hn. bind_inv H as [si reord] Hre.
  bind_inv H as wsi Hwsi. injection H as <-.
  exists n, reord. split; [ exact Hn | ]. split; [ reflexivity | ].
  eapply csc_reorder_linked. exact Hre.
Qed.

(** X15. Whenever [check_segment_connection] returns, the reordered
    column of every wing is a chain over its [wing_seg_nb] rows: from the
    second row on, each row starts at the section where the row before it
    ends. *)
Lemma check_segment_connection_linked
  (wing_plt_area_xz wing_plt_area_yz : list Q)
  (awg : AircraftWingGeometry) (tigl : Tigl) (r : csc_result) :
  check_segment_connection wing_plt_area_xz wing_plt_area_yz awg tigl
    = Ok r ->
  forall (k : nat) (col : list seg_row) (n : Z),
    nth_error (seg_sec_reordered r) k = Some col ->
    py_index (wing_seg_nb awg) (Z.of_nat k) = Ok n ->
    linked (firstn (Z.to_nat n) col).
Proof.
  unfold check_segment_connection. intros H.
  bind_inv H as nbmax Hmax.
  destruct (nbmax <? 0)%Z; [ discriminate | ].
  destruct (w_nb awg <? 0)%Z; [ discriminate | ].
  bind_inv H as s Hloop. injection H as <-. simpl.
  destruct (Z.le_gt_cases 1 (w_nb awg + 1)) as [Hw | Hw].
  - pose (P := fun (i : Z) (st : csc_state) =>
                 (1 <= i)%Z /\
                 length (cs_reordered st) = Z.to_nat (i - 1) /\
                 forall (k : nat) (col : list seg_row) (n : Z),
                   nth_error (cs_reordered st) k = Some col ->
                   py_index (wing_seg_nb awg) (Z.of_nat k) = Ok n ->
                   linked (firstn (Z.to_nat n) col)).
    assert (HP : P (w_nb awg + 1)%Z s).
    { apply (for_each_range_invariant P
               (csc_wing tigl awg wing_plt_area_xz wing_plt_area_yz nbmax)
               (w_nb awg + 1)) with
        (n := Z.to_nat (w_nb awg + 1 - 1)) (lo := 1%Z)
        (s := mkCsc [] [] [] [] nbmax None);
        [ | reflexivity | exact Hw | | exact Hloop ].
      - intros i st st' Hi [H1 [Hlen Hall]] Hstep.
        apply csc_wing_reordered in Hstep.
        destruct Hstep as [n [reord [Hn [Happ Hlinked]]]].
        split; [ lia | ]. split.
        + rewrite Happ, length_app, Hlen. simpl. lia.
        + intros k col n' Hk Hn'. rewrite Happ in Hk.
          destruct (Nat.lt_ge_cases k (length (cs_reordered st)))
            as [Hlt | Hge].
          * rewrite nth_error_app1 in Hk by exact Hlt.
            eapply Hall; eassumption.
          * rewrite nth_error_app2 in Hk by exact Hge.
            destruct (k - length (cs_reordered st))%nat as [| d] eqn:E.
            -- simpl in Hk. injection Hk as <-.
               replace (Z.of_nat k) with (i - 1)%Z in Hn' by lia.
               rewrite Hn in Hn'. injection Hn' as <-. exact Hlinked.
            -- simpl in Hk. destruct d; discriminate.
      - split; [ lia | ]. split; [ reflexivity | ].
        intros k col n Hk. destruct k; discriminate. }
    destruct HP as [_ [_ HP]]. exact HP.
  - rewrite py_range_nil in Hloop by lia. injection Hloop as <-.
    intros k col n Hk. destruct k; discriminate.
Qed.

(** ** The entries returned by [engine_inertia] *)

Lemma firstn_succ_nth {A : Type} (l : list A) (k : nat) (a : A) :
  nth_error l k = Some a -> firstn (S k) l = firstn k l ++ [a].
Proof.
  revert k. induction l as [| b l IH]; intros k H.
  - destruct k; discriminate.
  - destruct k as [| k].
    + injection H as <-. reflexivity.
    + simpl in H. cbn [firstn app]. f_equal. rewrite <- IH by exact H.
      reflexivity.
Qed.

Lemma np_sum_snoc (l : list Q) (x : Q) : np_sum (l ++ [x]) == np_sum l + x.
Proof.
  rewrite np_sum_app, np_sum_cons. unfold np_sum at 2. simpl. ring.
Qed.

(** The entries returned are sums over the first [NE] placements: five
    are the parallel-axis sums, the sixth sums [mass * dx * dx]. *)
Lemma engine_inertia_entries (cg : point) (ed : EngineData) (t : tensor) :
  engine_inertia cg ed = Ok t ->
  let ps := firstn (Z.to_nat (NE ed)) (EN_PLACEMENT ed) in
  let dx p := px p - px cg in
  let dy p := py p - py cg in
  let dz p := pz p - pz cg in
  let m := en_mass ed in
  Ixx t == np_sum (map (fun p => m * (dy p ^ 2 + dz p ^ 2)) ps) /\
  Iyy t == np_sum (map (fun p => m * (dx p ^ 2 + dz p ^ 2)) ps) /\
  Izz t == np_sum (map (fun p => m * (dx p ^ 2 + dy p ^ 2)) ps) /\
  Ixy t == np_sum (map (fun p => m * dx p * dy p) ps) /\
  Iyz t == np_sum (map (fun p => m * dy p * dz p) ps) /\
  Ixz t == np_sum (map (fun p => m * dx p * dx p) ps).
Proof.
  intros H ps dx dy dz m. unfold engine_inertia in H.
  pose (P := fun (e : Z) (u : tensor) =>
    (0 <= e)%Z /\
    let qs := firstn (Z.to_nat e) (EN_PLACEMENT ed) in
    Ixx u == np_sum (map (fun p => m * (dy p ^ 2 + dz p ^ 2)) qs) /\
    Iyy u == np_sum (map (fun p => m * (dx p ^ 2 + dz p ^ 2)) qs) /\
    Izz u == np_sum (map (fun p => m * (dx p ^ 2 + dy p ^ 2)) qs) /\
    Ixy u == np_sum (map (fun p => m * dx p * dy p) qs) /\
    Iyz u == np_sum (map (fun p => m * dy p * dz p) qs) /\
    Ixz u == np_sum (map (fun p => m * dx p * dx p) qs)).
  destruct (Z.le_gt_cases 0 (NE ed)) as [Hne | Hne].
  - assert (HP : P (NE ed) t).
    { apply (for_each_range_invariant P (engine_step cg ed) (NE ed)) with
        (n := Z.to_nat (NE ed - 0)) (lo := 0%Z) (s := tensor_zero);
        [ | reflexivity | exact Hne | | exact H ].
      - intros e u u' He [H0 Hu] Hstep. split; [ lia | ].
        unfold engine_step in Hstep. bind_inv Hstep as p Hp.
        apply py_index_nth in Hp; [ | exact H0 ].
        injection Hstep as <-.
        cbv zeta in Hu |- *.
        replace (Z.to_nat (e + 1)) with (S (Z.to_nat e)) by lia.
        rewrite (firstn_succ_nth _ _ _ Hp).
        rewrite !map_app. cbn [map Ixx Iyy Izz Ixy Iyz Ixz].
        rewrite !np_sum_snoc.
        destruct Hu as [H1 [H2 [H3 [H4 [H5 H6]]]]].
        rewrite <- H1, <- H2, <- H3, <- H4, <- H5, <- H6.
        unfold m, dx, dy, dz. repeat split; reflexivity.
      - split; [ lia | ]. cbv zeta. simpl.
        repeat split; reflexivity. }
    destruct HP as [_ HP]. exact HP.
  - rewrite py_range_nil in H by lia. injection H as <-.
    unfold ps. replace (Z.to_nat (NE ed)) with 0%nat by lia. simpl.
    repeat split; reflexivity.
Qed.

(** ** The section sequence of the first wing *)

Lemma mem_Z_app (x : Z) (l1 l2 : list Z) :
  mem_Z x (l1 ++ l2) = (mem_Z x l1 || mem_Z x l2)%bool.
Proof. unfold mem_Z. apply existsb_app. Qed.

Lemma append_new_idem (x : Z) (l : list Z) :
  append_new x (append_new x l) = append_new x l.
Proof.
  assert (Hmem : mem_Z x (append_new x l) = true).
  { unfold append_new. destruct (mem_Z x l) eqn:E; [ exact E | ].
    rewrite mem_Z_app. unfold mem_Z at 2. simpl.
    rewrite Z.eqb_refl, orb_true_r. reflexivity. }
  unfold append_new at 1. rewrite Hmem. reflexivity.
Qed.

Lemma linked_app_inv (l : list seg_row) (r : seg_row) :
  linked (l ++ [r]) ->
  linked l /\
  forall prev, nth_error l (length l - 1) = Some prev ->
               seg_start r = seg_end prev.
Proof.
  induction l as [| a l IH]; intros H.
  - split; [ exact I | ]. intros prev Hprev. discriminate.
  - destruct l as [| b l].
    + simpl in H. destruct H as [H _]. split; [ exact I | ].
      intros prev [= <-]. exact H.
    + destruct H as [Hab H]. apply IH in H. destruct H as [Hl Hlast].
      split; [ split; assumption | ].
      intros prev Hprev. apply Hlast.
      simpl in Hprev |- *. rewrite Nat.sub_0_r. exact Hprev.
Qed.

Lemma chain_starts_snoc (l : list seg_row) (r : seg_row) :
  chain_starts (l ++ [r]) = append_new (seg_start r) (chain_starts l).
Proof. unfold chain_starts. rewrite fold_left_app. reflexivity. Qed.

Lemma chain_sections_snoc (l : list seg_row) (r : seg_row) :
  chain_sections (l ++ [r]) =
    append_new (seg_end r) (append_new (seg_start r) (chain_sections l)).
Proof. unfold chain_sections. rewrite fold_left_app. reflexivity. Qed.

Lemma nth_error_last_snoc {A : Type} (l : list A) (a : A) :
  nth_error (l ++ [a]) (length (l ++ [a]) - 1) = Some a.
Proof.
  rewrite length_app. simpl.
  rewrite nth_error_app2 by lia.
  replace (length l + 1 - 1 - length l)%nat with 0%nat by lia.
  reflexivity.
Qed.

(** On a linked chain the sections without repetition are the start
    sections without repetition, then the end section of the last row. *)
Lemma chain_sections_linked (l : list seg_row) (last : seg_row) :
  linked l ->
  nth_error l (length l - 1) = Some last ->
  chain_sections l = append_new (seg_end last) (chain_starts l).
Proof.
  revert last. induction l as [| r l IH] using rev_ind; intros last Hl Hlast.
  - discriminate.
  - rewrite nth_error_last_snoc in Hlast. injection Hlast as <-.
    rewrite chain_sections_snoc, chain_starts_snoc.
    f_equal.
    apply linked_app_inv in Hl. destruct Hl as [Hl Hprev].
    destruct l as [| a l'] eqn:El.
    + reflexivity.
    + rewrite <- El in *.
      destruct (nth_error l (length l - 1)) as [prev |] eqn:E.
      * rewrite (IH prev Hl eq_refl).
        rewrite (Hprev prev eq_refl).
        apply append_new_idem.
      * apply nth_error_None in E. subst l. simpl in E. lia.
Qed.

Lemma collect_loop_starts (reord : list seg_row) (n : Z) (first : seg_row)
  (wsi : list Z) :
  (1 <= n)%Z ->
  nth_error reord 0 = Some first ->
  for_each (py_range 2 (n + 1)) (collect_step reord) [seg_start first]
    = Ok wsi ->
  wsi = chain_starts (firstn (Z.to_nat n) reord).
Proof.
  intros Hn Hfirst H.
  assert (Hinv : (2 <= n + 1)%Z /\
                 wsi = chain_starts (firstn (Z.to_nat (n + 1 - 1)) reord)).
  { apply (for_each_range_invariant
             (fun j acc => (2 <= j)%Z /\
                           acc = chain_starts
                                   (firstn (Z.to_nat (j - 1)) reord))
             (collect_step reord) (n + 1)) with
      (n := Z.to_nat (n + 1 - 2)) (lo := 2%Z) (s := [seg_start first]);
      [ | reflexivity | lia | | exact H ].
    - intros j acc acc' Hj [H2 Hacc] Hstep. split; [ lia | ].
      unfold collect_step in Hstep. bind_inv Hstep as row Hrow.
      injection Hstep as <-.
      apply py_index_nth in Hrow; [ | lia ].
      replace (Z.to_nat (j + 1 - 1)) with (S (Z.to_nat (j - 1))) by lia.
      rewrite (firstn_succ_nth _ _ _ Hrow), chain_starts_snoc, Hacc.
      reflexivity.
    - split; [ lia | ].
      change (Z.to_nat (2 - 1)) with 1%nat.
      rewrite (firstn_succ_nth _ _ _ Hfirst). reflexivity. }
  destruct Hinv as [_ Hinv].
  replace (n + 1 - 1)%Z with n in Hinv by lia. exact Hinv.
Qed.

(** For a wing whose own column seeds the sequence (the first wing), the
    collected sequence is the sections of its chain without repetition. *)
Lemma csc_collect_own (reord : list seg_row) (n : Z) (wsi : list Z) :
  (1 <= n)%Z ->
  linked (firstn (Z.to_nat n) reord) ->
  csc_collect reord reord n (Some n) = Ok wsi ->
  wsi = chain_sections (firstn (Z.to_nat n) reord).
Proof.
  intros Hn Hl H. unfold csc_collect in H.
  bind_inv H as first Hfirst. bind_inv H as wsi1 Hloop.
  bind_inv H as last Hlast. injection H as <-.
  apply py_index_nth in Hfirst; [ | lia ].
  apply py_index_nth in Hlast; [ | lia ].
  apply (collect_loop_starts reord n first wsi1 Hn Hfirst) in Hloop.
  subst wsi1. symmetry. apply chain_sections_linked; [ exact Hl | ].
  assert (Hlen : (Z.to_nat (n - 1) < length reord)%nat).
  { apply nth_error_Some. rewrite Hlast. discriminate. }
  rewrite length_firstn, nth_error_firstn.
  replace (Nat.min (Z.to_nat n) (length reord) - 1)%nat
    with (Z.to_nat (n - 1)) by lia.
  destruct (Z.to_nat (n - 1) <? Z.to_nat n)%nat eqn:E;
    [ exact Hlast | apply Nat.ltb_ge in E; lia ].
Qed.

Lemma pad_column_zeros (nbmax : Z) (idx : list Z) (k : nat) :
  exists k', pad_column nbmax (idx ++ repeat 0%Z k) = idx ++ repeat 0%Z k'.
Proof.
  unfold pad_column. eexists.
  rewrite <- app_assoc, <- repeat_app. reflexivity.
Qed.

Lemma csc_wing_first (tigl : Tigl) (awg : AircraftWingGeometry)
  (wing_plt_area_xz wing_plt_area_yz : list Q) (nbmax0 i n : Z)
  (s s' : csc_state) :
  cs_reordered s = [] -> cs_sec_index s = [] ->
  py_index (wing_seg_nb awg) (i - 1) = Ok n -> (1 <= n)%Z ->
  csc_wing tigl awg wing_plt_area_xz wing_plt_area_yz nbmax0 i s = Ok s' ->
  exists reord k,
    cs_reordered s' = [reord] /\
    cs_sec_index s' = [chain_sections (firstn (Z.to_nat n) reord)
                       ++ repeat 0%Z k].
Proof.
  intros Hre Hidx Hn H1 H. unfold csc_wing in H.
  rewrite Hn, Hre, Hidx in H. simpl in H.
  bind_inv H as [si reord] Hreord.
  replace (1 <=? n)%Z with true in H by (symmetry; apply Z.leb_le; lia).
  bind_inv H as wsi Hwsi. injection H as <-. simpl.
  apply csc_reorder_linked in Hreord.
  apply csc_collect_own in Hwsi; [ | exact H1 | exact Hreord ].
  subst wsi. exists reord. eexists. split; reflexivity.
Qed.

Lemma csc_wing_keeps_first (tigl : Tigl) (awg : AircraftWingGeometry)
  (wing_plt_area_xz wing_plt_area_yz : list Q) (nbmax0 i : Z)
  (s s' : csc_state) (col0 : list seg_row) (idx : list Z) :
  (exists k rest rest',
      cs_reordered s = col0 :: rest /\
      cs_sec_index s = (idx ++ repeat 0%Z k) :: rest') ->
  csc_wing tigl awg wing_plt_area_xz wing_plt_area_yz nbmax0 i s = Ok s' ->
  exists k rest rest',
    cs_reordered s' = col0 :: rest /\
    cs_sec_index s' = (idx ++ repeat 0%Z k) :: rest'.
Proof.
  intros [k [rest [rest' [Hre Hidx]]]] H. unfold csc_wing in H.
  bind_inv H as n Hn. bind_inv H as [si reord] Hreord.
  bind_inv H as wsi Hwsi. injection H as <-. simpl.
  rewrite Hre, Hidx. simpl.
  destruct (pad_column_zeros
              (Z.max (cs_nbmax s) (Z.of_nat (length wsi))) idx k)
    as [k' Hk'].
  rewrite Hk'. exists k'. eexists. eexists. split; reflexivity.
Qed.

(** X16. For the first wing, whenever [check_segment_connection] returns,
    the section sequence is the sections of the reordered chain without
    repetition, in the order met, followed by the zeros of the padding. *)
Lemma first_wing_section_sequence
  (wing_plt_area_xz wing_plt_area_yz : list Q)
  (awg : AircraftWingGeometry) (tigl : Tigl) (r : csc_result) (n : Z) :
  check_segment_connection wing_plt_area_xz wing_plt_area_yz awg tigl
    = Ok r ->
  (1 <= w_nb awg)%Z ->
  py_index (wing_seg_nb awg) 0 = Ok n -> (1 <= n)%Z ->
  exists col0 k rest rest',
    seg_sec_reordered r = col0 :: rest /\
    sec_index r = (chain_sections (firstn (Z.to_nat n) col0)
                   ++ repeat 0%Z k) :: rest'.
Proof.
  unfold check_segment_connection. intros H Hw Hn H1.
  bind_inv H as nbmax Hmax.
  destruct (nbmax <? 0)%Z; [ discriminate | ].
  destruct (w_nb awg <? 0)%Z; [ discriminate | ].
  bind_inv H as s Hloop. injection H as <-. simpl.
  rewrite py_range_cons in Hloop by lia. simpl in Hloop.
  bind_inv Hloop as s1 Hfirst.
  apply (csc_wing_first _ _ _ _ _ _ n) in Hfirst;
    [ | reflexivity | reflexivity | exact Hn | exact H1 ].
  destruct Hfirst as [reord [k [Hre Hidx]]].
  exists reord.
  apply (for_each_invariant
           (fun st => exists k rest rest',
                cs_reordered st = reord :: rest /\
                cs_sec_index st =
                  (chain_sections (firstn (Z.to_nat n) reord)
                   ++ repeat 0%Z k) :: rest')
           (csc_wing tigl awg wing_plt_area_xz wing_plt_area_yz nbmax)
           (py_range (1 + 1) (w_nb awg + 1))) with (s := s1);
    [ | | exact Hloop ].
  - intros i st st' _ Hst Hstep.
    eapply csc_wing_keeps_first; eassumption.
  - exists k, [], []. split; assumption.
Qed.

(** * Further properties of the inertia functions *)

Lemma for_each_app {A S : Type} (l1 l2 : list A) (body : A -> S -> res S)
  (s : S) :
  for_each (l1 ++ l2) body s =
    (s1 <- for_each l1 body s ;; for_each l2 body s1).
Proof.
  revert s. induction l1 as [| a l1 IH]; intros s; simpl.
  - reflexivity.
  - destruct (body a s) as [s1 | e]; simpl; [ apply IH | reflexivity ].
Qed.

Lemma py_range_split (lo mid hi : Z) :
  (lo <= mid <= hi)%Z -> py_range lo hi = py_range lo mid ++ py_range mid hi.
Proof.
  intros H. unfold py_range.
  replace (Z.to_nat (hi - lo))
    with (Z.to_nat (mid - lo) + Z.to_nat (hi - mid))%nat by lia.
  rewrite seq_app, map_app. f_equal. simpl.
  assert (E : forall n k,
             map (fun k0 : nat => (lo + Z.of_nat k0)%Z)
                 (seq (Z.to_nat (mid - lo) + k) n) =
             map (fun k0 : nat => (mid + Z.of_nat k0)%Z) (seq k n)).
  { induction n as [| n IHn]; intros k; simpl; [ reflexivity | ].
    f_equal; [ lia | ].
    replace (S (Z.to_nat (mid - lo) + k)) with (Z.to_nat (mid - lo) + S k)%nat
      by lia.
    apply IHn. }
  specialize (E (Z.to_nat (hi - mid)) 0%nat).
  rewrite Nat.add_0_r in E. exact E.
Qed.

Lemma for_each_range_total {S : Type} (body : Z -> S -> res S) (hi : Z) :
  (forall j s, (j < hi)%Z -> exists s', body j s = Ok s') ->
  forall (n : nat) (lo : Z) (s : S),
    n = Z.to_nat (hi - lo) ->
    exists s', for_each (py_range lo hi) body s = Ok s'.
Proof.
  intros Hbody. induction n as [| n IH]; intros lo s Hn.
  - rewrite py_range_nil by lia. exists s. reflexivity.
  - rewrite py_range_cons by lia. simpl.
    destruct (Hbody lo s) as [s1 H1]; [ lia | ]. rewrite H1. simpl.
    apply IH. lia.
Qed.

Lemma py_index_out {A : Type} (l : list A) (k : Z) :
  (Z.of_nat (length l) <= k)%Z -> py_index l k = Raise IndexError.
Proof.
  intros H. unfold py_index.
  replace (k <? 0)%Z with false by (symmetry; apply Z.ltb_ge; lia).
  replace (k <? Z.of_nat (length l))%Z with false
    by (symmetry; apply Z.ltb_ge; lia).
  rewrite andb_false_r. reflexivity.
Qed.

Lemma engine_step_Ok (cg : point) (ed : EngineData) (e : Z) (t : tensor) :
  (0 <= e < Z.of_nat (length (EN_PLACEMENT ed)))%Z ->
  exists t', engine_step cg ed e t = Ok t'.
Proof.
  intros H. unfold engine_step.
  destruct (py_index_Ok_nth (EN_PLACEMENT ed) e H) as [p [Hp _]].
  rewrite Hp. simpl. eexists. reflexivity.
Qed.

Lemma engine_loop_Ok (cg : point) (ed : EngineData) (hi : Z) :
  (hi <= Z.of_nat (length (EN_PLACEMENT ed)))%Z ->
  forall (n : nat) (lo : Z) (t : tensor),
    (0 <= lo)%Z -> n = Z.to_nat (hi - lo) ->
    exists t', for_each (py_range lo hi) (engine_step cg ed) t = Ok t'.
Proof.
  intros Hhi. induction n as [| n IH]; intros lo t Hlo Hn.
  - rewrite py_range_nil by lia. exists t. reflexivity.
  - rewrite py_range_cons by lia. simpl.
    destruct (engine_step_Ok cg ed lo t) as [t1 H1]; [ lia | ].
    rewrite H1. simpl. apply IH; lia.
Qed.

(** X1. When [engine_inertia] returns, its entries are sums over the first
    [NE] rows of [EN_PLACEMENT]: Ixx, Iyy, Izz, Ixy and Iyz are the
    parallel-axis sums of the engine mass, and Ixz is the sum of
    mass * dx * dx. *)
Theorem engine_inertia_sums (cg : point) (ed : EngineData) (t : tensor) :
  engine_inertia cg ed = Ok t ->
  let ps := firstn (Z.to_nat (NE ed)) (EN_PLACEMENT ed) in
  let dx p := px p - px cg in
  let dy p := py p - py cg in
  let dz p := pz p - pz cg in
  let m := en_mass ed in
  Ixx t == np_sum (map (fun p => m * (dy p ^ 2 + dz p ^ 2)) ps) /\
  Iyy t == np_sum (map (fun p => m * (dx p ^ 2 + dz p ^ 2)) ps) /\
  Izz t == np_sum (map (fun p => m * (dx p ^ 2 + dy p ^ 2)) ps) /\
  Ixy t == np_sum (map (fun p => m * dx p * dy p) ps) /\
  Iyz t == np_sum (map (fun p => m * dy p * dz p) ps) /\
  Ixz t == np_sum (map (fun p => m * dx p * dx p) ps).
Proof. apply engine_inertia_entries. Qed.

Lemma engine_inertia_sums_witness :
  exists t,
    engine_inertia (0, 0, 0) two_engines = Ok t /\
    Ixx t == 24 /\ Ixy t == 0 /\ Ixz t == 6.
Proof.
  destruct (engine_inertia (0, 0, 0) two_engines) as [t | e] eqn:E;
    [ | vm_compute in E; discriminate E ].
  exists t. split; [ reflexivity | ].
  destruct (engine_inertia_sums (0, 0, 0) two_engines t E)
    as [Hxx [_ [_ [Hxy [_ Hxz]]]]].
  split; [ rewrite Hxx; vm_compute; reflexivity | ].
  split; [ rewrite Hxy; vm_compute; reflexivity | ].
  rewrite Hxz. vm_compute. reflexivity.
Defined.

(** X2. [engine_inertia] returns when [EN_PLACEMENT] has at least [NE]
    rows, returns the zero tensor when [NE <= 0], and raises IndexError
    when [NE] exceeds the number of rows. *)
Theorem engine_inertia_bounds (cg : point) (ed : EngineData) :
  ((NE ed <= Z.of_nat (length (EN_PLACEMENT ed)))%Z ->
   exists t, engine_inertia cg ed = Ok t) /\
  ((NE ed <= 0)%Z -> engine_inertia cg ed = Ok tensor_zero) /\
  ((Z.of_nat (length (EN_PLACEMENT ed)) < NE ed)%Z ->
   engine_inertia cg ed = Raise IndexError).
Proof.
  unfold engine_inertia. split; [ | split ].
  - intros H. apply (engine_loop_Ok cg ed (NE ed) H
                       (Z.to_nat (NE ed - 0)) 0%Z); [ lia | reflexivity ].
  - intros H. rewrite py_range_nil by lia. reflexivity.
  - intros H.
    set (len := Z.of_nat (length (EN_PLACEMENT ed))) in *.
    rewrite (py_range_split 0 len (NE ed)) by lia.
    rewrite for_each_app.
    destruct (engine_loop_Ok cg ed len (Z.le_refl _)
                (Z.to_nat (len - 0)) 0%Z tensor_zero) as [t1 H1];
      [ lia | reflexivity | ].
    rewrite H1. simpl.
    rewrite py_range_cons by lia. simpl.
    unfold engine_step at 1. rewrite py_index_out by (fold len; lia).
    reflexivity.
Qed.

Lemma np_sum_map_plus {A : Type} (f g : A -> Q) (l : list A) :
  np_sum (map (fun a => f a + g a) l)
    == np_sum (map f l) + np_sum (map g l).
Proof.
  induction l as [| a l IH]; simpl.
  - unfold np_sum. simpl. ring.
  - rewrite !np_sum_cons, IH. ring.
Qed.

Lemma np_sum_map_scale {A : Type} (c : Q) (f : A -> Q) (l : list A) :
  np_sum (map (fun a => c * f a) l) == c * np_sum (map f l).
Proof.
  induction l as [| a l IH]; simpl.
  - unfold np_sum. simpl. ring.
  - rewrite !np_sum_cons, IH. ring.
Qed.

Lemma Qsq_unfold (x : Q) : x ^ 2 == x * x.
Proof. simpl. reflexivity. Qed.

(** The diagonal sums add up to twice the sum of mass times squared
    distance. *)
Lemma diagonal_trace (M : Q) (cg : point) (pts : list point) :
  np_sum (map (fun p => M * ((py p - py cg) ^ 2 + (pz p - pz cg) ^ 2)) pts)
  + np_sum (map (fun p => M * ((px p - px cg) ^ 2 + (pz p - pz cg) ^ 2)) pts)
  + np_sum (map (fun p => M * ((px p - px cg) ^ 2 + (py p - py cg) ^ 2)) pts)
  == 2 * np_sum (map (fun p => M * dist2 cg p) pts).
Proof.
  rewrite <- !np_sum_map_plus, <- np_sum_map_scale.
  apply np_sum_map_ext. intros p. unfold dist2. ring.
Qed.

(** X3. When [engine_inertia] returns, the trace Ixx + Iyy + Izz is twice
    the sum over the engines of mass times squared distance to the centre
    of gravity, and with a non-negative engine mass the three diagonal
    entries are non-negative. *)
Theorem engine_inertia_trace (cg : point) (ed : EngineData) (t : tensor) :
  engine_inertia cg ed = Ok t ->
  Ixx t + Iyy t + Izz t ==
    2 * np_sum (map (fun p => en_mass ed * dist2 cg p)
                    (firstn (Z.to_nat (NE ed)) (EN_PLACEMENT ed))) /\
  (0 <= en_mass ed -> 0 <= Ixx t /\ 0 <= Iyy t /\ 0 <= Izz t).
Proof.
  intros H. apply engine_inertia_entries in H. cbv zeta in H.
  destruct H as [Hxx [Hyy [Hzz _]]]. split.
  - rewrite Hxx, Hyy, Hzz. apply diagonal_trace.
  - intros Hm. rewrite Hxx, Hyy, Hzz.
    repeat split; apply np_sum_map_nonneg; intros p;
      apply Qmult_le_0_compat; try exact Hm; apply Qsq_sum_nonneg.
Qed.

Lemma engine_inertia_trace_witness :
  exists t,
    engine_inertia (0, 0, 0) two_engines = Ok t /\
    Ixx t + Iyy t + Izz t == 60 /\
    0 <= Ixx t /\ 0 <= Iyy t /\ 0 <= Izz t.
Proof.
  destruct (engine_inertia (0, 0, 0) two_engines) as [t | e] eqn:E;
    [ | vm_compute in E; discriminate E ].
  exists t. split; [ reflexivity | ].
  destruct (engine_inertia_trace (0, 0, 0) two_engines t E) as [Ht Hd].
  split; [ rewrite Ht; vm_compute; reflexivity | ].
  apply Hd. vm_compute. discriminate.
Defined.

(** ** Invariants of the accumulated tensor *)

(** X4. For every segment cloud, the three diagonal sums of the lumped
    masses add up to twice the sum of point mass times squared distance to
    the centre of gravity. *)
Theorem lumped_tensor_trace (M : Q) (cg : point) (pts : list point) :
  Ixx (lumped_tensor M cg pts) + Iyy (lumped_tensor M cg pts)
  + Izz (lumped_tensor M cg pts)
  == 2 * np_sum (map (fun p => M * dist2 cg p) pts).
Proof.
  unfold lumped_tensor. cbn [Ixx Iyy Izz]. apply diagonal_trace.
Qed.

Lemma diagonal_nonneg_add (s t : tensor) :
  diagonal_nonneg s -> diagonal_nonneg t -> diagonal_nonneg (tensor_add s t).
Proof.
  unfold diagonal_nonneg, tensor_add. simpl.
  intros [H1 [H2 H3]] [H4 [H5 H6]]. repeat split; lra.
Qed.

Lemma diagonal_nonneg_cloud (mass : Q) (cg : point) (pts : list point) :
  0 <= mass -> diagonal_nonneg (lumped_tensor (point_mass mass pts) cg pts).
Proof.
  intros H. apply lumped_diagonal_nonneg. apply point_mass_nonneg. exact H.
Qed.

Lemma fuse_segment_fields
  (m : MathLib) (tigl : Tigl) (SPACING : Q) (mass_seg_i : list (list Q))
  (afg : AircraftFuseGeometry) (f i : Z) (old : option point)
  (r : fuse_segment_result) :
  fuse_segment m tigl SPACING mass_seg_i afg f i old = Ok r ->
  at_rc mass_seg_i (i - 1) (f - 1) = Ok (fr_mass r) /\
  fr_M r = point_mass (fr_mass r) (fr_pts r).
Proof.
  unfold fuse_segment. intros H.
  bind_inv H as [[subd_l SUBD_C0] subd_r] Hsub.
  bind_inv H as D HD. bind_inv H as c Hc.
  bind_inv H as [fpts p0] Hst.
  bind_inv H as mass Hmass. injection H as <-. simpl.
  split; [ exact Hmass | reflexivity ].
Qed.

(** X5. With non-negative segment masses, the diagonal entries Ixx, Iyy,
    Izz returned by [fuselage_inertia] are non-negative. *)
Theorem fuselage_inertia_diagonal_nonneg
  (m : MathLib) (tigl : Tigl) (SPACING : Q) (cg : point)
  (mass_seg_i : list (list Q)) (afg : AircraftFuseGeometry)
  (sf : list point) (I : tensor) :
  nonneg_array mass_seg_i ->
  fuselage_inertia m tigl SPACING cg mass_seg_i afg = Ok (sf, I) ->
  0 <= Ixx I /\ 0 <= Iyy I /\ 0 <= Izz I.
Proof.
  intros Hmass H. unfold fuselage_inertia in H.
  bind_inv H as s Hloop. injection H as _ <-.
  change (diagonal_nonneg (fs_I s)).
  eapply (for_each_invariant (fun st => diagonal_nonneg (fs_I st)));
    [ | | exact Hloop ].
  - intros f st st' _ Hst Hbody. unfold fuse_body in Hbody.
    bind_inv Hbody as col Hcol.
    eapply (for_each_invariant (fun st => diagonal_nonneg (fs_I st)));
      [ | exact Hst | exact Hbody ].
    intros i st1 st1' _ Hst1 Hstep. unfold fuse_segment_step in Hstep.
    bind_inv Hstep as r Hr. injection Hstep as <-. simpl.
    apply fuse_segment_fields in Hr. destruct Hr as [Hm ->].
    apply diagonal_nonneg_add; [ exact Hst1 | ].
    apply diagonal_nonneg_cloud.
    eapply at_rc_nonneg; [ exact Hmass | exact Hm ].
  - unfold diagonal_nonneg. simpl. repeat split; lra.
Qed.

Lemma fuselage_inertia_diagonal_nonneg_witness :
  exists sf I,
    fuselage_inertia rational_math plain_wing 1 (0, 0, 0) [[50]]
                     plain_fuse_afg = Ok (sf, I) /\
    0 <= Ixx I /\ 0 <= Iyy I /\ 0 <= Izz I.
Proof.
  destruct (fuselage_inertia rational_math plain_wing 1 (0, 0, 0) [[50]]
              plain_fuse_afg) as [[sf I] | e] eqn:E;
    [ | vm_compute in E; discriminate E ].
  exists sf, I. split; [ reflexivity | ].
  apply (fuselage_inertia_diagonal_nonneg rational_math plain_wing 1
           (0, 0, 0) [[50]] plain_fuse_afg sf I);
    [ repeat constructor; lra | exact E ].
Defined.

Lemma wing_segments_invariant (P : wing_state -> Prop)
  (tigl : Tigl) (subd_c SPACING : Q) (fuse : Z) (cg : point)
  (mass_seg_i : list (list Q)) (awg : AircraftWingGeometry) (zeta : Q)
  (w : Z) :
  (forall s i r,
      P s ->
      wing_segment tigl subd_c SPACING fuse cg mass_seg_i awg zeta w
                   (ws_a s) i (ws_signs s) = Ok r ->
      P (wing_segment_acc s r)) ->
  forall ids s s',
    P s ->
    wing_segments tigl subd_c SPACING fuse cg mass_seg_i awg zeta w ids s
      = Ok s' ->
    P s'.
Proof.
  intros Hstep. induction ids as [| i rest IH]; intros s s' Hs H;
    simpl in H.
  - injection H as <-. exact Hs.
  - destruct (i =? 0)%Z; [ injection H as <-; exact Hs | ].
    bind_inv H as r Hr.
    eapply IH; [ | exact H ]. eapply Hstep; eassumption.
Qed.

Lemma wing_loop_invariant (P : wing_state -> Prop)
  (tigl : Tigl) (subd_c SPACING : Q) (fuse : Z) (cg : point)
  (mass_seg_i : list (list Q)) (awg : AircraftWingGeometry) :
  (forall s a, P s -> P (mkWingState (ws_I s) (ws_sw s) a (ws_signs s))) ->
  (forall zeta w s i r,
      P s ->
      wing_segment tigl subd_c SPACING fuse cg mass_seg_i awg zeta w
                   (ws_a s) i (ws_signs s) = Ok r ->
      P (wing_segment_acc s r)) ->
  forall ws s s',
    P s ->
    for_each ws (wing_body tigl subd_c SPACING fuse cg mass_seg_i awg) s
      = Ok s' ->
    P s'.
Proof.
  intros Ha Hstep ws s s' Hs H.
  eapply (for_each_invariant P); [ | exact Hs | exact H ].
  intros w st st' _ Hst Hbody. unfold wing_body in Hbody.
  bind_inv Hbody as zeta Hzeta. bind_inv Hbody as col Hcol.
  bind_inv Hbody as st1 Hsegs. bind_inv Hbody as sym Hsym.
  injection Hbody as <-.
  assert (H1 : P st1).
  { eapply wing_segments_invariant; [ | exact Hst | exact Hsegs ].
    intros s0 i r. apply Hstep. }
  destruct (sym =? 0)%Z; [ exact H1 | apply Ha; exact H1 ].
Qed.

Lemma wing_segment_fields
  (tigl : Tigl) (subd_c SPACING : Q) (fuse : Z) (cg : point)
  (mass_seg_i : list (list Q)) (awg : AircraftWingGeometry) (zeta : Q)
  (w a i : Z) (old : option point) (r : segment_result) :
  wing_segment tigl subd_c SPACING fuse cg mass_seg_i awg zeta w a i old
    = Ok r ->
  exists sym,
    py_index (wing_sym awg) (w - 1) = Ok sym /\
    at_rc mass_seg_i (i - 1) (fuse + w + a - 1) = Ok (ow_mass (sr_own r)) /\
    ow_I (sr_own r) =
      lumped_tensor (point_mass (ow_mass (sr_own r)) (ow_pts (sr_own r)))
                    cg (ow_pts (sr_own r)) /\
    wing_mirror cg (ow_mass (sr_own r)) sym old (ow_pts (sr_own r))
      = Ok (sr_mirror r, sr_signs r).
Proof.
  unfold wing_segment. intros H.
  bind_inv H as o Ho. bind_inv H as sym Hsym.
  bind_inv H as [mir signs] Hmir. injection H as <-. simpl.
  exists sym. split; [ exact Hsym | ].
  unfold wing_segment_own in Ho.
  bind_inv Ho as subd_l Hl. bind_inv Ho as c Hc. bind_inv Ho as mass Hmass.
  injection Ho as <-. simpl in *.
  repeat split; assumption.
Qed.

Lemma wing_mirror_fields (cg : point) (mass : Q) (sym : Z)
  (old : option point) (pts : list point) (mi : mirrored)
  (signs : option point) :
  wing_mirror cg mass sym old pts = Ok (Some mi, signs) ->
  exists sg,
    wing_sym_signs sym old = Some sg /\ sym <> 0%Z /\
    mi_pts mi = mirror_points sg pts /\
    mi_I mi = lumped_tensor (point_mass mass pts) cg (mirror_points sg pts).
Proof.
  unfold wing_mirror. intros H.
  destruct (sym =? 0)%Z eqn:E; [ discriminate | ].
  apply Z.eqb_neq in E.
  destruct (wing_sym_signs sym old) as [sg |]; [ | discriminate ].
  injection H as <- _. exists sg. simpl.
  unfold point_mass. rewrite mirror_points_length.
  repeat split; try reflexivity. exact E.
Qed.

(** X6. With non-negative segment masses, the diagonal entries Ixx, Iyy,
    Izz returned by [wing_inertia] are non-negative, mirrored clouds
    included. *)
Theorem wing_inertia_diagonal_nonneg
  (tigl : Tigl) (subd_c SPACING : Q) (fuse : Z) (cg : point)
  (mass_seg_i : list (list Q)) (awg : AircraftWingGeometry)
  (sw : list point) (I : tensor) :
  nonneg_array mass_seg_i ->
  wing_inertia tigl subd_c SPACING fuse cg mass_seg_i awg = Ok (sw, I) ->
  0 <= Ixx I /\ 0 <= Iyy I /\ 0 <= Izz I.
Proof.
  intros Hmass H. unfold wing_inertia in H.
  bind_inv H as s Hloop. injection H as _ <-.
  change (diagonal_nonneg (ws_I s)).
  eapply (wing_loop_invariant (fun st => diagonal_nonneg (ws_I st)));
    [ | | | exact Hloop ].
  - intros st a Hst. exact Hst.
  - intros zeta w st i r Hst Hr.
    apply wing_segment_fields in Hr.
    destruct Hr as [sym [Hsym [Hm [HI Hmir]]]].
    assert (H0 : 0 <= ow_mass (sr_own r))
      by (eapply at_rc_nonneg; [ exact Hmass | exact Hm ]).
    assert (H1 : diagonal_nonneg (tensor_add (ws_I st) (ow_I (sr_own r)))).
    { apply diagonal_nonneg_add; [ exact Hst | ].
      rewrite HI. apply diagonal_nonneg_cloud. exact H0. }
    unfold wing_segment_acc, wing_own_acc. cbn [ws_I].
    destruct (sr_mirror r) as [mi |] eqn:Emi; cbn [ws_I]; [ | exact H1 ].
    apply diagonal_nonneg_add; [ exact H1 | ].
    apply wing_mirror_fields in Hmir.
    destruct Hmir as [sg [_ [_ [_ ->]]]].
    apply lumped_diagonal_nonneg. apply point_mass_nonneg. exact H0.
  - unfold diagonal_nonneg. simpl. repeat split; lra.
Qed.

Lemma wing_inertia_diagonal_nonneg_witness :
  exists sw I,
    wing_inertia plain_wing 1 1 1 (0, 0, 0) [[50]; [100]; [100]]
                 mirrored_wing_awg = Ok (sw, I) /\
    0 <= Ixx I /\ 0 <= Iyy I /\ 0 <= Izz I.
Proof.
  destruct (wing_inertia plain_wing 1 1 1 (0, 0, 0) [[50]; [100]; [100]]
              mirrored_wing_awg) as [[sw I] | e] eqn:E;
    [ | vm_compute in E; discriminate E ].
  exists sw, I. split; [ reflexivity | ].
  apply (wing_inertia_diagonal_nonneg plain_wing 1 1 1 (0, 0, 0)
           [[50]; [100]; [100]] mirrored_wing_awg sw I);
    [ repeat constructor; lra | exact E ].
Defined.

(** ** Wings mirrored about a plane through the centre of gravity *)

Lemma lumped_mirror_xz (M : Q) (cg : point) (pts : list point) :
  py cg == 0 ->
  Ixy (lumped_tensor M cg (mirror_points (1, - (1), 1) pts))
    == - Ixy (lumped_tensor M cg pts) /\
  Iyz (lumped_tensor M cg (mirror_points (1, - (1), 1) pts))
    == - Iyz (lumped_tensor M cg pts).
Proof.
  intros Hcg. destruct cg as [[cx cy] cz].
  unfold py in Hcg. cbn [fst snd] in Hcg.
  unfold lumped_tensor. cbn [Ixy Iyz].
  split; rewrite <- np_sum_map_opp; apply np_sum_map_mirror;
    mirror_term; rewrite Hcg; ring.
Qed.

Lemma lumped_mirror_xy (M : Q) (cg : point) (pts : list point) :
  pz cg == 0 ->
  Iyz (lumped_tensor M cg (mirror_points (1, 1, - (1)) pts))
    == - Iyz (lumped_tensor M cg pts) /\
  Ixz (lumped_tensor M cg (mirror_points (1, 1, - (1)) pts))
    == - Ixz (lumped_tensor M cg pts).
Proof.
  intros Hcg. destruct cg as [[cx cy] cz].
  unfold pz in Hcg. cbn [fst snd] in Hcg.
  unfold lumped_tensor. cbn [Ixz Iyz].
  split; rewrite <- np_sum_map_opp; apply np_sum_map_mirror;
    mirror_term; rewrite Hcg; ring.
Qed.

Lemma lumped_mirror_yz (M : Q) (cg : point) (pts : list point) :
  px cg == 0 ->
  Ixy (lumped_tensor M cg (mirror_points (- (1), 1, 1) pts))
    == - Ixy (lumped_tensor M cg pts) /\
  Ixz (lumped_tensor M cg (mirror_points (- (1), 1, 1) pts))
    == - Ixz (lumped_tensor M cg pts).
Proof.
  intros Hcg. destruct cg as [[cx cy] cz].
  unfold px in Hcg. cbn [fst snd] in Hcg.
  unfold lumped_tensor. cbn [Ixy Ixz].
  split; rewrite <- np_sum_map_opp; apply np_sum_map_mirror;
    mirror_term; rewrite Hcg; ring.
Qed.

(** After a segment of a mirrored wing, the tensor is the one before plus
    the sampled cloud plus its mirror image under the signs of the plane. *)
Lemma wing_segment_acc_mirrored
  (tigl : Tigl) (subd_c SPACING : Q) (fuse : Z) (cg : point)
  (mass_seg_i : list (list Q)) (awg : AircraftWingGeometry) (zeta : Q)
  (w i : Z) (s : wing_state) (r : segment_result) (sym : Z) (sg : point) :
  (forall x, In x (wing_sym awg) -> x = sym) ->
  sym <> 0%Z -> (forall old, wing_sym_signs sym old = Some sg) ->
  wing_segment tigl subd_c SPACING fuse cg mass_seg_i awg zeta w
               (ws_a s) i (ws_signs s) = Ok r ->
  exists M pts,
    ws_I (wing_segment_acc s r) =
      tensor_add (tensor_add (ws_I s) (lumped_tensor M cg pts))
                 (lumped_tensor M cg (mirror_points sg pts)).
Proof.
  intros Hall Hsym Hsg Hr.
  apply wing_segment_fields in Hr.
  destruct Hr as [sym' [Hsym' [Hm [HI Hmir]]]].
  assert (sym' = sym) by (apply Hall; eapply py_index_In; exact Hsym').
  subst sym'.
  unfold wing_mirror in Hmir.
  replace (sym =? 0)%Z with false in Hmir
    by (symmetry; apply Z.eqb_neq; exact Hsym).
  rewrite Hsg in Hmir. injection Hmir as Hmi Hsigns.
  exists (point_mass (ow_mass (sr_own r)) (ow_pts (sr_own r))),
         (ow_pts (sr_own r)).
  unfold wing_segment_acc, wing_own_acc. rewrite <- Hmi. cbn [ws_I mi_I].
  rewrite HI. unfold point_mass. rewrite mirror_points_length.
  reflexivity.
Qed.

(** X7. When every wing is mirrored in the same plane and the centre of
    gravity lies in that plane, the two products of inertia that involve
    the flipped coordinate cancel between each sampled cloud and its
    mirror image: [wing_inertia] returns Ixy = Iyz = 0 for the x-z plane
    (code 2), Iyz = Ixz = 0 for the x-y plane (code 1) and Ixy = Ixz = 0
    for the y-z plane (code 3). *)
Theorem wing_inertia_mirrored_products_cancel
  (tigl : Tigl) (subd_c SPACING : Q) (fuse : Z) (cg : point)
  (mass_seg_i : list (list Q)) (awg : AircraftWingGeometry)
  (sw : list point) (I : tensor) :
  wing_inertia tigl subd_c SPACING fuse cg mass_seg_i awg = Ok (sw, I) ->
  ((forall x, In x (wing_sym awg) -> x = 2%Z) -> py cg == 0 ->
   Ixy I == 0 /\ Iyz I == 0) /\
  ((forall x, In x (wing_sym awg) -> x = 1%Z) -> pz cg == 0 ->
   Iyz I == 0 /\ Ixz I == 0) /\
  ((forall x, In x (wing_sym awg) -> x = 3%Z) -> px cg == 0 ->
   Ixy I == 0 /\ Ixz I == 0).
Proof.
  intros H. unfold wing_inertia in H.
  bind_inv H as s Hloop. injection H as _ <-.
  split; [ | split ]; intros Hall Hcg.
  - eapply (wing_loop_invariant
              (fun st => Ixy (ws_I st) == 0 /\ Iyz (ws_I st) == 0));
      [ | | | exact Hloop ].
    + intros st a Hst. exact Hst.
    + intros zeta w st i r [H1 H2] Hr.
      destruct (wing_segment_acc_mirrored _ _ _ _ _ _ _ _ _ _ _ _ 2%Z
                  (1, - (1), 1) Hall ltac:(lia)
                  ltac:(intros; reflexivity) Hr) as [M [pts ->]].
      destruct (lumped_mirror_xz M cg pts Hcg) as [E1 E2].
      cbn [tensor_add Ixy Iyz]. rewrite E1, E2, H1, H2. split; ring.
    + simpl. split; reflexivity.
  - eapply (wing_loop_invariant
              (fun st => Iyz (ws_I st) == 0 /\ Ixz (ws_I st) == 0));
      [ | | | exact Hloop ].
    + intros st a Hst. exact Hst.
    + intros zeta w st i r [H1 H2] Hr.
      destruct (wing_segment_acc_mirrored _ _ _ _ _ _ _ _ _ _ _ _ 1%Z
                  (1, 1, - (1)) Hall ltac:(lia)
                  ltac:(intros; reflexivity) Hr) as [M [pts ->]].
      destruct (lumped_mirror_xy M cg pts Hcg) as [E1 E2].
      cbn [tensor_add Ixz Iyz]. rewrite E1, E2, H1, H2. split; ring.
    + simpl. split; reflexivity.
  - eapply (wing_loop_invariant
              (fun st => Ixy (ws_I st) == 0 /\ Ixz (ws_I st) == 0));
      [ | | | exact Hloop ].
    + intros st a Hst. exact Hst.
    + intros zeta w st i r [H1 H2] Hr.
      destruct (wing_segment_acc_mirrored _ _ _ _ _ _ _ _ _ _ _ _ 3%Z
                  (- (1), 1, 1) Hall ltac:(lia)
                  ltac:(intros; reflexivity) Hr) as [M [pts ->]].
      destruct (lumped_mirror_yz M cg pts Hcg) as [E1 E2].
      cbn [tensor_add Ixy Ixz]. rewrite E1, E2, H1, H2. split; ring.
    + simpl. split; reflexivity.
Qed.

Lemma wing_inertia_mirrored_products_cancel_witness :
  exists sw I,
    wing_inertia plain_wing 1 1 1 (0, 0, 0) [[50]; [100]; [100]]
                 mirrored_wing_awg = Ok (sw, I) /\
    Ixy I == 0 /\ Iyz I == 0.
Proof.
  destruct (wing_inertia plain_wing 1 1 1 (0, 0, 0) [[50]; [100]; [100]]
              mirrored_wing_awg) as [[sw I] | e] eqn:E;
    [ | vm_compute in E; discriminate E ].
  exists sw, I. split; [ reflexivity | ].
  destruct (wing_inertia_mirrored_products_cancel plain_wing 1 1 1
              (0, 0, 0) [[50]; [100]; [100]] mirrored_wing_awg sw I E)
    as [Hxz _].
  apply Hxz.
  - intros x [<- | []]. reflexivity.
  - reflexivity.
Defined.

(** ** Edge behaviour of [wing_inertia] *)

(** X8. The loop over the segments of a wing stops at the first segment
    id equal to 0: whatever follows a 0 in the column of ids has no effect
    on the result. *)
Theorem wing_segments_stop_at_zero
  (tigl : Tigl) (subd_c SPACING : Q) (fuse : Z) (cg : point)
  (mass_seg_i : list (list Q)) (awg : AircraftWingGeometry) (zeta : Q)
  (w : Z) (ids rest : list Z) (s : wing_state) :
  wing_segments tigl subd_c SPACING fuse cg mass_seg_i awg zeta w
                (ids ++ 0%Z :: rest) s =
  wing_segments tigl subd_c SPACING fuse cg mass_seg_i awg zeta w ids s.
Proof.
  revert s. induction ids as [| i ids IH]; intros s; simpl.
  - reflexivity.
  - destruct (i =? 0)%Z; [ reflexivity | ].
    destruct (wing_segment tigl subd_c SPACING fuse cg mass_seg_i awg zeta
                w (ws_a s) i (ws_signs s)) as [r | e]; simpl;
      [ apply IH | reflexivity ].
Qed.

Lemma py_int_below_2 (x : Q) : x < 2 -> (py_int x <= 1)%Z.
Proof.
  intros H. destruct x as [n d]. unfold py_int. unfold Qlt in H.
  cbn [Qnum Qden] in *.
  destruct (Z.le_gt_cases 0 n) as [Hn | Hn].
  - assert (n ÷ Z.pos d < 2)%Z; [ | lia ].
    apply Z.quot_lt_upper_bound; lia.
  - assert (n ÷ Z.pos d <= 0)%Z; [ | lia ].
    rewrite <- (Z.opp_involutive n), Z.quot_opp_l by lia.
    assert (0 <= (- n) ÷ Z.pos d)%Z by (apply Z.quot_pos; lia). lia.
Qed.

Lemma wing_zeta_negative (subd_c : Q) :
  subd_c < 0 -> wing_zeta subd_c = Raise ZeroDivisionError.
Proof.
  intros H. unfold wing_zeta.
  assert (Hk : (py_int (subd_c + 2) <= 1)%Z)
    by (apply py_int_below_2; lra).
  assert (HD : wing_DEN subd_c == 0).
  { unfold wing_DEN. rewrite fold_DEN.
    destruct (Z.le_gt_cases (py_int (subd_c + 2)) 0) as [H0 | H0].
    - rewrite py_range_nil by lia. simpl. reflexivity.
    - replace (py_int (subd_c + 2)) with (0 + 1)%Z by lia.
      rewrite py_range_cons by lia. rewrite py_range_nil by lia.
      simpl. reflexivity. }
  apply Qeq_bool_iff in HD. rewrite HD. reflexivity.
Qed.

(** X9. With a negative number of chordwise subdivisions the denominator
    of the chordwise spacing is zero: [wing_inertia] raises
    ZeroDivisionError as soon as there is one wing.  Without any wing it
    returns the empty cloud and the zero tensor. *)
Theorem wing_inertia_negative_subdivisions
  (tigl : Tigl) (subd_c SPACING : Q) (fuse : Z) (cg : point)
  (mass_seg_i : list (list Q)) (awg : AircraftWingGeometry) :
  ((w_nb awg <= 0)%Z ->
   wing_inertia tigl subd_c SPACING fuse cg mass_seg_i awg
     = Ok ([], tensor_zero)) /\
  (subd_c < 0 -> (1 <= w_nb awg)%Z ->
   wing_inertia tigl subd_c SPACING fuse cg mass_seg_i awg
     = Raise ZeroDivisionError).
Proof.
  unfold wing_inertia. split.
  - intros H. rewrite py_range_nil by lia. reflexivity.
  - intros Hc Hw. rewrite py_range_cons by lia. simpl.
    unfold wing_body at 1. rewrite wing_zeta_negative by exact Hc.
    reflexivity.
Qed.

Lemma flat_map_length_const {A B : Type} (f : A -> list B) (l : list A)
  (n : nat) :
  (forall a, length (f a) = n) ->
  length (flat_map f l) = (length l * n)%nat.
Proof.
  intros H. induction l as [| a l IH]; simpl; [ reflexivity | ].
  rewrite length_app, H, IH. reflexivity.
Qed.

Lemma chord_loop_length (tigl : Tigl) (w i : Z) (et ZLE zeta : Q)
  (ks : list Z) (ze : Q) :
  length (chord_loop tigl w i et ZLE zeta ks ze) = (2 * length ks)%nat.
Proof.
  revert ze. induction ks as [| k ks IH]; intros ze; simpl;
    [ reflexivity | rewrite IH; lia ].
Qed.

Lemma wing_segment_points_length (tigl : Tigl) (subd_c zeta : Q)
  (w i subd_l : Z) :
  length (wing_segment_points tigl subd_c zeta w i subd_l) =
    (Z.to_nat (subd_l + 1) * (2 + 2 * Z.to_nat (py_int subd_c + 1)))%nat.
Proof.
  unfold wing_segment_points.
  rewrite (flat_map_length_const _ _
             (2 + 2 * Z.to_nat (py_int subd_c + 1))).
  - rewrite py_range_length. f_equal. f_equal. lia.
  - intros j. unfold station_points. cbn [length].
    rewrite chord_loop_length, py_range_length.
    replace (py_int subd_c + 1 - 0)%Z with (py_int subd_c + 1)%Z by lia.
    lia.
Qed.

(** X10. The cloud sampled on a wing segment has (subd_l + 1) stations
    of 2 + 2 * (int(subd_c) + 1) points each, where subd_l is the clamped
    spanwise count; the mirrored cloud, when there is one, has as many
    points again. *)
Theorem wing_segment_point_count
  (tigl : Tigl) (subd_c SPACING : Q) (fuse : Z) (cg : point)
  (mass_seg_i : list (list Q)) (awg : AircraftWingGeometry) (zeta : Q)
  (w a i : Z) (old : option point) (r : segment_result) :
  wing_segment tigl subd_c SPACING fuse cg mass_seg_i awg zeta w a i old
    = Ok r ->
  exists subd_l,
    wing_subd_l SPACING awg w a i = Ok subd_l /\
    length (ow_pts (sr_own r)) =
      (Z.to_nat (subd_l + 1) * (2 + 2 * Z.to_nat (py_int subd_c + 1)))%nat /\
    forall mi, sr_mirror r = Some mi ->
               length (mi_pts mi) = length (ow_pts (sr_own r)).
Proof.
  intros H. pose proof (wing_segment_fields _ _ _ _ _ _ _ _ _ _ _ _ _ H)
    as [sym [_ [_ [_ Hmir]]]].
  unfold wing_segment in H. bind_inv H as o Ho. bind_inv H as sym' Hsym'.
  bind_inv H as [mir signs] Hmir'. injection H as <-. cbn [sr_own] in *.
  unfold wing_segment_own in Ho.
  bind_inv Ho as subd_l Hl. bind_inv Ho as c Hc. bind_inv Ho as mass Hmass.
  injection Ho as <-. cbn [ow_pts] in *.
  exists subd_l. split; [ exact Hl | ].
  split; [ apply wing_segment_points_length | ].
  intros mi Hmi. cbn [sr_mirror] in Hmi, Hmir. subst mir.
  apply wing_mirror_fields in Hmir. destruct Hmir as [sg [_ [_ [-> _]]]].
  apply mirror_points_length.
Qed.

Lemma wing_segment_point_count_witness :
  exists r subd_l,
    wing_segment plain_wing 1 1 1 (0, 0, 0) [[50]; [100]; [100]]
                 mirrored_wing_awg (1 # 3) 1 0 1 None = Ok r /\
    wing_subd_l 1 mirrored_wing_awg 1 0 1 = Ok subd_l /\
    length (ow_pts (sr_own r)) =
      (Z.to_nat (subd_l + 1) * (2 + 2 * Z.to_nat (py_int 1 + 1)))%nat.
Proof.
  destruct (wing_segment plain_wing 1 1 1 (0, 0, 0) [[50]; [100]; [100]]
              mirrored_wing_awg (1 # 3) 1 0 1 None) as [r | e] eqn:E;
    [ | vm_compute in E; discriminate E ].
  destruct (wing_segment_point_count plain_wing 1 1 1 (0, 0, 0)
              [[50]; [100]; [100]] mirrored_wing_awg (1 # 3) 1 0 1 None r E)
    as [subd_l [Hl [Hn _]]].
  exists r, subd_l. repeat split; assumption.
Defined.

Lemma count_sym_snoc (syms : list Z) (sym : Z) :
  count_sym (syms ++ [sym]) =
    (count_sym syms + (if (sym =? 0)%Z then 0 else 1))%Z.
Proof.
  unfold count_sym. rewrite filter_app, length_app. simpl.
  destruct (sym =? 0)%Z; simpl; lia.
Qed.

Lemma wing_segments_keep_a
  (tigl : Tigl) (subd_c SPACING : Q) (fuse : Z) (cg : point)
  (mass_seg_i : list (list Q)) (awg : AircraftWingGeometry) (zeta : Q)
  (w : Z) (ids : list Z) (s s' : wing_state) :
  wing_segments tigl subd_c SPACING fuse cg mass_seg_i awg zeta w ids s
    = Ok s' ->
  ws_a s' = ws_a s.
Proof.
  intros H.
  eapply (wing_segments_invariant (fun st => ws_a st = ws_a s));
    [ | reflexivity | exact H ].
  intros st i r Hst _. unfold wing_segment_acc, wing_own_acc.
  destruct (sr_mirror r); exact Hst.
Qed.

(** X11. After the wings 1 to k have been processed, the column offset
    [a] of [wing_inertia] is the number of wings among them that have a
    symmetry plane: wing w reads the lengths and masses of column
    w - 1 + (number of mirrored wings before w). *)
Theorem wing_inertia_column_offset
  (tigl : Tigl) (subd_c SPACING : Q) (fuse : Z) (cg : point)
  (mass_seg_i : list (list Q)) (awg : AircraftWingGeometry) (k : Z)
  (s : wing_state) :
  (0 <= k)%Z ->
  for_each (py_range 1 (k + 1))
           (wing_body tigl subd_c SPACING fuse cg mass_seg_i awg)
           wing_state_init = Ok s ->
  ws_a s = count_sym (firstn (Z.to_nat k) (wing_sym awg)).
Proof.
  intros Hk H.
  assert (Hinv : (1 <= k + 1)%Z /\
                 ws_a s = count_sym (firstn (Z.to_nat (k + 1 - 1))
                                            (wing_sym awg))).
  { apply (for_each_range_invariant
             (fun i st => (1 <= i)%Z /\
                          ws_a st = count_sym (firstn (Z.to_nat (i - 1))
                                                      (wing_sym awg)))
             (wing_body tigl subd_c SPACING fuse cg mass_seg_i awg)
             (k + 1)) with
      (n := Z.to_nat (k + 1 - 1)) (lo := 1%Z) (s := wing_state_init);
      [ | reflexivity | lia | | exact H ].
    - intros i st st' Hi [H1 Ha] Hbody. split; [ lia | ].
      unfold wing_body in Hbody.
      bind_inv Hbody as zeta Hzeta. bind_inv Hbody as col Hcol.
      bind_inv Hbody as st1 Hsegs. bind_inv Hbody as sym Hsym.
      injection Hbody as <-.
      apply wing_segments_keep_a in Hsegs.
      apply py_index_nth in Hsym; [ | lia ].
      replace (Z.to_nat (i + 1 - 1)) with (S (Z.to_nat (i - 1))) by lia.
      rewrite (firstn_succ_nth _ _ _ Hsym), count_sym_snoc, <- Ha, <- Hsegs.
      destruct (sym =? 0)%Z; simpl; lia.
    - split; [ lia | ]. reflexivity. }
  destruct Hinv as [_ Hinv].
  replace (k + 1 - 1)%Z with k in Hinv by lia. exact Hinv.
Qed.

Lemma wing_inertia_column_offset_witness :
  exists s,
    for_each (py_range 1 (1 + 1))
             (wing_body plain_wing 1 1 1 (0, 0, 0) [[50]; [100]; [100]]
                        mirrored_wing_awg)
             wing_state_init = Ok s /\
    ws_a s = 1%Z.
Proof.
  destruct (for_each (py_range 1 (1 + 1))
              (wing_body plain_wing 1 1 1 (0, 0, 0) [[50]; [100]; [100]]
                         mirrored_wing_awg)
              wing_state_init) as [s | e] eqn:E;
    [ | vm_compute in E; discriminate E ].
  exists s. split; [ reflexivity | ].
  rewrite (wing_inertia_column_offset plain_wing 1 1 1 (0, 0, 0)
             [[50]; [100]; [100]] mirrored_wing_awg 1 s);
    [ reflexivity | lia | exact E ].
Defined.

(** ** The interior points of the fuselage *)

Lemma py_index_last {A : Type} (l : list A) (a : A) :
  py_index (l ++ [a]) (-1) = Ok a.
Proof.
  unfold py_index.
  set (n := Z.of_nat (length (l ++ [a]))).
  assert (Hn : n = (Z.of_nat (length l) + 1)%Z).
  { unfold n. rewrite length_app. cbn [length]. lia. }
  replace (-1 <? 0)%Z with true by reflexivity.
  replace (0 <=? -1 + n)%Z with true by (symmetry; apply Z.leb_le; lia).
  replace (-1 + n <? n)%Z with true by (symmetry; apply Z.ltb_lt; lia).
  cbn [andb].
  replace (Z.to_nat (-1 + n)) with (length l) by lia.
  rewrite nth_error_app2 by lia. rewrite Nat.sub_diag. reflexivity.
Qed.

Lemma filter_length_le {A : Type} (f : A -> bool) (l : list A) :
  (length (filter f l) <= length l)%nat.
Proof.
  induction l as [| a l IH]; simpl; [ lia | ].
  destruct (f a); simpl; lia.
Qed.

(** X12. [D], the radial fractions of the interior points, cannot be
    built when the product subd_r * SUBD_C0 is not positive (IndexError on
    the empty [D0]).  Otherwise it has at most that many entries, none of
    them negative, it is not empty, and its last entry is 0.98. *)
Theorem fuse_D_radial_fractions (m : MathLib) (n : Z) :
  ((n <= 0)%Z -> fuse_D m n = Raise IndexError) /\
  ((0 < n)%Z ->
   exists D,
     fuse_D m n = Ok D /\
     Forall (fun t => 0 <= t) D /\
     (length D <= Z.to_nat n)%nat /\
     exists D' last, D = D' ++ [last] /\ last == 98 # 100).
Proof.
  unfold fuse_D. split.
  - intros H. unfold fuse_D0. rewrite py_range_nil by lia. reflexivity.
  - intros H. unfold fuse_D0.
    assert (E0 : py_range 0 n = py_range 0 (n - 1) ++ [(n - 1)%Z]).
    { rewrite <- py_range_snoc by lia. f_equal. lia. }
    rewrite E0, map_app. cbn [map].
    set (lastv := np_sqrt m (inject_Z (n - 1) / inject_Z n)).
    set (D0' := map (fun t => np_sqrt m (inject_Z t / inject_Z n))
                    (py_range 0 (n - 1))).
    rewrite py_index_last. simpl.
    eexists. split; [ reflexivity | ].
    split; [ | split ].
    + apply Forall_forall. intros t Ht. apply filter_In in Ht.
      destruct Ht as [_ Ht]. apply Qle_bool_iff in Ht. exact Ht.
    + eapply Nat.le_trans; [ apply filter_length_le | ].
      rewrite length_map, length_app. unfold D0'.
      rewrite length_map, py_range_length. simpl. lia.
    + rewrite map_app, filter_app. simpl.
      assert (E : lastv - (lastv - (98 # 100)) == 98 # 100) by ring.
      assert (Hb : Qle_bool 0 (lastv - (lastv - (98 # 100))) = true).
      { apply Qle_bool_iff. rewrite E. discriminate. }
      rewrite Hb. eexists. eexists. split; [ reflexivity | exact E ].
Qed.

Lemma spoke_points_length (m : MathLib) (D : list Q) (c p0 : point) :
  length (spoke_points m D c p0) = length D.
Proof.
  unfold spoke_points. rewrite length_map, length_combine, py_range_length.
  lia.
Qed.

Lemma fuse_station_length (m : MathLib) (tigl : Tigl) (f i : Z)
  (eta zeta : Q) (SUBD_C0 subd_r : Z) (D : list Q) (c : point) (j : Z)
  (fpts fpts' : list point) (old p0 : option point) :
  fuse_station m tigl f i eta zeta SUBD_C0 subd_r D c j (fpts, old)
    = Ok (fpts', p0) ->
  length fpts' =
    (length fpts
     + (Z.to_nat (SUBD_C0 + 1)
        + if (0 <? subd_r)%Z then length D else 0))%nat.
Proof.
  unfold fuse_station. intros H.
  assert (Hring : length (ring_points tigl f i (inject_Z j * eta) zeta
                                      SUBD_C0) = Z.to_nat (SUBD_C0 + 1)).
  { unfold ring_points. rewrite length_map, py_range_length. f_equal. lia. }
  destruct (0 <? subd_r)%Z.
  - destruct (last_point old _) as [p |]; [ | discriminate ].
    injection H as <- _.
    rewrite !length_app, spoke_points_length, Hring. lia.
  - injection H as <- _. rewrite length_app, Hring. lia.
Qed.

Lemma fuse_stations_length (m : MathLib) (tigl : Tigl) (f i : Z)
  (eta zeta : Q) (SUBD_C0 subd_r : Z) (D : list Q) (c : point)
  (js : list Z) :
  forall fpts old fpts' p0,
    for_each js (fuse_station m tigl f i eta zeta SUBD_C0 subd_r D c)
             (fpts, old) = Ok (fpts', p0) ->
    length fpts' =
      (length fpts
       + length js * (Z.to_nat (SUBD_C0 + 1)
                      + if (0 <? subd_r)%Z then length D else 0))%nat.
Proof.
  induction js as [| j js IH]; intros fpts old fpts' p0 H; simpl in H.
  - injection H as <- _. simpl. lia.
  - bind_inv H as [fpts1 old1] Hst.
    apply fuse_station_length in Hst. apply IH in H.
    rewrite H, Hst. simpl. lia.
Qed.

(** X13. The cloud sampled on a fuselage segment has (subd_l + 1)
    stations; each has SUBD_C0 + 1 points on the perimeter and, when the
    radial count is positive, one interior point per entry of [D]. *)
Theorem fuselage_segment_point_count
  (m : MathLib) (tigl : Tigl) (SPACING : Q) (mass_seg_i : list (list Q))
  (afg : AircraftFuseGeometry) (f i : Z) (old : option point)
  (r : fuse_segment_result) :
  fuse_segment m tigl SPACING mass_seg_i afg f i old = Ok r ->
  exists subd_l SUBD_C0 subd_r D,
    fuse_subdivisions SPACING afg f i = Ok (subd_l, SUBD_C0, subd_r) /\
    fuse_D m (subd_r * SUBD_C0) = Ok D /\
    length (fr_pts r) =
      (Z.to_nat (subd_l + 1)
       * (Z.to_nat (SUBD_C0 + 1)
          + if (0 <? subd_r)%Z then length D else 0))%nat.
Proof.
  unfold fuse_segment. intros H.
  bind_inv H as [[subd_l SUBD_C0] subd_r] Hsub.
  bind_inv H as D HD. bind_inv H as c Hc.
  bind_inv H as [fpts p0] Hst.
  bind_inv H as mass Hmass. injection H as <-. cbn [fr_pts].
  exists subd_l, SUBD_C0, subd_r, D.
  split; [ exact Hsub | ]. split; [ exact HD | ].
  apply fuse_stations_length in Hst.
  rewrite Hst, py_range_length. simpl. f_equal. f_equal. lia.
Qed.

Lemma fuselage_segment_point_count_witness :
  exists r,
    fuse_segment rational_math plain_wing 1 [[50]] plain_fuse_afg 1 1 None
      = Ok r /\
    length (fr_pts r) = 10%nat.
Proof.
  destruct (fuse_segment rational_math plain_wing 1 [[50]] plain_fuse_afg
              1 1 None) as [r | e] eqn:E;
    [ | vm_compute in E; discriminate E ].
  exists r. split; [ reflexivity | ].
  destruct (fuselage_segment_point_count rational_math plain_wing 1 [[50]]
              plain_fuse_afg 1 1 None r E)
    as [subd_l [SUBD_C0 [subd_r [D [Hsub [HD Hn]]]]]].
  vm_compute in Hsub. injection Hsub as <- <- <-.
  vm_compute in HD. injection HD as <-.
  rewrite Hn. reflexivity.
Defined.

(** * Further properties of the wing topology functions *)

Lemma list_set_length {A : Type} (l : list A) (k : Z) (v : A)
  (l' : list A) :
  list_set l k v = Ok l' -> length l' = length l.
Proof.
  intros H. destruct (list_set_spec l k v l' H) as [n [Hn [-> _]]].
  apply set_length. exact Hn.
Qed.

Lemma root_step_length (tigl : Tigl) (awg : AircraftWingGeometry)
  (xz yz : list Q) (i : Z) (seg_col : list seg_row) (j : Z)
  (st st' : root_state) :
  root_step tigl awg xz yz i seg_col j st = Ok st' ->
  length (snd st') = length (snd st).
Proof.
  destruct st as [[slp si] reord]. unfold root_step. intros H.
  bind_inv H as horiz Hh.
  destruct (if horiz then _ else _).
  - bind_inv H as row Hrow. bind_inv H as reord' Hset.
    injection H as <-. simpl. eapply list_set_length. exact Hset.
  - injection H as <-. reflexivity.
Qed.

Lemma chain_step_length (seg_col : list seg_row) (j : Z)
  (reord reord' : list seg_row) :
  chain_step seg_col j reord = Ok reord' -> length reord' = length reord.
Proof.
  unfold chain_step. intros H. bind_inv H as prev Hprev.
  destruct (filter _ seg_col) as [| r [| r' rest]]; try discriminate.
  eapply list_set_length. exact H.
Qed.

Lemma csc_reorder_length (tigl : Tigl) (awg : AircraftWingGeometry)
  (xz yz : list Q) (nbmax0 i n : Z) (si si' : list Z)
  (reord : list seg_row) :
  csc_reorder tigl awg xz yz nbmax0 i n si = Ok (si', reord) ->
  length reord = Z.to_nat nbmax0.
Proof.
  unfold csc_reorder. intros H.
  bind_inv H as row0 Hrow0. bind_inv H as reord0 Hreord0.
  bind_inv H as [[slp si1] reord1] Hroot.
  bind_inv H as reord2 Hchain. injection H as _ <-.
  apply list_set_length in Hreord0. rewrite repeat_length in Hreord0.
  assert (H1 : length reord1 = Z.to_nat nbmax0).
  { change reord1 with (snd (slp, si1, reord1)).
    eapply (for_each_invariant
              (fun st : root_state => length (snd st) = Z.to_nat nbmax0));
      [ | | exact Hroot ].
    - intros j st st' _ Hst Hstep.
      apply root_step_length in Hstep. congruence.
    - exact Hreord0. }
  eapply (for_each_invariant (fun col => length col = Z.to_nat nbmax0));
    [ | exact H1 | exact Hchain ].
  intros j col col' _ Hcol Hstep.
  apply chain_step_length in Hstep. congruence.
Qed.

Lemma pad_column_length (nbmax : Z) (c : list Z) :
  (Z.of_nat (length c) <= nbmax)%Z ->
  length (pad_column nbmax c) = Z.to_nat nbmax.
Proof.
  intros H. unfold pad_column. rewrite length_app, repeat_length. lia.
Qed.

(** X14. When [check_segment_connection] returns, the four results have
    one entry (or column) per wing; every column of [seg_sec_reordered]
    has as many rows as the largest segment count; the columns of
    [sec_index] all have the same number of rows, and no entry of [sec_nb]
    exceeds it. *)
Theorem check_segment_connection_shapes
  (xz yz : list Q) (awg : AircraftWingGeometry) (tigl : Tigl)
  (r : csc_result) :
  check_segment_connection xz yz awg tigl = Ok r ->
  exists nbmax0 rows,
    np_amax (wing_seg_nb awg) = Ok nbmax0 /\
    length (sec_nb r) = Z.to_nat (w_nb awg) /\
    length (seg_sec_reordered r) = Z.to_nat (w_nb awg) /\
    length (sec_index r) = Z.to_nat (w_nb awg) /\
    Forall (fun col => length col = Z.to_nat nbmax0) (seg_sec_reordered r) /\
    Forall (fun col => length col = Z.to_nat rows) (sec_index r) /\
    Forall (fun nb => (0 <= nb <= rows)%Z) (sec_nb r) /\
    (nbmax0 <= rows)%Z.
Proof.
  unfold check_segment_connection. intros H.
  bind_inv H as nbmax0 Hmax.
  destruct (nbmax0 <? 0)%Z eqn:Eneg; [ discriminate | ].
  destruct (w_nb awg <? 0)%Z; [ discriminate | ].
  apply Z.ltb_ge in Eneg.
  bind_inv H as s Hloop. injection H as <-. cbn.
  exists nbmax0, (cs_nbmax s). split; [ exact Hmax | ].
  pose (P := fun (i : Z) (st : csc_state) =>
               (1 <= i)%Z /\
               length (cs_sec_nb st) = Z.to_nat (i - 1) /\
               length (cs_reordered st) = Z.to_nat (i - 1) /\
               length (cs_sec_index st) = Z.to_nat (i - 1) /\
               Forall (fun col => length col = Z.to_nat nbmax0)
                      (cs_reordered st) /\
               Forall (fun col => length col = Z.to_nat (cs_nbmax st))
                      (cs_sec_index st) /\
               Forall (fun nb => (0 <= nb <= cs_nbmax st)%Z)
                      (cs_sec_nb st) /\
               (nbmax0 <= cs_nbmax st)%Z).
  destruct (Z.le_gt_cases 1 (w_nb awg + 1)) as [Hw | Hw].
  - assert (HP : P (w_nb awg + 1)%Z s).
    { apply (for_each_range_invariant P
               (csc_wing tigl awg xz yz nbmax0) (w_nb awg + 1)) with
        (n := Z.to_nat (w_nb awg + 1 - 1)) (lo := 1%Z)
        (s := mkCsc [] [] [] [] nbmax0 None);
        [ | reflexivity | exact Hw | | exact Hloop ].
      - intros i st st' Hi [H1 [Hnb [Hre [Hidx [Hcols [Hrows [Hle Hge]]]]]]]
               Hstep.
        unfold csc_wing in Hstep.
        bind_inv Hstep as n Hn. bind_inv Hstep as [si reord] Hreord.
        bind_inv Hstep as wsi Hwsi. injection Hstep as <-. cbn.
        apply csc_reorder_length in Hreord.
        set (nb := Z.of_nat (length wsi)).
        split; [ lia | ].
        cbn [cs_sec_nb cs_reordered cs_sec_index cs_nbmax].
        rewrite !length_app, length_map, length_app. cbn [length].
        repeat split; try lia.
        + apply Forall_app. split; [ exact Hcols | ].
          constructor; [ exact Hreord | constructor ].
        + apply Forall_forall. intros c Hc. apply in_map_iff in Hc.
          destruct Hc as [c0 [<- Hc0]]. apply pad_column_length.
          apply in_app_or in Hc0. destruct Hc0 as [Hc0 | [<- | []]].
          * rewrite Forall_forall in Hrows. rewrite (Hrows _ Hc0). lia.
          * fold nb. lia.
        + apply Forall_app. split.
          * eapply Forall_impl; [ | exact Hle ]. cbn. intros nb0 Hnb0. lia.
          * constructor; [ fold nb; lia | constructor ].
      - unfold P. cbn. repeat split; try constructor; lia. }
    destruct HP as [_ [Hnb [Hre [Hidx [Hcols [Hrows [Hle Hge]]]]]]].
    replace (w_nb awg + 1 - 1)%Z with (w_nb awg) in * by lia.
    repeat split; assumption.
  - rewrite py_range_nil in Hloop by lia. injection Hloop as <-. cbn.
    replace (Z.to_nat (w_nb awg)) with 0%nat by lia.
    repeat split; try constructor; lia.
Qed.

Lemma check_segment_connection_shapes_witness :
  exists r nbmax0 rows,
    check_segment_connection [1] [1] shuffled_three_awg shuffled_three
      = Ok r /\
    np_amax (wing_seg_nb shuffled_three_awg) = Ok nbmax0 /\
    length (sec_nb r) = Z.to_nat (w_nb shuffled_three_awg) /\
    Forall (fun col => length col = Z.to_nat nbmax0) (seg_sec_reordered r) /\
    Forall (fun col => length col = Z.to_nat rows) (sec_index r).
Proof.
  destruct (check_segment_connection [1] [1] shuffled_three_awg
              shuffled_three) as [r | e] eqn:E;
    [ | vm_compute in E; discriminate E ].
  destruct (check_segment_connection_shapes [1] [1] shuffled_three_awg
              shuffled_three r E)
    as [nbmax0 [rows [H1 [H2 [_ [_ [H3 [H4 _]]]]]]]].
  exists r, nbmax0, rows. repeat split; assumption.
Defined.

Lemma check_segment_connection_linked_witness :
  exists r col,
    check_segment_connection [1] [1] shuffled_three_awg shuffled_three
      = Ok r /\
    nth_error (seg_sec_reordered r) 0 = Some col /\
    linked (firstn (Z.to_nat 3) col).
Proof.
  destruct (check_segment_connection [1] [1] shuffled_three_awg
              shuffled_three) as [r | e] eqn:E;
    [ | vm_compute in E; discriminate E ].
  destruct (nth_error (seg_sec_reordered r) 0) as [col |] eqn:Ecol;
    [ | vm_compute in E; injection E as <-; discriminate Ecol ].
  exists r, col. split; [ reflexivity | ]. split; [ exact Ecol | ].
  apply (check_segment_connection_linked [1] [1] shuffled_three_awg
           shuffled_three r E 0%nat col 3 Ecol).
  reflexivity.
Defined.

Lemma first_wing_section_sequence_witness :
  exists r col0 k rest rest',
    check_segment_connection [1; 1] [1; 1] two_wings_awg two_wings = Ok r /\
    seg_sec_reordered r = col0 :: rest /\
    sec_index r = (chain_sections (firstn (Z.to_nat 1) col0)
                   ++ repeat 0%Z k) :: rest'.
Proof.
  destruct (check_segment_connection [1; 1] [1; 1] two_wings_awg two_wings)
    as [r | e] eqn:E; [ | vm_compute in E; discriminate E ].
  destruct (first_wing_section_sequence [1; 1] [1; 1] two_wings_awg
              two_wings r 1 E)
    as [col0 [k [rest [rest' [H1 H2]]]]];
    [ simpl; lia | reflexivity | lia | ].
  exists r, col0, k, rest, rest'.
  split; [ reflexivity | ]. split; assumption.
Defined.

(** ** The head of the reordered chain *)

Lemma seg_sec_column_row (tigl : Tigl) (nbmax i n k : Z) (row : seg_row) :
  (0 <= k < n)%Z ->
  py_index (seg_sec_column tigl nbmax i n) k = Ok row ->
  row = (fst (wingGetInnerSectionAndElementIndex tigl i (k + 1)),
         fst (wingGetOuterSectionAndElementIndex tigl i (k + 1)),
         (k + 1)%Z).
Proof.
  intros Hk H. apply py_index_nth in H; [ | lia ].
  unfold seg_sec_column in H.
  rewrite nth_error_firstn in H.
  destruct (Z.to_nat k <? Z.to_nat nbmax)%nat; [ | discriminate ].
  rewrite nth_error_app1 in H
    by (rewrite length_map, py_range_length; lia).
  rewrite nth_error_map in H.
  assert (E : nth_error (py_range 1 (n + 1)) (Z.to_nat k)
              = Some (k + 1)%Z).
  { unfold py_range. rewrite nth_error_map, nth_error_seq.
    destruct (Z.to_nat k <? Z.to_nat (n + 1 - 1))%nat eqn:E;
      [ | apply Nat.ltb_ge in E; lia ].
    unfold option_map. f_equal. lia. }
  rewrite E in H. unfold option_map in H. injection H as <-. reflexivity.
Qed.

Lemma last_snoc_Z (l : list Z) (x d : Z) : last (l ++ [x]) d = x.
Proof. apply last_last. Qed.

(** X17. For each wing, the root scan appends 1 to [start_index] and then
    the index of every segment it promotes to the head; the first row of
    the reordered column is the row of [seg_sec] of the last index
    appended, and on a wing with at least one segment that index is the
    segment id of the head row. *)
Theorem start_index_records_head
  (tigl : Tigl) (awg : AircraftWingGeometry) (xz yz : list Q)
  (nbmax0 i n : Z) (si si' : list Z) (reord : list seg_row) :
  csc_reorder tigl awg xz yz nbmax0 i n si = Ok (si', reord) ->
  exists ups head,
    si' = si ++ 1%Z :: ups /\
    Forall (fun j => (2 <= j <= n)%Z) ups /\
    py_index (seg_sec_column tigl nbmax0 i n) (last (1%Z :: ups) 1%Z - 1)
      = Ok head /\
    nth_error reord 0 = Some head /\
    ((1 <= n)%Z -> seg_id head = last (1%Z :: ups) 1%Z).
Proof.
  unfold csc_reorder. intros H.
  set (seg_col := seg_sec_column tigl nbmax0 i n) in *.
  bind_inv H as row0 Hrow0. bind_inv H as reord0 Hreord0.
  bind_inv H as [[slp si1] reord1] Hroot.
  bind_inv H as reord2 Hchain. injection H as <- <-.
  pose (Q := fun st : root_state =>
               exists ups head,
                 snd (fst st) = si ++ 1%Z :: ups /\
                 Forall (fun j => (2 <= j <= n)%Z) ups /\
                 py_index seg_col (last (1%Z :: ups) 1%Z - 1) = Ok head /\
                 nth_error (snd st) 0 = Some head).
  assert (HQ : Q (slp, si1, reord1)).
  { eapply (for_each_invariant Q); [ | | exact Hroot ].
    - intros j st st' Hj [ups [head [Hsi [Hups [Hhead Hnth]]]]] Hstep.
      apply in_py_range in Hj.
      destruct st as [[p si0] col]. cbn [fst snd] in *.
      unfold root_step in Hstep. bind_inv Hstep as horiz Hh.
      destruct (if horiz then _ else _).
      + bind_inv Hstep as row Hrow. bind_inv Hstep as col' Hset.
        injection Hstep as <-. cbn [fst snd].
        exists (ups ++ [j]), row. subst si0.
        split; [ rewrite <- app_assoc; reflexivity | ].
        split; [ apply Forall_app; split;
                 [ exact Hups | constructor; [ lia | constructor ] ] | ].
        rewrite app_comm_cons, last_snoc_Z.
        split; [ exact Hrow | ].
        apply list_set_nonneg in Hset; [ | lia ].
        destruct Hset as [Hlen ->]. apply set_nth_same. exact Hlen.
      + injection Hstep as <-. cbn [fst snd].
        exists ups, head. repeat split; assumption.
    - exists [], row0. cbn [fst snd last].
      split; [ reflexivity | ].
      split; [ constructor | ]. split; [ exact Hrow0 | ].
      apply list_set_nonneg in Hreord0; [ | lia ].
      destruct Hreord0 as [Hlen ->]. apply set_nth_same. exact Hlen. }
  destruct HQ as [ups [head [Hsi [Hups [Hhead Hnth]]]]].
  cbn [fst snd] in *.
  exists ups, head. split; [ exact Hsi | ]. split; [ exact Hups | ].
  split; [ exact Hhead | ]. split.
  - eapply (for_each_invariant (fun col => nth_error col 0 = Some head));
      [ | exact Hnth | exact Hchain ].
    intros j col col' Hj Hcol Hstep. apply in_py_range in Hj.
    unfold chain_step in Hstep. bind_inv Hstep as prev Hprev.
    destruct (filter _ seg_col) as [| r [| r' rest]]; try discriminate.
    apply list_set_nonneg in Hstep; [ | lia ].
    destruct Hstep as [Hlen ->].
    rewrite set_nth_other; [ exact Hcol | exact Hlen | lia ].
  - intros Hn.
    assert (Hlast : (1 <= last (1%Z :: ups) 1%Z <= n)%Z).
    { clear -Hups Hn. revert Hups.
      induction ups as [| u ups IH] using rev_ind; intros Hups.
      - simpl. lia.
      - rewrite app_comm_cons, last_snoc_Z.
        apply Forall_app in Hups. destruct Hups as [_ Hu].
        inversion Hu; subst. lia. }
    apply seg_sec_column_row in Hhead; [ | lia ].
    rewrite Hhead. unfold seg_id. cbn [snd]. lia.
Qed.

Lemma start_index_records_head_witness :
  exists si' reord ups head,
    csc_reorder shuffled_three shuffled_three_awg [1] [1] 3 1 3 []
      = Ok (si', reord) /\
    si' = [] ++ 1%Z :: ups /\
    nth_error reord 0 = Some head /\
    seg_id head = last (1%Z :: ups) 1%Z.
Proof.
  destruct (csc_reorder shuffled_three shuffled_three_awg [1] [1] 3 1 3 [])
    as [[si' reord] | e] eqn:E; [ | vm_compute in E; discriminate E ].
  destruct (start_index_records_head shuffled_three shuffled_three_awg
              [1] [1] 3 1 3 [] si' reord E)
    as [ups [head [H1 [_ [_ [H2 H3]]]]]].
  exists si', reord, ups, head.
  split; [ reflexivity | ]. split; [ exact H1 | ].
  split; [ exact H2 | ]. apply H3. lia.
Defined.

(** ** Degenerate and ambiguous inputs *)

Lemma np_amax_Ok_nonempty (l : list Z) (x : Z) :
  np_amax l = Ok x -> exists n, py_index l 0 = Ok n.
Proof.
  destruct l as [| a l]; [ discriminate | ].
  intros _. exists a. reflexivity.
Qed.

(** X18. [check_segment_connection] raises ValueError when no segment
    count is given at all (the maximum of an empty array), and raises
    IndexError when there is a wing but the largest segment count is 0
    (the arrays have no row to hold the head segment). *)
Theorem check_segment_connection_degenerate
  (xz yz : list Q) (awg : AircraftWingGeometry) (tigl : Tigl) :
  (wing_seg_nb awg = [] ->
   check_segment_connection xz yz awg tigl = Raise ValueError) /\
  (np_amax (wing_seg_nb awg) = Ok 0%Z -> (1 <= w_nb awg)%Z ->
   check_segment_connection xz yz awg tigl = Raise IndexError).
Proof.
  unfold check_segment_connection. split.
  - intros ->. reflexivity.
  - intros Hmax Hw. rewrite Hmax. cbn [bind Z.ltb Z.compare].
    replace (w_nb awg <? 0)%Z with false by (symmetry; apply Z.ltb_ge; lia).
    rewrite py_range_cons by lia. cbn [for_each].
    unfold csc_wing at 1.
    destruct (np_amax_Ok_nonempty _ _ Hmax) as [n Hn].
    replace (1 - 1)%Z with 0%Z by lia. rewrite Hn. cbn [bind].
    unfold csc_reorder, seg_sec_column. cbn [Z.to_nat firstn].
    reflexivity.
Qed.

Lemma csc_columns (Pcol : Z -> Z -> list seg_row -> Prop)
  (xz yz : list Q) (awg : AircraftWingGeometry) (tigl : Tigl)
  (nbmax0 : Z) :
  (forall i n si si' reord,
      csc_reorder tigl awg xz yz nbmax0 i n si = Ok (si', reord) ->
      Pcol i n reord) ->
  forall s,
    for_each (py_range 1 (w_nb awg + 1))
             (csc_wing tigl awg xz yz nbmax0)
             (mkCsc [] [] [] [] nbmax0 None) = Ok s ->
    forall (k : nat) (col : list seg_row) (n : Z),
      nth_error (cs_reordered s) k = Some col ->
      py_index (wing_seg_nb awg) (Z.of_nat k) = Ok n ->
      Pcol (Z.of_nat k + 1)%Z n col.
Proof.
  intros Hcol s Hloop.
  destruct (Z.le_gt_cases 1 (w_nb awg + 1)) as [Hw | Hw].
  - pose (P := fun (i : Z) (st : csc_state) =>
                 (1 <= i)%Z /\
                 length (cs_reordered st) = Z.to_nat (i - 1) /\
                 forall (k : nat) (col : list seg_row) (n : Z),
                   nth_error (cs_reordered st) k = Some col ->
                   py_index (wing_seg_nb awg) (Z.of_nat k) = Ok n ->
                   Pcol (Z.of_nat k + 1)%Z n col).
    assert (HP : P (w_nb awg + 1)%Z s).
    { apply (for_each_range_invariant P
               (csc_wing tigl awg xz yz nbmax0) (w_nb awg + 1)) with
        (n := Z.to_nat (w_nb awg + 1 - 1)) (lo := 1%Z)
        (s := mkCsc [] [] [] [] nbmax0 None);
        [ | reflexivity | exact Hw | | exact Hloop ].
      - intros i st st' Hi [H1 [Hlen Hall]] Hstep.
        unfold csc_wing in Hstep.
        bind_inv Hstep as n Hn. bind_inv Hstep as [si reord] Hreord.
        bind_inv Hstep as wsi Hwsi. injection Hstep as <-.
        unfold P. cbn [cs_reordered].
        split; [ lia | ]. split.
        + rewrite length_app, Hlen. simpl. lia.
        + intros k col n' Hk Hn'.
          destruct (Nat.lt_ge_cases k (length (cs_reordered st)))
            as [Hlt | Hge].
          * rewrite nth_error_app1 in Hk by exact Hlt.
            eapply Hall; eassumption.
          * rewrite nth_error_app2 in Hk by exact Hge.
            destruct (k - length (cs_reordered st))%nat as [| d] eqn:E.
            -- simpl in Hk. injection Hk as <-.
               replace (Z.of_nat k) with (i - 1)%Z in Hn' by lia.
               rewrite Hn in Hn'. injection Hn' as <-.
               replace (Z.of_nat k + 1)%Z with i by lia.
               eapply Hcol. exact Hreord.
            -- simpl in Hk. destruct d; discriminate.
      - split; [ lia | ]. split; [ reflexivity | ].
        intros k col n Hk. destruct k; discriminate. }
    destruct HP as [_ [_ HP]]. exact HP.
  - rewrite py_range_nil in Hloop by lia. injection Hloop as <-.
    intros k col n Hk. destruct k; discriminate.
Qed.

Lemma chain_step_unique (seg_col : list seg_row) (j : Z)
  (reord reord' : list seg_row) :
  (2 <= j)%Z ->
  chain_step seg_col j reord = Ok reord' ->
  exists prev next,
    nth_error reord (Z.to_nat (j - 2)) = Some prev /\
    filter (fun row => (seg_start row =? seg_end prev)%Z) seg_col = [next] /\
    (Z.to_nat (j - 1) < length reord)%nat /\
    reord' = firstn (Z.to_nat (j - 1)) reord
             ++ next :: skipn (S (Z.to_nat (j - 1))) reord.
Proof.
  intros Hj H. unfold chain_step in H. bind_inv H as prev Hprev.
  apply py_index_nth in Hprev; [ | lia ].
  destruct (filter _ seg_col) as [| r [| r' rest]] eqn:Ef; try discriminate.
  apply list_set_nonneg in H; [ | lia ]. destruct H as [Hlen ->].
  exists prev, r. repeat split; assumption.
Qed.

Lemma csc_reorder_unique_links (tigl : Tigl) (awg : AircraftWingGeometry)
  (xz yz : list Q) (nbmax0 i n : Z) (si si' : list Z)
  (reord : list seg_row) :
  csc_reorder tigl awg xz yz nbmax0 i n si = Ok (si', reord) ->
  forall j, (2 <= j <= n)%Z ->
    exists prev next,
      nth_error reord (Z.to_nat (j - 2)) = Some prev /\
      nth_error reord (Z.to_nat (j - 1)) = Some next /\
      filter (fun row => (seg_start row =? seg_end prev)%Z)
             (seg_sec_column tigl nbmax0 i n) = [next].
Proof.
  unfold csc_reorder. intros H.
  set (seg_col := seg_sec_column tigl nbmax0 i n) in *.
  bind_inv H as row0 Hrow0. bind_inv H as reord0 Hreord0.
  bind_inv H as [[slp si1] reord1] Hroot.
  bind_inv H as reord2 Hchain. injection H as _ <-.
  intros j Hj.
  assert (Hinv : (2 <= n + 1)%Z /\
    forall j', (2 <= j' < n + 1)%Z ->
      exists prev next,
        nth_error reord2 (Z.to_nat (j' - 2)) = Some prev /\
        nth_error reord2 (Z.to_nat (j' - 1)) = Some next /\
        filter (fun row => (seg_start row =? seg_end prev)%Z) seg_col
          = [next]).
  { apply (for_each_range_invariant
             (fun hi col => (2 <= hi)%Z /\
                forall j', (2 <= j' < hi)%Z ->
                  exists prev next,
                    nth_error col (Z.to_nat (j' - 2)) = Some prev /\
                    nth_error col (Z.to_nat (j' - 1)) = Some next /\
                    filter (fun row => (seg_start row =? seg_end prev)%Z)
                           seg_col = [next])
             (chain_step seg_col) (n + 1)) with
      (n := Z.to_nat (n + 1 - 2)) (lo := 2%Z) (s := reord1);
      [ | reflexivity | lia | | exact Hchain ].
    - intros hi col col' Hhi [H2 Hall] Hstep. split; [ lia | ].
      apply chain_step_unique in Hstep; [ | exact H2 ].
      destruct Hstep as [prev [next [Hprev [Hf [Hlen ->]]]]].
      intros j' Hj'.
      destruct (Z.eq_dec j' hi) as [-> | Hne].
      + exists prev, next.
        rewrite set_nth_other by (try exact Hlen; lia).
        rewrite set_nth_same by exact Hlen.
        repeat split; assumption.
      + destruct (Hall j') as [p [nx [Hp [Hnx Hfil]]]]; [ lia | ].
        exists p, nx.
        rewrite !set_nth_other by (try exact Hlen; lia).
        repeat split; assumption.
    - split; [ lia | ]. intros j' Hj'. lia. }
  destruct Hinv as [_ Hinv]. apply Hinv. lia.
Qed.

(** X19. Whenever [check_segment_connection] returns, every link of every
    reordered chain was unambiguous: for each wing and each row from the
    second to the last, the row is the only row of the wing's [seg_sec]
    column that starts at the end section of the row before it.  A
    missing or a repeated start section makes the function raise. *)
Theorem check_segment_connection_unique_links
  (xz yz : list Q) (awg : AircraftWingGeometry) (tigl : Tigl)
  (r : csc_result) (nbmax0 : Z) :
  check_segment_connection xz yz awg tigl = Ok r ->
  np_amax (wing_seg_nb awg) = Ok nbmax0 ->
  forall (k : nat) (col : list seg_row) (n j : Z),
    nth_error (seg_sec_reordered r) k = Some col ->
    py_index (wing_seg_nb awg) (Z.of_nat k) = Ok n ->
    (2 <= j <= n)%Z ->
    exists prev next,
      nth_error col (Z.to_nat (j - 2)) = Some prev /\
      nth_error col (Z.to_nat (j - 1)) = Some next /\
      filter (fun row => (seg_start row =? seg_end prev)%Z)
             (seg_sec_column tigl nbmax0 (Z.of_nat k + 1) n) = [next].
Proof.
  unfold check_segment_connection. intros H Hmax.
  rewrite Hmax in H. cbn [bind] in H.
  destruct (nbmax0 <? 0)%Z; [ discriminate | ].
  destruct (w_nb awg <? 0)%Z; [ discriminate | ].
  bind_inv H as s Hloop. injection H as <-. cbn [seg_sec_reordered].
  intros k col n j Hk Hn Hj.
  apply (csc_columns
           (fun i n col =>
              forall j, (2 <= j <= n)%Z ->
                exists prev next,
                  nth_error col (Z.to_nat (j - 2)) = Some prev /\
                  nth_error col (Z.to_nat (j - 1)) = Some next /\
                  filter (fun row => (seg_start row =? seg_end prev)%Z)
                         (seg_sec_column tigl nbmax0 i n) = [next])
           xz yz awg tigl nbmax0) with (s := s); try assumption.
  intros i n0 si si' reord Hre. eapply csc_reorder_unique_links. exact Hre.
Qed.

Lemma check_segment_connection_unique_links_witness :
  exists r col prev next,
    check_segment_connection [1] [1] shuffled_three_awg shuffled_three
      = Ok r /\
    nth_error (seg_sec_reordered r) 0 = Some col /\
    nth_error col (Z.to_nat (3 - 2)) = Some prev /\
    nth_error col (Z.to_nat (3 - 1)) = Some next /\
    filter (fun row => (seg_start row =? seg_end prev)%Z)
           (seg_sec_column shuffled_three 3 (Z.of_nat 0 + 1) 3) = [next].
Proof.
  destruct (check_segment_connection [1] [1] shuffled_three_awg
              shuffled_three) as [r | e] eqn:E;
    [ | vm_compute in E; discriminate E ].
  destruct (nth_error (seg_sec_reordered r) 0) as [col |] eqn:Ecol;
    [ | vm_compute in E; injection E as <-; discriminate Ecol ].
  destruct (check_segment_connection_unique_links [1] [1]
              shuffled_three_awg shuffled_three r 3 E eq_refl 0%nat col 3 3
              Ecol eq_refl ltac:(lia))
    as [prev [next [H1 [H2 H3]]]].
  exists r, col, prev, next.
  split; [ reflexivity | ]. repeat split; assumption.
Defined.

(** ** The array returned by [getwingsegmentlength] *)

Lemma py_index_set_other {A : Type} (l : list A) (k k' : Z) (v : A)
  (l' : list A) :
  (0 <= k)%Z -> (0 <= k')%Z -> k' <> k ->
  list_set l k v = Ok l' -> py_index l' k' = py_index l k'.
Proof.
  intros Hk Hk' Hne H. apply list_set_nonneg in H; [ | exact Hk ].
  destruct H as [Hlen ->]. unfold py_index.
  rewrite set_length by exact Hlen.
  replace (k' <? 0)%Z with false by (symmetry; apply Z.ltb_ge; lia).
  rewrite set_nth_other by (try exact Hlen; lia).
  reflexivity.
Qed.

Lemma set_rc_other_col {A : Type} (a : list (list A)) (r c c' : Z) (v : A)
  (a' : list (list A)) :
  (0 <= c)%Z -> (0 <= c')%Z -> c' <> c ->
  set_rc a r c v = Ok a' -> py_index a' c' = py_index a c'.
Proof.
  intros Hc Hc' Hne H. unfold set_rc in H.
  bind_inv H as col Hcol. bind_inv H as col' Hcol'.
  exact (py_index_set_other _ _ _ _ _ Hc Hc' Hne H).
Qed.

Lemma set_rc_other_row {A : Type} (a : list (list A)) (r r' c : Z) (v : A)
  (a' : list (list A)) :
  (0 <= r)%Z -> (0 <= r')%Z -> r' <> r ->
  set_rc a r c v = Ok a' -> at_rc a' r' c = at_rc a r' c.
Proof.
  intros Hr Hr' Hne H. unfold set_rc in H.
  bind_inv H as col Hcol. bind_inv H as col' Hcol'.
  unfold at_rc. rewrite (list_set_get _ _ _ _ H), Hcol. cbn [bind].
  exact (py_index_set_other _ _ _ _ _ Hr Hr' Hne Hcol').
Qed.

Lemma at_rc_same_col {A : Type} (a a' : list (list A)) (r c : Z) :
  py_index a' c = py_index a c -> at_rc a' r c = at_rc a r c.
Proof. unfold at_rc. intros ->. reflexivity. Qed.

(** The inner loop fills rows 0 to n-1 of one column and leaves the other
    columns alone. *)
Lemma length_rows (m : MathLib) (wcsp : list (list point)) (i a n : Z)
  (L L1 : list (list Q)) :
  (0 <= i + a - 1)%Z ->
  for_each (py_range 1 (n + 1)) (length_step m wcsp i a) L = Ok L1 ->
  (forall j, (1 <= j <= n)%Z ->
     exists p1 p2,
       at_rc wcsp (j - 1) (i - 1) = Ok p1 /\
       at_rc wcsp j (i - 1) = Ok p2 /\
       at_rc L1 (j - 1) (i + a - 1) = Ok (segment_length m p1 p2)) /\
  (forall c', (0 <= c')%Z -> c' <> (i + a - 1)%Z ->
     py_index L1 c' = py_index L c').
Proof.
  intros Hc H.
  destruct (Z.le_gt_cases 1 (n + 1)) as [Hn | Hn].
  - pose (P := fun (hi : Z) (L' : list (list Q)) =>
      (1 <= hi)%Z /\
      (forall j, (1 <= j < hi)%Z ->
         exists p1 p2,
           at_rc wcsp (j - 1) (i - 1) = Ok p1 /\
           at_rc wcsp j (i - 1) = Ok p2 /\
           at_rc L' (j - 1) (i + a - 1) = Ok (segment_length m p1 p2)) /\
      (forall c', (0 <= c')%Z -> c' <> (i + a - 1)%Z ->
         py_index L' c' = py_index L c')).
    assert (HP : P (n + 1)%Z L1).
    { apply (for_each_range_invariant P (length_step m wcsp i a) (n + 1))
        with (n := Z.to_nat (n + 1 - 1)) (lo := 1%Z) (s := L);
        [ | reflexivity | exact Hn | | exact H ].
      - intros hi L' L'' Hhi [H1 [Hrows Hcols]] Hstep.
        unfold length_step in Hstep.
        bind_inv Hstep as p1 Hp1. bind_inv Hstep as p2 Hp2.
        split; [ lia | ]. split.
        + intros j Hj. destruct (Z.eq_dec j hi) as [-> | Hne].
          * exists p1, p2. split; [ exact Hp1 | ]. split; [ exact Hp2 | ].
            eapply set_rc_get. exact Hstep.
          * destruct (Hrows j) as [q1 [q2 [Hq1 [Hq2 Hq]]]]; [ lia | ].
            exists q1, q2. split; [ exact Hq1 | ]. split; [ exact Hq2 | ].
            assert (Hr : (0 <= hi - 1)%Z) by lia.
            assert (Hr' : (0 <= j - 1)%Z) by lia.
            assert (Hrr : (j - 1)%Z <> (hi - 1)%Z) by lia.
            rewrite (set_rc_other_row _ _ _ _ _ _ Hr Hr' Hrr Hstep).
            exact Hq.
        + intros c' Hc' Hne.
          rewrite (set_rc_other_col _ _ _ _ _ _ Hc Hc' Hne Hstep).
          apply Hcols; assumption.
      - split; [ lia | ]. split; [ intros j Hj; lia | ].
        intros c' _ _. reflexivity. }
    destruct HP as [_ [Hrows Hcols]]. split; [ | exact Hcols ].
    intros j Hj. apply Hrows. lia.
  - rewrite py_range_nil in H by lia. injection H as <-.
    split; [ intros j Hj; lia | intros c' _ _; reflexivity ].
Qed.

Lemma count_sym_nonneg (syms : list Z) : (0 <= count_sym syms)%Z.
Proof. unfold count_sym. lia. Qed.

Lemma wing_column_succ (awg : AircraftWingGeometry) (i sym : Z) :
  (1 <= i)%Z -> py_index (wing_sym awg) (i - 1) = Ok sym ->
  wing_column awg (i + 1) =
    (wing_column awg i + 1 + (if (sym =? 0)%Z then 0 else 1))%Z.
Proof.
  intros Hi Hsym. apply py_index_nth in Hsym; [ | lia ].
  unfold wing_column.
  replace (Z.to_nat (i + 1 - 1)) with (S (Z.to_nat (i - 1))) by lia.
  rewrite (firstn_succ_nth _ _ _ Hsym), count_sym_snoc. lia.
Qed.

Lemma count_sym_app (l1 l2 : list Z) :
  count_sym (l1 ++ l2) = (count_sym l1 + count_sym l2)%Z.
Proof. unfold count_sym. rewrite filter_app, length_app. lia. Qed.

Lemma wing_column_mono (awg : AircraftWingGeometry) (i1 i2 : Z) :
  (i1 <= i2)%Z -> (wing_column awg i1 <= wing_column awg i2)%Z.
Proof.
  intros H. unfold wing_column.
  assert (Hc : (count_sym (firstn (Z.to_nat (i1 - 1)) (wing_sym awg))
                <= count_sym (firstn (Z.to_nat (i2 - 1)) (wing_sym awg)))%Z).
  { rewrite <- (firstn_skipn (Z.to_nat (i1 - 1))
                             (firstn (Z.to_nat (i2 - 1)) (wing_sym awg))).
    rewrite firstn_firstn, count_sym_app.
    replace (Nat.min (Z.to_nat (i1 - 1)) (Z.to_nat (i2 - 1)))
      with (Z.to_nat (i1 - 1)) by lia.
    pose proof (count_sym_nonneg
                  (skipn (Z.to_nat (i1 - 1))
                         (firstn (Z.to_nat (i2 - 1)) (wing_sym awg)))).
    lia. }
  lia.
Qed.

Lemma wing_column_nonneg (awg : AircraftWingGeometry) (i : Z) :
  (1 <= i)%Z -> (0 <= wing_column awg i)%Z.
Proof.
  intros H. unfold wing_column.
  pose proof (count_sym_nonneg (firstn (Z.to_nat (i - 1)) (wing_sym awg))).
  lia.
Qed.

Lemma wing_lengths_ok_frame (m : MathLib) (awg : AircraftWingGeometry)
  (wcsp : list (list point)) (L L' : list (list Q)) (i i' : Z) :
  (1 <= i' < i)%Z ->
  (forall c', (0 <= c' < wing_column awg i)%Z ->
              py_index L' c' = py_index L c') ->
  wing_lengths_ok m awg wcsp L i' -> wing_lengths_ok m awg wcsp L' i'.
Proof.
  intros Hi Hframe Hok n sym Hn Hsym.
  destruct (Hok n sym Hn Hsym) as [Hrows Hcopy].
  pose proof (wing_column_succ awg i' sym ltac:(lia) Hsym) as Hsucc.
  pose proof (wing_column_mono awg (i' + 1) i ltac:(lia)) as Hmono.
  pose proof (wing_column_nonneg awg i' ltac:(lia)) as Hnn.
  split.
  - intros j Hj. destruct (Hrows j Hj) as [p1 [p2 [H1 [H2 H3]]]].
    exists p1, p2. split; [ exact H1 | ]. split; [ exact H2 | ].
    rewrite (at_rc_same_col L L'); [ exact H3 | ].
    apply Hframe. destruct (sym =? 0)%Z; lia.
  - intros Hne. destruct (Hcopy Hne) as [col [H1 H2]].
    exists col.
    replace (sym =? 0)%Z with false in Hsucc
      by (symmetry; apply Z.eqb_neq; exact Hne).
    rewrite !Hframe by lia. split; assumption.
Qed.

Lemma length_wing_step (m : MathLib) (awg : AircraftWingGeometry)
  (wcsp : list (list point)) (i a a' : Z) (L L' : list (list Q)) :
  (1 <= i)%Z ->
  (i + a - 1)%Z = wing_column awg i ->
  (forall i', (1 <= i' < i)%Z -> wing_lengths_ok m awg wcsp L i') ->
  length_wing m awg wcsp i (L, a) = Ok (L', a') ->
  (i + 1 + a' - 1)%Z = wing_column awg (i + 1) /\
  (forall i', (1 <= i' < i + 1)%Z -> wing_lengths_ok m awg wcsp L' i').
Proof.
  intros Hi Hcol Hall H. unfold length_wing in H.
  bind_inv H as n Hn. bind_inv H as L1 Hrows. bind_inv H as sym Hsym.
  pose proof (wing_column_nonneg awg i Hi) as Hnn.
  apply length_rows in Hrows; [ | lia ].
  destruct Hrows as [Hrows Hcols]. rewrite Hcol in Hrows, Hcols.
  pose proof (wing_column_succ awg i sym Hi Hsym) as Hsucc.
  destruct (sym =? 0)%Z eqn:Esym.
  - injection H as <- <-. split; [ lia | ].
    intros i' Hi'. destruct (Z.eq_dec i' i) as [-> | Hne].
    + intros n0 sym0 Hn0 Hsym0.
      rewrite Hn in Hn0. injection Hn0 as <-.
      rewrite Hsym in Hsym0. injection Hsym0 as <-.
      split; [ exact Hrows | ].
      intros Hne. apply Z.eqb_eq in Esym. contradiction.
    + apply (wing_lengths_ok_frame m awg wcsp L L1 i i');
        [ lia | | apply Hall; lia ].
      intros c' Hc'. apply Hcols; lia.
  - bind_inv H as col Hc. bind_inv H as L2 Hset.
    injection H as <- <-. split; [ lia | ].
    rewrite Hcol in Hc.
    replace (i + a)%Z with (wing_column awg i + 1)%Z in Hset by lia.
    assert (Hframe2 : forall c', (0 <= c')%Z ->
                                 c' <> (wing_column awg i + 1)%Z ->
                                 py_index L2 c' = py_index L1 c').
    { intros c' H0 H1.
      apply (py_index_set_other L1 (wing_column awg i + 1) c' col L2);
        [ lia | exact H0 | exact H1 | exact Hset ]. }
    intros i' Hi'. destruct (Z.eq_dec i' i) as [-> | Hne].
    + intros n0 sym0 Hn0 Hsym0.
      rewrite Hn in Hn0. injection Hn0 as <-.
      rewrite Hsym in Hsym0. injection Hsym0 as <-.
      split.
      * intros j Hj. destruct (Hrows j Hj) as [p1 [p2 [H1 [H2 H3]]]].
        exists p1, p2. split; [ exact H1 | ]. split; [ exact H2 | ].
        rewrite (at_rc_same_col L1 L2); [ exact H3 | ].
        apply Hframe2; lia.
      * intros _. exists col. split.
        -- rewrite Hframe2 by lia. exact Hc.
        -- eapply list_set_get. exact Hset.
    + apply (wing_lengths_ok_frame m awg wcsp L L2 i i');
        [ lia | | apply Hall; lia ].
      intros c' Hc'. rewrite Hframe2 by lia. apply Hcols; lia.
Qed.

Lemma getwingsegmentlength_columns
  (m : MathLib) (awg : AircraftWingGeometry) (wcsp : list (list point))
  (lengths : list (list Q)) (i : Z) :
  getwingsegmentlength m awg wcsp = Ok lengths ->
  (1 <= i <= w_nb awg)%Z ->
  wing_lengths_ok m awg wcsp lengths i.
Proof.
  intros H Hi. unfold getwingsegmentlength in H.
  bind_inv H as max_seg_nb Hmax.
  destruct ((max_seg_nb <? 0)%Z || (wing_nb awg <? 0)%Z)%bool;
    [ discriminate | ].
  bind_inv H as [L a] Hloop. injection H as <-.
  pose (P := fun (hi : Z) (st : list (list Q) * Z) =>
               (1 <= hi)%Z /\
               (hi + snd st - 1)%Z = wing_column awg hi /\
               forall i', (1 <= i' < hi)%Z ->
                          wing_lengths_ok m awg wcsp (fst st) i').
  assert (HP : P (w_nb awg + 1)%Z (L, a)).
  { apply (for_each_range_invariant P (length_wing m awg wcsp)
             (w_nb awg + 1)) with
      (n := Z.to_nat (w_nb awg + 1 - 1)) (lo := 1%Z)
      (s := (repeat (repeat 0 (Z.to_nat max_seg_nb))
                    (Z.to_nat (wing_nb awg)), 0%Z));
      [ | reflexivity | lia | | exact Hloop ].
    - intros hi [L0 a0] [L0' a0'] Hhi [H1 [Hcol Hall]] Hstep.
      cbn [fst snd] in *.
      destruct (length_wing_step m awg wcsp hi a0 a0' L0 L0' H1 Hcol Hall
                  Hstep) as [Hcol' Hall'].
      split; [ lia | ]. split; assumption.
    - split; [ lia | ]. split; [ reflexivity | ].
      intros i' Hi'. lia. }
  destruct HP as [_ [_ HP]]. cbn [fst] in HP.
  apply (HP i ltac:(lia)).
Qed.

(** X20. In the array returned by [getwingsegmentlength], the column of
    wing i is the column i - 1 shifted by the number of mirrored wings
    before it; its rows 0 to n - 1 hold, for the n segments of the wing,
    the length between the centre points of rows j - 1 and j; and when
    the wing has a symmetry plane the next column is a copy of it. *)
Theorem getwingsegmentlength_entries
  (m : MathLib) (awg : AircraftWingGeometry) (wcsp : list (list point))
  (lengths : list (list Q)) (i n sym : Z) :
  getwingsegmentlength m awg wcsp = Ok lengths ->
  (1 <= i <= w_nb awg)%Z ->
  py_index (wing_seg_nb awg) (i - 1) = Ok n ->
  py_index (wing_sym awg) (i - 1) = Ok sym ->
  (forall j, (1 <= j <= n)%Z ->
     exists p1 p2,
       at_rc wcsp (j - 1) (i - 1) = Ok p1 /\
       at_rc wcsp j (i - 1) = Ok p2 /\
       at_rc lengths (j - 1) (wing_column awg i)
         = Ok (segment_length m p1 p2)) /\
  (sym <> 0%Z ->
     exists col,
       py_index lengths (wing_column awg i) = Ok col /\
       py_index lengths (wing_column awg i + 1) = Ok col).
Proof.
  intros H Hi Hn Hsym.
  exact (getwingsegmentlength_columns m awg wcsp lengths i H Hi n sym
           Hn Hsym).
Qed.

Lemma getwingsegmentlength_entries_witness :
  exists lengths col,
    getwingsegmentlength rational_math three_wings_awg three_wings_centres
      = Ok lengths /\
    at_rc lengths (2 - 1) (wing_column three_wings_awg 2) = Ok 12 /\
    py_index lengths (wing_column three_wings_awg 2) = Ok col /\
    py_index lengths (wing_column three_wings_awg 2 + 1) = Ok col.
Proof.
  destruct (getwingsegmentlength rational_math three_wings_awg
              three_wings_centres) as [lengths | e] eqn:E;
    [ | vm_compute in E; discriminate E ].
  destruct (getwingsegmentlength_entries rational_math three_wings_awg
              three_wings_centres lengths 2 2 2 E ltac:(simpl; lia)
              eq_refl eq_refl) as [Hrows Hcopy].
  destruct (Hcopy ltac:(lia)) as [col [H1 H2]].
  destruct (Hrows 2%Z ltac:(lia)) as [p1 [p2 [Hp1 [Hp2 Hlen]]]].
  exists lengths, col. split; [ reflexivity | ].
  split; [ | split; assumption ].
  rewrite Hlen. vm_compute in Hp1, Hp2.
  injection Hp1 as <-. injection Hp2 as <-. reflexivity.
Defined.

(** C9. In the array that [getwingsegmentlength] returns, the length of
    segment [j] of wing [i] is the square root of the sum of the squared
    coordinate differences of the centre points of rows [j-1] and [j] of
    the wing, which is their Euclidean distance; with a square root that
    is never negative it is non-negative, and it is the same when the two
    centre points are swapped.  The mirrored wing, when there is one, has
    the same length in the next column, and every entry of the array is
    non-negative. *)
Theorem segment_length_is_euclidean_distance
  (m : MathLib) (awg : AircraftWingGeometry) (wcsp : list (list point))
  (lengths : list (list Q)) (i n sym j : Z) :
  (forall x, 0 <= np_sqrt m x) ->
  (forall x y, x == y -> np_sqrt m x == np_sqrt m y) ->
  getwingsegmentlength m awg wcsp = Ok lengths ->
  (1 <= i <= w_nb awg)%Z ->
  py_index (wing_seg_nb awg) (i - 1) = Ok n ->
  py_index (wing_sym awg) (i - 1) = Ok sym ->
  (1 <= j <= n)%Z ->
  (exists p1 p2 len,
      at_rc wcsp (j - 1) (i - 1) = Ok p1 /\
      at_rc wcsp j (i - 1) = Ok p2 /\
      at_rc lengths (j - 1) (wing_column awg i) = Ok len /\
      (sym <> 0%Z ->
       at_rc lengths (j - 1) (wing_column awg i + 1) = Ok len) /\
      len = np_sqrt m ((px p1 - px p2) ^ 2 + (py p1 - py p2) ^ 2
                       + (pz p1 - pz p2) ^ 2) /\
      0 <= len /\
      len == np_sqrt m ((px p2 - px p1) ^ 2 + (py p2 - py p1) ^ 2
                        + (pz p2 - pz p1) ^ 2)) /\
  nonneg_array lengths.
Proof.
  intros Hs Hproper H Hi Hn Hsym Hj.
  split; [ | exact (getwingsegmentlength_nonneg m awg wcsp lengths Hs H) ].
  destruct (getwingsegmentlength_columns m awg wcsp lengths i H Hi n sym
              Hn Hsym) as [Hrows Hcopy].
  destruct (Hrows j Hj) as [p1 [p2 [H1 [H2 H3]]]].
  exists p1, p2, (segment_length m p1 p2).
  split; [ exact H1 | ]. split; [ exact H2 | ]. split; [ exact H3 | ].
  split.
  - intros Hne. destruct (Hcopy Hne) as [col [Hc Hc']].
    unfold at_rc in H3 |- *. rewrite Hc in H3. rewrite Hc'. exact H3.
  - split; [ reflexivity | ].
    split; [ unfold segment_length; apply Hs | ].
    exact (segment_length_sym m p1 p2 Hproper).
Qed.

Lemma segment_length_is_euclidean_distance_witness :
  exists lengths,
    getwingsegmentlength rational_math three_wings_awg three_wings_centres
      = Ok lengths /\
    at_rc lengths (1 - 1) (wing_column three_wings_awg 2) = Ok 5 /\
    at_rc lengths (1 - 1) (wing_column three_wings_awg 2 + 1) = Ok 5 /\
    nonneg_array lengths.
Proof.
  destruct (getwingsegmentlength rational_math three_wings_awg
              three_wings_centres) as [lengths | e] eqn:E;
    [ | vm_compute in E; discriminate E ].
  destruct (segment_length_is_euclidean_distance rational_math
              three_wings_awg three_wings_centres lengths 2 2 2 1
              rational_sqrt_nonneg rational_sqrt_proper E
              ltac:(simpl; lia) eq_refl eq_refl ltac:(lia))
    as [[p1 [p2 [len [Hp1 [Hp2 [Hlen [Hmir [Hval _]]]]]]]] Hnn].
  exists lengths. split; [ reflexivity | ].
  vm_compute in Hp1, Hp2. injection Hp1 as <-. injection Hp2 as <-.
  assert (E5 : len = 5) by (rewrite Hval; reflexivity).
  rewrite E5 in Hlen, Hmir.
  split; [ exact Hlen | ].
  split; [ apply Hmir; discriminate | exact Hnn ].
Defined.

Lemma for_each_range_run {S : Type} (P : Z -> S -> Prop)
  (body : Z -> S -> res S) (hi : Z) :
  (forall j s, (j < hi)%Z -> P j s ->
               exists s', body j s = Ok s' /\ P (j + 1)%Z s') ->
  forall (n : nat) (lo : Z) (s : S),
    n = Z.to_nat (hi - lo) -> (lo <= hi)%Z -> P lo s ->
    exists s', for_each (py_range lo hi) body s = Ok s' /\ P hi s'.
Proof.
  intros Hbody. induction n as [| n IH]; intros lo s Hn Hle Hs.
  - assert (lo = hi) by lia. subst lo.
    rewrite py_range_nil by lia. exists s. split; [ reflexivity | exact Hs ].
  - rewrite py_range_cons by lia. simpl.
    destruct (Hbody lo s) as [s1 [H1 HP1]]; [ lia | exact Hs | ].
    rewrite H1. simpl. apply IH; [ lia | lia | exact HP1 ].
Qed.

Lemma py_index_snoc {A : Type} (l : list A) (a : A) (k : Z) :
  Z.of_nat (length l) = k -> py_index (l ++ [a]) k = Ok a.
Proof.
  intros Hk. unfold py_index. rewrite length_app. cbn [length].
  replace (k <? 0)%Z with false by (symmetry; apply Z.ltb_ge; lia).
  replace (0 <=? k)%Z with true by (symmetry; apply Z.leb_le; lia).
  replace (k <? Z.of_nat (length l + 1))%Z with true
    by (symmetry; apply Z.ltb_lt; lia).
  cbn [andb].
  replace (Z.to_nat k) with (length l) by lia.
  rewrite nth_error_app2 by lia. rewrite Nat.sub_diag. reflexivity.
Qed.

Lemma py_index_app_l {A : Type} (l l' : list A) (k : Z) (a : A) :
  (0 <= k)%Z -> py_index l k = Ok a -> py_index (l ++ l') k = Ok a.
Proof.
  intros Hk H. unfold py_index in *. rewrite length_app.
  replace (k <? 0)%Z with false in * by (symmetry; apply Z.ltb_ge; lia).
  replace (0 <=? k)%Z with true in * by (symmetry; apply Z.leb_le; lia).
  cbn [andb] in *.
  destruct (k <? Z.of_nat (length l))%Z eqn:E; [ | discriminate ].
  apply Z.ltb_lt in E.
  replace (k <? Z.of_nat (length l + length l'))%Z with true
    by (symmetry; apply Z.ltb_lt; lia).
  rewrite nth_error_app1 by lia. exact H.
Qed.

Lemma Qltb_scale (a b c : Q) : 0 < c -> Qltb (a * c) (b * c) = Qltb a b.
Proof.
  intros Hc. unfold Qltb. f_equal.
  destruct (Qle_bool (b * c) (a * c)) eqn:E1;
    destruct (Qle_bool b a) eqn:E2; try reflexivity.
  - apply Qle_bool_iff in E1.
    assert (H : ~ b <= a) by (intros H; apply Qle_bool_iff in H; congruence).
    exfalso. apply H. apply (Qmult_le_r _ _ c Hc). exact E1.
  - apply Qle_bool_iff in E2.
    assert (H : ~ b * c <= a * c)
      by (intros H; apply Qle_bool_iff in H; congruence).
    exfalso. apply H. apply Qmult_le_r; assumption.
Qed.

Lemma mirrored_before_succ (tigl : TiglWings) (j : Z) :
  (1 <= j)%Z ->
  mirrored_before tigl (j + 1)
  = (mirrored_before tigl j
     + if (wingGetSymmetry tigl j =? 0)%Z then 0 else 1)%Z.
Proof.
  intros Hj. unfold mirrored_before.
  rewrite py_range_snoc by lia. rewrite map_app, count_sym_app. f_equal.
  unfold count_sym. cbn [map filter].
  destruct (wingGetSymmetry tigl j =? 0)%Z; reflexivity.
Qed.

Lemma mirrored_before_nonneg (tigl : TiglWings) (j : Z) :
  (0 <= mirrored_before tigl j)%Z.
Proof. apply count_sym_nonneg. Qed.

Lemma mirrored_before_mono (tigl : TiglWings) (i j : Z) :
  (1 <= i <= j)%Z -> (mirrored_before tigl i <= mirrored_before tigl j)%Z.
Proof.
  intros H. unfold mirrored_before.
  rewrite (py_range_split 1 i j) by lia.
  rewrite map_app, count_sym_app.
  pose proof (count_sym_nonneg (map (wingGetSymmetry tigl) (py_range i j))).
  lia.
Qed.


Lemma wing_double_pos (tigl : TiglWings) (i : Z) : 0 < wing_double tigl i.
Proof.
  unfold wing_double. destruct (wingGetSymmetry tigl i =? 0)%Z; reflexivity.
Qed.

Lemma map_range_length {A : Type} (f : Z -> A) (j : Z) :
  (1 <= j)%Z -> Z.of_nat (length (map f (py_range 1 j))) = (j - 1)%Z.
Proof. intros Hj. rewrite length_map, py_range_length. lia. Qed.

Lemma count_step_inv (tigl : TiglWings) (w_nb : Z) (tot0 : Q) (j : Z)
  (s : wing_counts) :
  counts_inv tigl w_nb tot0 j s ->
  exists s', count_step tigl j s = Ok s' /\
             counts_inv tigl w_nb tot0 (j + 1) s'.
Proof.
  intros (Hj & Hsym & Hseg & Hvol & Harea & Hxz & Hyz & Hnb & Hlen & Htot
          & Hh).
  unfold count_step.
  rewrite (py_index_snoc (c_wing_sym s))
    by (rewrite Hsym; apply map_range_length; exact Hj).
  cbn [bind].
  rewrite (py_index_snoc (c_wing_plt_area s))
    by (rewrite Harea; apply map_range_length; exact Hj).
  cbn [bind].
  rewrite (py_index_snoc (c_wing_plt_area_xz s)) by exact Hxz.
  cbn [bind].
  rewrite (py_index_snoc (c_wing_plt_area_yz s)) by exact Hyz.
  rewrite (py_index_snoc (c_wing_vol s))
    by (rewrite Hvol; apply map_range_length; exact Hj).
  fold (wing_double tigl j).
  assert (Hhz :
    (if Qltb (wingGetReferenceArea tigl j 2 * wing_double tigl j)
             (wingGetReferenceArea tigl j 1 * wing_double tigl j)
     then ayz <- Ok (wingGetReferenceArea tigl j 3 * wing_double tigl j) ;;
          Ok (Qltb ayz (wingGetReferenceArea tigl j 1 * wing_double tigl j))
     else Ok false) = Ok (wing_is_horiz tigl j)).
  { unfold wing_is_horiz. cbn [bind].
    rewrite !Qltb_scale by apply wing_double_pos.
    destruct (Qltb (wingGetReferenceArea tigl j 2)
                   (wingGetReferenceArea tigl j 1)); reflexivity. }
  rewrite Hhz. cbn [bind].
  eexists. split; [ reflexivity | ].
  unfold counts_inv.
  cbn [c_wing_nb c_wing_sym c_wing_sec_nb c_wing_seg_nb c_wing_vol
       c_wing_plt_area c_wing_plt_area_xz c_wing_plt_area_yz c_is_horiz
       c_wing_tot_vol].
  rewrite (py_range_snoc 1 j) by lia. rewrite !map_app. cbn [map].
  rewrite Hsym, Hseg, Hvol, Harea.
  rewrite !length_app. cbn [length].
  rewrite (mirrored_before_succ tigl j Hj).
  split; [ lia | ].
  split; [ reflexivity | ].
  split; [ reflexivity | ].
  split; [ reflexivity | ].
  split; [ reflexivity | ].
  split; [ lia | ].
  split; [ lia | ].
  split; [ rewrite Hnb; destruct (wingGetSymmetry tigl j =? 0)%Z; lia | ].
  split.
  { destruct (wingGetSymmetry tigl j =? 0)%Z; cbn [length]; lia. }
  split.
  { rewrite Htot, Hvol. rewrite np_sum_app.
    unfold np_sum at 3. cbn [fold_left]. ring. }
  intros i Hi.
  assert (Hcase : (i < j \/ i = j)%Z) by lia.
  destruct Hcase as [Hlt | ->].
  - destruct (Hh i) as [H1 H2]; [ lia | ].
    pose proof (mirrored_before_nonneg tigl i).
    split.
    + apply py_index_app_l; [ lia | exact H1 ].
    + intros Hne. apply py_index_app_l; [ lia | exact (H2 Hne) ].
  - pose proof (mirrored_before_nonneg tigl j) as Hnn.
    destruct (wingGetSymmetry tigl j =? 0)%Z eqn:Es.
    + split.
      * apply py_index_snoc. lia.
      * intros Hne. apply Z.eqb_eq in Es. contradiction.
    + split.
      * change [wing_is_horiz tigl j; wing_is_horiz tigl j]
          with ([wing_is_horiz tigl j] ++ [wing_is_horiz tigl j]).
        rewrite app_assoc.
        apply py_index_app_l; [ lia | ]. apply py_index_snoc. lia.
      * intros _.
        change [wing_is_horiz tigl j; wing_is_horiz tigl j]
          with ([wing_is_horiz tigl j] ++ [wing_is_horiz tigl j]).
        rewrite app_assoc. apply py_index_snoc.
        rewrite length_app. cbn [length]. lia.
Qed.

(** X21. On a fresh [awg] the counting loop of [geom_eval] never raises.
    Afterwards [wing_sym] holds the symmetry codes of wings 1..w_nb,
    [wing_nb] is [w_nb] plus the number of wings with a symmetry plane,
    [is_horiz] has [wing_nb] entries, the entry of wing [i] standing at
    [i - 1] plus the number of mirrored wings before it and repeated once
    for a mirrored wing (the doubling of the areas does not change the
    test), and [wing_tot_vol] has grown by the sum of [wing_vol]. *)
Theorem geom_eval_counts (tigl : TiglWings) (w_nb : Z) (awg0 : wing_counts) :
  c_wing_sym awg0 = [] -> c_wing_seg_nb awg0 = [] -> c_wing_vol awg0 = [] ->
  c_wing_plt_area awg0 = [] -> c_is_horiz awg0 = [] ->
  exists awg,
    geom_count tigl w_nb awg0 = Ok awg /\
    c_wing_sym awg = map (wingGetSymmetry tigl) (py_range 1 (w_nb + 1)) /\
    c_wing_nb awg = (w_nb + count_sym (c_wing_sym awg))%Z /\
    ((0 <= w_nb)%Z -> Z.of_nat (length (c_is_horiz awg)) = c_wing_nb awg) /\
    c_wing_tot_vol awg == c_wing_tot_vol awg0 + np_sum (c_wing_vol awg) /\
    (forall i, (1 <= i <= w_nb)%Z ->
       py_index (c_is_horiz awg) (i - 1 + mirrored_before tigl i)
       = Ok (wing_is_horiz tigl i) /\
       (wingGetSymmetry tigl i <> 0%Z ->
        py_index (c_is_horiz awg) (i + mirrored_before tigl i)
        = Ok (wing_is_horiz tigl i))).
Proof.
  intros Hsym Hseg Hvol Harea Hh.
  unfold geom_count. rewrite Hsym, Hseg, Hvol, Harea, Hh.
  destruct (Z_lt_le_dec w_nb 0) as [Hneg | Hpos].
  - rewrite py_range_nil by lia. eexists. split; [ reflexivity | ].
    cbn [c_wing_sym c_wing_nb c_is_horiz c_wing_tot_vol c_wing_vol].
    split; [ reflexivity | ]. split; [ unfold count_sym; simpl; lia | ].
    split; [ lia | ]. split; [ unfold np_sum; simpl; ring | ].
    intros i Hi. lia.
  - destruct (for_each_range_run
                (counts_inv tigl w_nb (c_wing_tot_vol awg0))
                (count_step tigl) (w_nb + 1)
                (fun j s _ Hs => count_step_inv tigl w_nb _ j s Hs)
                (Z.to_nat (w_nb + 1 - 1)) 1%Z
                (mkWingCounts w_nb [] (c_wing_sec_nb awg0) [] [] [] [] [] []
                   (c_wing_tot_vol awg0)))
      as [awg [Hrun Hinv]]; [ reflexivity | lia | | ].
    + unfold counts_inv, mirrored_before.
      cbn [c_wing_nb c_wing_sym c_wing_sec_nb c_wing_seg_nb c_wing_vol
           c_wing_plt_area c_wing_plt_area_xz c_wing_plt_area_yz c_is_horiz
           c_wing_tot_vol].
      rewrite py_range_nil by lia. cbn [map length].
      unfold count_sym, np_sum. cbn [filter length fold_left].
      repeat split; try lia; try reflexivity; try ring.
      all: lia.
    + exists awg. split; [ exact Hrun | ].
      destruct Hinv as (Hj & Hsym' & _ & _ & _ & _ & _ & Hnb & Hlen & Htot
                        & Hhz).
      split; [ exact Hsym' | ].
      split; [ rewrite Hnb, Hsym'; reflexivity | ].
      split; [ intros _; rewrite Hlen, Hnb; lia | ].
      split; [ exact Htot | ].
      intros i Hi. apply Hhz. lia.
Qed.

Lemma Qltb_lt (x y : Q) : Qltb x y = true <-> x < y.
Proof.
  unfold Qltb. rewrite negb_true_iff. split.
  - intros H. apply Qnot_le_lt. intros Hle. apply Qle_bool_iff in Hle.
    congruence.
  - intros H. destruct (Qle_bool y x) eqn:E; [ | reflexivity ].
    apply Qle_bool_iff in E. exfalso. apply (Qlt_not_le _ _ H E).
Qed.

Lemma Qltb_ge (x y : Q) : Qltb x y = false <-> y <= x.
Proof.
  unfold Qltb. rewrite negb_false_iff. apply Qle_bool_iff.
Qed.

(** [np.amax] returns an entry of the array that no entry exceeds. *)
Lemma fold_max_spec (l : list Q) (x : Q) :
  let m := fold_left (fun m y => if Qltb m y then y else m) l x in
  In m (x :: l) /\ forall y, In y (x :: l) -> y <= m.
Proof.
  revert x. induction l as [| z l IH]; intros x; cbn [fold_left].
  - split; [ left; reflexivity | ].
    intros y [<- | []]. apply Qle_refl.
  - destruct (Qltb x z) eqn:E.
    + destruct (IH z) as [Hin Hmax]. split.
      * right. exact Hin.
      * intros y [<- | Hy]; [ | apply Hmax; exact Hy ].
        apply Qltb_lt in E. apply Qle_trans with z.
        -- apply Qlt_le_weak. exact E.
        -- apply Hmax. left. reflexivity.
    + destruct (IH x) as [Hin Hmax]. split.
      * destruct Hin as [<- | Hin]; [ left; reflexivity | right; right; exact Hin ].
      * intros y [<- | [<- | Hy]].
        -- apply Hmax. left. reflexivity.
        -- apply Qltb_ge in E. apply Qle_trans with x; [ exact E | ].
           apply Hmax. left. reflexivity.
        -- apply Hmax. right. exact Hy.
Qed.

Lemma np_amax_float_spec (l : list Q) (x : Q) :
  exists m, np_amax_float (l ++ [x]) = Ok m /\ In m (l ++ [x]) /\
            forall y, In y (l ++ [x]) -> y <= m.
Proof.
  destruct (l ++ [x]) as [| z r] eqn:E.
  - destruct l; discriminate E.
  - eexists. split; [ reflexivity | ]. apply fold_max_spec.
Qed.


Lemma In_map_range {A : Type} (f : Z -> A) (j : Z) (y : A) :
  In y (map f (py_range 1 j)) -> exists k, (1 <= k < j)%Z /\ y = f k.
Proof.
  intros H. apply in_map_iff in H. destruct H as [k [<- Hk]].
  apply in_py_range in Hk. exists k. split; [ lia | reflexivity ].
Qed.

Lemma span_step_inv (tigl : TiglWings) (idx0 : Z) (j : Z)
  (st : list Q * Q * Z) :
  span_inv tigl idx0 j st ->
  exists st', span_step tigl j st = Ok st' /\ span_inv tigl idx0 (j + 1) st'.
Proof.
  destruct st as [[wing_span b] idx].
  intros (Hj & Hspan & Hmax & Hidx).
  unfold span_step.
  destruct (np_amax_float_spec wing_span (rounded_span tigl j))
    as [a [Ha [Hin Hle]]].
  rewrite Ha. cbn [bind].
  assert (Hrange : wing_span ++ [rounded_span tigl j]
                   = map (rounded_span tigl) (py_range 1 (j + 1))).
  { rewrite py_range_snoc by lia. rewrite map_app, Hspan. reflexivity. }
  destruct (Qltb b a) eqn:E.
  - apply Qltb_lt in E.
    assert (Hnew : a = rounded_span tigl j).
    { apply in_app_or in Hin. destruct Hin as [Hin | [<- | []]];
        [ | reflexivity ].
      rewrite Hspan in Hin. apply In_map_range in Hin.
      destruct Hin as [k [Hk ->]]. exfalso.
      apply (Qlt_not_le _ _ E). apply Hmax. exact Hk. }
    eexists. split; [ reflexivity | ].
    unfold span_inv. split; [ lia | ]. split; [ exact Hrange | ].
    split.
    + intros k Hk. apply Hle. apply in_or_app.
      assert (Hc : (k < j \/ k = j)%Z) by lia.
      destruct Hc as [Hc | ->].
      * left. rewrite Hspan. apply in_map. apply in_py_range. lia.
      * right. left. reflexivity.
    + right. split; [ lia | ]. split; [ exact Hnew | ].
      split.
      * destruct Hidx as [[_ ->] | (_ & _ & Hpos & _)]; [ exact E | ].
        apply Qlt_trans with b; assumption.
      * intros k Hk. apply Qle_lt_trans with b; [ | exact E ].
        apply Hmax. lia.
  - apply Qltb_ge in E.
    eexists. split; [ reflexivity | ].
    unfold span_inv. split; [ lia | ]. split; [ exact Hrange | ].
    split.
    + intros k Hk.
      assert (Hc : (k < j \/ k = j)%Z) by lia.
      destruct Hc as [Hc | ->].
      * apply Hmax. lia.
      * apply Qle_trans with a; [ | exact E ].
        apply Hle. apply in_or_app. right. left. reflexivity.
    + destruct Hidx as [Hidx | (Hi & Hb & Hpos & Hfirst)].
      * left. exact Hidx.
      * right. split; [ lia | ]. split; [ exact Hb | ].
        split; [ exact Hpos | exact Hfirst ].
Qed.

Lemma py_round3_close (x : Q) :
  - (1 # 2000) <= py_round3 x - x /\ py_round3 x - x <= 1 # 2000.
Proof.
  unfold py_round3.
  pose proof (Qfloor_le (x * 1000)) as Hlo.
  pose proof (Qlt_floor (x * 1000)) as Hhi.
  set (f := Qfloor (x * 1000)) in *.
  assert (Hf1 : inject_Z (f + 1) == inject_Z f + 1).
  { rewrite inject_Z_plus. reflexivity. }
  rewrite Hf1 in Hhi.
  assert (Hd : forall z : Q, z / 1000 == z * (1 # 1000))
    by (intros z; field).
  destruct (Qltb (x * 1000 - inject_Z f) (1 # 2)) eqn:E1.
  - apply Qltb_lt in E1.
    rewrite Hd. split; lra.
  - apply Qltb_ge in E1.
    assert (Hup : - (1 # 2000) <= inject_Z (f + 1) / 1000 - x /\
                  inject_Z (f + 1) / 1000 - x <= 1 # 2000).
    { rewrite Hd, Hf1. split; lra. }
    destruct (Qltb (1 # 2) (x * 1000 - inject_Z f)) eqn:E2; [ exact Hup | ].
    apply Qltb_ge in E2.
    destruct (Z.even f); [ | exact Hup ].
    rewrite Hd. split; lra.
Qed.

Lemma geom_eval_counts_witness :
  exists awg,
    geom_count three_wings_tigl 3 fresh_counts = Ok awg /\
    c_wing_nb awg = (3 + count_sym (c_wing_sym awg))%Z /\
    py_index (c_is_horiz awg) (3 - 1 + mirrored_before three_wings_tigl 3)
    = Ok (wing_is_horiz three_wings_tigl 3).
Proof.
  destruct (geom_eval_counts three_wings_tigl 3 fresh_counts
              eq_refl eq_refl eq_refl eq_refl eq_refl)
    as (awg & Hrun & _ & Hnb & _ & _ & Hh).
  exists awg. split; [ exact Hrun | ]. split; [ exact Hnb | ].
  apply (Hh 3%Z). lia.
Defined.

(** X22. The scan of lines 312-317 over a fresh [wing_span] never raises.
    When no rounded span is positive, [main_wing_index] keeps the value it
    had; otherwise it is the first wing whose span, rounded to three
    decimals, is the largest, so the span of the chosen wing is within
    1/1000 of every other span. *)
Theorem main_wing_is_first_widest (tigl : TiglWings) (w_nb idx0 : Z) :
  exists wing_span b idx,
    main_wing_scan tigl w_nb [] idx0 = Ok (wing_span, b, idx) /\
    wing_span = map (rounded_span tigl) (py_range 1 (w_nb + 1)) /\
    ((forall k, (1 <= k <= w_nb)%Z -> rounded_span tigl k <= 0) ->
     idx = idx0) /\
    ((exists k, (1 <= k <= w_nb)%Z /\ 0 < rounded_span tigl k) ->
     (1 <= idx <= w_nb)%Z /\
     (forall k, (1 <= k <= w_nb)%Z ->
        rounded_span tigl k <= rounded_span tigl idx) /\
     (forall k, (1 <= k < idx)%Z ->
        rounded_span tigl k < rounded_span tigl idx) /\
     (forall k, (1 <= k <= w_nb)%Z ->
        wingGetSpan tigl k <= wingGetSpan tigl idx + (1 # 1000))).
Proof.
  unfold main_wing_scan.
  destruct (Z_lt_le_dec w_nb 0) as [Hneg | Hpos].
  - rewrite !py_range_nil by lia. exists [], 0, idx0.
    split; [ reflexivity | ]. split; [ reflexivity | ].
    split; [ reflexivity | ]. intros [k [Hk _]]. lia.
  - destruct (for_each_range_run (span_inv tigl idx0) (span_step tigl)
                (w_nb + 1)
                (fun j s _ Hs => span_step_inv tigl idx0 j s Hs)
                (Z.to_nat (w_nb + 1 - 1)) 1%Z ([], 0, idx0))
      as [[[wing_span b] idx] [Hrun Hinv]]; [ reflexivity | lia | | ].
    + unfold span_inv. split; [ lia | ].
      rewrite py_range_nil by lia. split; [ reflexivity | ].
      split; [ intros k Hk; lia | left; split; reflexivity ].
    + exists wing_span, b, idx. split; [ exact Hrun | ].
      destruct Hinv as (_ & Hspan & Hmax & Hidx).
      split; [ exact Hspan | ].
      split.
      * intros Hall. destruct Hidx as [[-> _] | (Hi & -> & Hp & _)];
          [ reflexivity | ].
        exfalso. apply (Qlt_not_le _ _ Hp). apply Hall. lia.
      * intros [k [Hk Hkpos]].
        destruct Hidx as [[_ ->] | (Hi & -> & Hp & Hfirst)].
        -- exfalso. apply (Qlt_not_le _ _ Hkpos). apply Hmax. lia.
        -- split; [ lia | ].
           assert (Hall : forall k', (1 <= k' <= w_nb)%Z ->
                     rounded_span tigl k' <= rounded_span tigl idx)
             by (intros k' Hk'; apply Hmax; lia).
           split; [ exact Hall | ]. split; [ exact Hfirst | ].
           intros k' Hk'. specialize (Hall k' Hk').
           unfold rounded_span in Hall.
           pose proof (py_round3_close (wingGetSpan tigl k')) as [H1 _].
           pose proof (py_round3_close (wingGetSpan tigl idx)) as [_ H2].
           lra.
Qed.






Lemma surface_step_inv (tigl : TiglWings) (wing_sym : list Z)
  (main : Z) (m0 t0 : Q) (j : Z) (st : Q * list Q * Q) :
  (j <= Z.of_nat (length wing_sym))%Z ->
  surface_inv tigl wing_sym main m0 t0 j st ->
  exists st', surface_step tigl wing_sym main j st = Ok st' /\
              surface_inv tigl wing_sym main m0 t0 (j + 1) st'.
Proof.
  destruct st as [[m tails] total]. intros Hlen (Hj & Hcase).
  unfold surface_step.
  destruct (py_index_Ok_nth wing_sym (j - 1)) as [sym [Hsym _]]; [ lia | ].
  assert (Hw : exists s, wetted_area tigl wing_sym j = Ok s).
  { unfold wetted_area. rewrite Hsym. cbn [bind]. eexists. reflexivity. }
  destruct Hw as [s Hs]. rewrite Hs. cbn [bind].
  destruct (j =? main)%Z eqn:E.
  - apply Z.eqb_eq in E. subst main.
    eexists. split; [ reflexivity | ].
    split; [ lia | ]. left.
    destruct Hcase as [(Hm & _) | (_ & _ & Htot & Hl)]; [ lia | ].
    split; [ lia | ]. split; [ exact Hs | ].
    split; [ rewrite Htot; ring | lia ].
  - apply Z.eqb_neq in E.
    eexists. split; [ reflexivity | ].
    split; [ lia | ].
    destruct Hcase as [(Hm & Hw & Htot & Hl) | (Hm & Hw & Htot & Hl)].
    + left. split; [ lia | ]. split; [ exact Hw | ].
      rewrite length_app. cbn [length].
      split; [ rewrite np_sum_snoc, Htot; ring | lia ].
    + right. split; [ lia | ]. split; [ exact Hw | ].
      rewrite length_app. cbn [length].
      split; [ rewrite np_sum_snoc, Htot; ring | lia ].
Qed.

(** X23. With a symmetry code for each of the [w_nb] wings, the wetted
    area loop never raises.  When [main_wing_index] is one of the wings,
    [main_wing_surface] is its (doubled if mirrored) area, the other
    [w_nb - 1] areas are appended to [tail_wings_surface] and the total
    grows by the main area plus the tail areas; otherwise
    [main_wing_surface] is left as it was and all [w_nb] wings are tail
    wings. *)
Theorem wetted_areas_split (tigl : TiglWings) (w_nb : Z) (wing_sym : list Z)
  (main : Z) (m0 t0 : Q) :
  (0 <= w_nb <= Z.of_nat (length wing_sym))%Z ->
  exists m tails total,
    wetted_areas tigl w_nb wing_sym main (m0, [], t0)
      = Ok (m, tails, total) /\
    ((1 <= main <= w_nb)%Z ->
       wetted_area tigl wing_sym main = Ok m /\
       total == t0 + m + np_sum tails /\
       Z.of_nat (length tails) = (w_nb - 1)%Z) /\
    (~ (1 <= main <= w_nb)%Z ->
       m = m0 /\ total == t0 + np_sum tails /\
       Z.of_nat (length tails) = w_nb).
Proof.
  intros Hw. unfold wetted_areas.
  destruct (for_each_range_run
              (fun j st => (j <= w_nb + 1)%Z /\
                           surface_inv tigl wing_sym main m0 t0 j st)
              (surface_step tigl wing_sym main) (w_nb + 1))
    with (n := Z.to_nat (w_nb + 1 - 1)) (lo := 1%Z) (s := (m0, @nil Q, t0))
    as [[[m tails] total] [Hrun [_ Hinv]]].
  - intros j st Hlt [_ Hinv].
    destruct (surface_step_inv tigl wing_sym main m0 t0 j st)
      as [st' [Hst' Hinv']]; [ lia | exact Hinv | ].
    exists st'. split; [ exact Hst' | ]. split; [ lia | exact Hinv' ].
  - reflexivity.
  - lia.
  - split; [ lia | ]. split; [ lia | ]. right.
    split; [ lia | ]. split; [ reflexivity | ].
    split; [ unfold np_sum; simpl; ring | simpl; lia ].
  - exists m, tails, total. split; [ exact Hrun | ].
    destruct Hinv as (_ & Hcase).
    destruct Hcase as [(Hm & Hwa & Htot & Hl) | (Hm & Hwa & Htot & Hl)].
    + split.
      * intros _. split; [ exact Hwa | ]. split; [ exact Htot | lia ].
      * intros Hn. exfalso. apply Hn. lia.
    + split.
      * intros Hin. exfalso. apply Hm. lia.
      * intros _. split; [ exact Hwa | ]. split; [ exact Htot | lia ].
Qed.

Lemma wetted_areas_split_witness :
  exists m tails total,
    wetted_areas three_wings_tigl 3 [0%Z; 2%Z; 0%Z] 2 (0, [], 0)
      = Ok (m, tails, total) /\
    wetted_area three_wings_tigl [0%Z; 2%Z; 0%Z] 2 = Ok m /\
    total == 0 + m + np_sum tails.
Proof.
  destruct (wetted_areas_split three_wings_tigl 3 [0%Z; 2%Z; 0%Z] 2 0 0)
    as (m & tails & total & Hrun & Hin & _); [ simpl; lia | ].
  exists m, tails, total. split; [ exact Hrun | ].
  destruct Hin as (Hm & Htot & _); [ lia | ].
  split; [ exact Hm | exact Htot ].
Defined.

Lemma centre_rows (seg_sec : list (list seg_row)) (wcsecp : list (list point))
  (i a n : Z) (W W1 : list (list point)) :
  (0 <= i - 1)%Z ->
  (forall jj row, (1 <= jj <= n)%Z ->
     at_rc seg_sec (jj - 1) (i - a - 1) = Ok row -> (1 <= seg_id row)%Z) ->
  for_each (py_range 1 (n + 1)) (centre_step seg_sec wcsecp i a) W = Ok W1 ->
  (forall jj, (1 <= jj <= n)%Z ->
     exists row p1 p2,
       at_rc seg_sec (jj - 1) (i - a - 1) = Ok row /\
       at_rc wcsecp (seg_id row - 1) (i - a - 1) = Ok p1 /\
       at_rc wcsecp (seg_id row) (i - a - 1) = Ok p2 /\
       at_rc W1 (seg_id row - 1) (i - 1) = Ok (midpoint p1 p2)) /\
  (forall c', (0 <= c')%Z -> c' <> (i - 1)%Z ->
     py_index W1 c' = py_index W c').
Proof.
  intros Hc Hids H.
  destruct (Z.le_gt_cases 1 (n + 1)) as [Hn | Hn].
  - pose (P := fun (hi : Z) (W' : list (list point)) =>
      (1 <= hi)%Z /\
      (forall jj, (1 <= jj < hi)%Z ->
         exists row p1 p2,
           at_rc seg_sec (jj - 1) (i - a - 1) = Ok row /\
           at_rc wcsecp (seg_id row - 1) (i - a - 1) = Ok p1 /\
           at_rc wcsecp (seg_id row) (i - a - 1) = Ok p2 /\
           at_rc W' (seg_id row - 1) (i - 1) = Ok (midpoint p1 p2)) /\
      (forall c', (0 <= c')%Z -> c' <> (i - 1)%Z ->
         py_index W' c' = py_index W c')).
    assert (HP : P (n + 1)%Z W1).
    { apply (for_each_range_invariant P (centre_step seg_sec wcsecp i a)
               (n + 1))
        with (n := Z.to_nat (n + 1 - 1)) (lo := 1%Z) (s := W);
        [ | reflexivity | exact Hn | | exact H ].
      - intros hi W' W'' Hhi [H1 [Hrows Hcols]] Hstep.
        unfold centre_step in Hstep.
        bind_inv Hstep as row Hrow.
        bind_inv Hstep as p1 Hp1. bind_inv Hstep as p2 Hp2.
        assert (Hid : (1 <= seg_id row)%Z)
          by (apply (Hids hi row); [ lia | exact Hrow ]).
        split; [ lia | ]. split.
        + intros jj Hjj. destruct (Z.eq_dec jj hi) as [-> | Hne].
          * exists row, p1, p2. split; [ exact Hrow | ].
            split; [ exact Hp1 | ]. split; [ exact Hp2 | ].
            eapply set_rc_get. exact Hstep.
          * destruct (Hrows jj) as [row' [q1 [q2 [Hr' [Hq1 [Hq2 Hq]]]]]];
              [ lia | ].
            assert (Hid' : (1 <= seg_id row')%Z)
              by (apply (Hids jj row'); [ lia | exact Hr' ]).
            exists row', q1, q2. split; [ exact Hr' | ].
            split; [ exact Hq1 | ]. split; [ exact Hq2 | ].
            destruct (Z.eq_dec (seg_id row') (seg_id row)) as [E | E].
            -- rewrite E in *.
               rewrite Hp1 in Hq1. injection Hq1 as <-.
               rewrite Hp2 in Hq2. injection Hq2 as <-.
               eapply set_rc_get. exact Hstep.
            -- assert (Hr : (0 <= seg_id row - 1)%Z) by lia.
               assert (Hr2 : (0 <= seg_id row' - 1)%Z) by lia.
               assert (Hrr : (seg_id row' - 1)%Z <> (seg_id row - 1)%Z)
                 by lia.
               rewrite (set_rc_other_row _ _ _ _ _ _ Hr Hr2 Hrr Hstep).
               exact Hq.
        + intros c' Hc' Hne.
          rewrite (set_rc_other_col _ _ _ _ _ _ Hc Hc' Hne Hstep).
          apply Hcols; assumption.
      - split; [ lia | ]. split; [ intros j Hj; lia | ].
        intros c' _ _. reflexivity. }
    destruct HP as [_ [Hrows Hcols]]. split; [ | exact Hcols ].
    intros j Hj. apply Hrows. lia.
  - rewrite py_range_nil in H by lia. injection H as <-.
    split; [ intros j Hj; lia | intros c' _ _; reflexivity ].
Qed.

Lemma wing_column_step (awg : AircraftWingGeometry) (i1 i2 : Z) :
  (1 <= i1 <= i2)%Z ->
  (wing_column awg i1 + (i2 - i1) <= wing_column awg i2)%Z.
Proof.
  intros H. unfold wing_column.
  assert (Hc : (count_sym (firstn (Z.to_nat (i1 - 1)) (wing_sym awg))
                <= count_sym (firstn (Z.to_nat (i2 - 1)) (wing_sym awg)))%Z).
  { rewrite <- (firstn_skipn (Z.to_nat (i1 - 1))
                             (firstn (Z.to_nat (i2 - 1)) (wing_sym awg))).
    rewrite firstn_firstn, count_sym_app.
    replace (Nat.min (Z.to_nat (i1 - 1)) (Z.to_nat (i2 - 1)))
      with (Z.to_nat (i1 - 1)) by lia.
    pose proof (count_sym_nonneg
                  (skipn (Z.to_nat (i1 - 1))
                         (firstn (Z.to_nat (i2 - 1)) (wing_sym awg)))).
    lia. }
  lia.
Qed.

Lemma wing_centres_ok_frame (awg : AircraftWingGeometry)
  (seg_sec : list (list seg_row)) (wcsecp W W' : list (list point))
  (w w' : Z) :
  (1 <= w' < w)%Z ->
  (forall c', (0 <= c' < wing_column awg w)%Z ->
              py_index W' c' = py_index W c') ->
  wing_centres_ok awg seg_sec wcsecp W w' ->
  wing_centres_ok awg seg_sec wcsecp W' w'.
Proof.
  intros Hw Hframe Hok n sym Hn Hsym.
  destruct (Hok n sym Hn Hsym) as [Hrows Hcopy].
  pose proof (wing_column_succ awg w' sym ltac:(lia) Hsym) as Hsucc.
  pose proof (wing_column_mono awg (w' + 1) w ltac:(lia)) as Hmono.
  pose proof (wing_column_nonneg awg w' ltac:(lia)) as Hnn.
  split.
  - intros jj Hjj.
    destruct (Hrows jj Hjj) as [row [p1 [p2 [H0 [H1 [H2 H3]]]]]].
    exists row, p1, p2. split; [ exact H0 | ].
    split; [ exact H1 | ]. split; [ exact H2 | ].
    rewrite (at_rc_same_col W W'); [ exact H3 | ].
    apply Hframe. destruct (sym =? 0)%Z; lia.
  - intros Hs. destruct (Hcopy Hs) as [col [col' [H1 [H2 H3]]]].
    exists col, col'.
    replace (sym =? 0)%Z with false in Hsucc
      by (symmetry; apply Z.eqb_neq; lia).
    rewrite !Hframe by lia. split; [ exact H1 | ]. split; assumption.
Qed.

Lemma centre_wing_step (awg : AircraftWingGeometry)
  (seg_sec : list (list seg_row)) (wcsecp : list (list point)) (i : Z)
  (st st' : list (list point) * Z * bool * option point) :
  seg_ids_positive awg seg_sec ->
  centre_inv awg seg_sec wcsecp i st ->
  centre_wing awg seg_sec wcsecp i st = Ok st' ->
  centre_inv awg seg_sec wcsecp (i + 1) st'.
Proof.
  intros Hids Hinv H.
  destruct st as [[[W a] c] signs].
  destruct Hinv as (k & Hk & Ha & Hi & Hall).
  unfold centre_wing in H. destruct c.
  - injection H as <-. exists k. split; [ exact Hk | ].
    split; [ exact Ha | ]. split; [ lia | exact Hall ].
  - bind_inv H as n Hn. bind_inv H as W1 Hrows. bind_inv H as sym Hsym.
    assert (E1 : (i - a - 1)%Z = (k + 1 - 1)%Z) by lia.
    assert (E2 : (i - 1 - a)%Z = (k + 1 - 1)%Z) by lia.
    assert (E3 : (i - 1)%Z = wing_column awg (k + 1)) by lia.
    rewrite E1 in Hn. rewrite E2 in Hsym.
    pose proof (wing_column_nonneg awg (k + 1) ltac:(lia)) as Hnn.
    apply centre_rows in Hrows; [ | lia | ].
    2:{ intros jj row Hjj Hrow. rewrite E1 in Hrow.
        exact (Hids (k + 1)%Z n jj row ltac:(lia) Hn Hjj Hrow). }
    destruct Hrows as [Hrows Hcols].
    rewrite E1, E3 in Hrows. rewrite E3 in Hcols.
    pose proof (wing_column_succ awg (k + 1) sym ltac:(lia) Hsym) as Hsucc.
    destruct (sym =? 0)%Z eqn:Esym.
    + injection H as <-. exists (k + 1)%Z. split; [ lia | ].
      split; [ lia | ]. split; [ lia | ].
      intros w Hw. destruct (Z.eq_dec w (k + 1)) as [-> | Hne].
      * intros n0 sym0 Hn0 Hsym0.
        rewrite Hn in Hn0. injection Hn0 as <-.
        rewrite Hsym in Hsym0. injection Hsym0 as <-.
        split; [ exact Hrows | ].
        apply Z.eqb_eq in Esym. intros Hs. lia.
      * apply (wing_centres_ok_frame awg seg_sec wcsecp W W1 (k + 1) w);
          [ lia | | apply Hall; lia ].
        intros c' Hc'. apply Hcols; lia.
    + bind_inv H as [W2 signs'] Hmir. injection H as <-.
      exists (k + 1)%Z. split; [ lia | ]. split; [ lia | ].
      split; [ lia | ].
      unfold geom_mirror in Hmir. rewrite Esym in Hmir.
      destruct (geom_sym_signs sym signs) as [sg |] eqn:Esg;
        [ | discriminate ].
      bind_inv Hmir as col Hcol. bind_inv Hmir as W2' Hset.
      injection Hmir as <- _.
      rewrite E3 in Hcol.
      replace i with (wing_column awg (k + 1) + 1)%Z in Hset by lia.
      assert (Hframe2 : forall c', (0 <= c')%Z ->
                                   c' <> (wing_column awg (k + 1) + 1)%Z ->
                                   py_index W2' c' = py_index W1 c').
      { intros c' H0 H1.
        apply (py_index_set_other W1 (wing_column awg (k + 1) + 1) c'
                 (mirror_points sg col) W2');
          [ lia | exact H0 | exact H1 | exact Hset ]. }
      intros w Hw. destruct (Z.eq_dec w (k + 1)) as [-> | Hne].
      * intros n0 sym0 Hn0 Hsym0.
        rewrite Hn in Hn0. injection Hn0 as <-.
        rewrite Hsym in Hsym0. injection Hsym0 as <-.
        split.
        -- intros jj Hjj.
           destruct (Hrows jj Hjj) as [row [p1 [p2 [H0 [H1 [H2 H3]]]]]].
           exists row, p1, p2. split; [ exact H0 | ].
           split; [ exact H1 | ]. split; [ exact H2 | ].
           rewrite (at_rc_same_col W1 W2'); [ exact H3 | ].
           apply Hframe2; lia.
        -- intros Hs. exists col, (mirror_points sg col). split.
           ++ rewrite Hframe2 by lia. exact Hcol.
           ++ split; [ eapply list_set_get; exact Hset | ].
              destruct (geom_sym_signs_plane sym signs Hs)
                as [sg' [Hsg' Hflip]].
              rewrite Esg in Hsg'. injection Hsg' as <-.
              apply mirror_points_flip. exact Hflip.
      * apply (wing_centres_ok_frame awg seg_sec wcsecp W W2' (k + 1) w);
          [ lia | | apply Hall; lia ].
        intros c' Hc'. rewrite Hframe2 by lia. apply Hcols; lia.
Qed.

(** X24. When the loop of lines 339-376 returns, the segment ids it reads
    being 1 or more and [wing_nb] counting the mirrored wings, wing [w]
    stands in column [w - 1] plus the number of mirrored wings before it:
    for each of its segments, of id [j], row [j - 1] of that column is the
    midpoint of section centres [j - 1] and [j] of the wing; and for a
    symmetry code 1, 2 or 3 the next column holds the same points
    mirrored in that plane. *)
Theorem centre_points_entries (awg : AircraftWingGeometry)
  (seg_sec : list (list seg_row)) (wcsecp wcsp0 W : list (list point))
  (w n sym : Z) :
  centre_points awg seg_sec wcsecp wcsp0 = Ok W ->
  seg_ids_positive awg seg_sec ->
  (wing_column awg (w_nb awg + 1) <= wing_nb awg)%Z ->
  (1 <= w <= w_nb awg)%Z ->
  py_index (wing_seg_nb awg) (w - 1) = Ok n ->
  py_index (wing_sym awg) (w - 1) = Ok sym ->
  (forall jj, (1 <= jj <= n)%Z ->
     exists row p1 p2,
       at_rc seg_sec (jj - 1) (w - 1) = Ok row /\
       at_rc wcsecp (seg_id row - 1) (w - 1) = Ok p1 /\
       at_rc wcsecp (seg_id row) (w - 1) = Ok p2 /\
       at_rc W (seg_id row - 1) (wing_column awg w)
         = Ok (midpoint p1 p2)) /\
  ((sym = 1 \/ sym = 2 \/ sym = 3)%Z ->
     exists col col',
       py_index W (wing_column awg w) = Ok col /\
       py_index W (wing_column awg w + 1) = Ok col' /\
       Forall2 (plane_flip sym) col col').
Proof.
  intros H Hids Hnb Hw Hn Hsym. unfold centre_points in H.
  bind_inv H as [[[W' a] c] signs] Hloop. injection H as <-.
  pose proof (wing_column_nonneg awg (w_nb awg + 1) ltac:(lia)) as Hnn.
  assert (HP : centre_inv awg seg_sec wcsecp (wing_nb awg + 1)
                 (W', a, c, signs)).
  { apply (for_each_range_invariant (centre_inv awg seg_sec wcsecp)
             (centre_wing awg seg_sec wcsecp) (wing_nb awg + 1))
      with (n := Z.to_nat (wing_nb awg + 1 - 1)) (lo := 1%Z)
           (s := (wcsp0, 0%Z, false, None));
      [ | reflexivity | lia | | exact Hloop ].
    - intros j s s' _ Hs Hstep.
      exact (centre_wing_step awg seg_sec wcsecp j s s' Hids Hs Hstep).
    - exists 0%Z. split; [ lia | ].
      unfold wing_column. simpl. unfold count_sym. simpl.
      split; [ reflexivity | ]. split; [ reflexivity | ].
      intros w' Hw'. lia. }
  destruct HP as (k & Hk & _ & Hi & Hall).
  apply (Hall w); [ | exact Hn | exact Hsym ].
  destruct (Z_lt_le_dec k (w_nb awg)) as [Hlt | Hge]; [ exfalso | lia ].
  pose proof (wing_column_step awg (k + 1) (w_nb awg + 1) ltac:(lia)).
  destruct c; lia.
Qed.

Lemma three_wings_ids_positive :
  seg_ids_positive three_wings_awg three_wings_seg_sec.
Proof.
  intros w n jj row Hw Hn Hjj Hrow.
  destruct (Z_lt_le_dec 3 w) as [Hbig | Hsmall].
  - rewrite py_index_out in Hn by (simpl; lia). discriminate Hn.
  - assert (Hc : (w = 1 \/ w = 2 \/ w = 3)%Z) by lia.
    destruct Hc as [-> | [-> | ->]]; vm_compute in Hn; injection Hn as <-.
    + assert (jj = 1%Z) by lia. subst jj.
      vm_compute in Hrow. injection Hrow as <-. simpl. lia.
    + assert (Hj : (jj = 1 \/ jj = 2)%Z) by lia.
      destruct Hj as [-> | ->]; vm_compute in Hrow; injection Hrow as <-;
        simpl; lia.
    + assert (jj = 1%Z) by lia. subst jj.
      vm_compute in Hrow. injection Hrow as <-. simpl. lia.
Qed.

Lemma centre_points_entries_witness :
  exists W col col',
    centre_points three_wings_awg three_wings_seg_sec three_wings_centres
      three_wings_zero = Ok W /\
    at_rc W (2 - 1) (wing_column three_wings_awg 2)
    = Ok (midpoint (0, 3, 4) (0, 3, 16)) /\
    py_index W (wing_column three_wings_awg 2) = Ok col /\
    py_index W (wing_column three_wings_awg 2 + 1) = Ok col' /\
    Forall2 (plane_flip 2) col col'.
Proof.
  destruct (centre_points three_wings_awg three_wings_seg_sec
              three_wings_centres three_wings_zero) as [W | e] eqn:E;
    [ | vm_compute in E; discriminate E ].
  destruct (centre_points_entries three_wings_awg three_wings_seg_sec
              three_wings_centres three_wings_zero W 2 2 2 E
              three_wings_ids_positive ltac:(vm_compute; discriminate)
              ltac:(simpl; lia) eq_refl eq_refl) as [Hrows Hmir].
  destruct (Hmir ltac:(lia)) as [col [col' [H1 [H2 H3]]]].
  destruct (Hrows 1%Z ltac:(lia)) as [row [p1 [p2 [Hr [Hp1 [Hp2 Hmid]]]]]].
  exists W, col, col'. split; [ reflexivity | ].
  split; [ | split; [ exact H1 | split; [ exact H2 | exact H3 ] ] ].
  vm_compute in Hr. injection Hr as <-.
  vm_compute in Hp1, Hp2. injection Hp1 as <-. injection Hp2 as <-.
  exact Hmid.
Defined.

Lemma missing_fold {V : Type} (checkElement : str -> bool)
  (entries : list (Entry V)) (acc : list str) :
  fold_left (missing_step checkElement) entries acc
  = acc ++ missing_inputs checkElement entries.
Proof.
  revert acc. induction entries as [| e entries IH]; intros acc.
  - simpl. rewrite app_nil_r. reflexivity.
  - cbn [fold_left]. rewrite IH. unfold missing_inputs, missing_step.
    cbn [filter]. destruct (default_value e) as [v |].
    + reflexivity.
    + destruct (checkElement (cpacs_path e)); cbn [negb map].
      * reflexivity.
      * rewrite <- app_assoc. reflexivity.
Qed.

Lemma missing_line_fold (paths : list str) (acc : str) :
  fold_left missing_line paths acc
  = acc ++ concat (map (fun p => str_of "==> "%string ++ p ++ newline) paths).
Proof.
  revert acc. induction paths as [| p paths IH]; intros acc.
  - simpl. rewrite app_nil_r. reflexivity.
  - cbn [fold_left map concat]. rewrite IH. unfold missing_line.
    rewrite <- !app_assoc. reflexivity.
Qed.

Lemma missing_inputs_nil {V : Type} (checkElement : str -> bool)
  (entries : list (Entry V)) :
  missing_inputs checkElement entries = [] <->
  forall e, In e entries -> default_value e = None ->
            checkElement (cpacs_path e) = true.
Proof.
  unfold missing_inputs. induction entries as [| e entries IH].
  - simpl. split; [ intros _ e [] | reflexivity ].
  - cbn [filter]. split.
    + intros H e' [<- | Hin] Hd.
      * rewrite Hd in H.
        destruct (checkElement (cpacs_path e)); [ reflexivity | ].
        discriminate H.
      * apply IH; [ | exact Hin | exact Hd ].
        destruct (default_value e);
          [ exact H | destruct (checkElement (cpacs_path e)) ];
          [ exact H | discriminate H ].
    + intros H.
      assert (Hrest : map cpacs_path
                (filter (fun e0 => match default_value e0 with
                                   | Some _ => false
                                   | None => negb (checkElement (cpacs_path e0))
                                   end) entries) = []).
      { apply IH. intros e' Hin. apply H. right. exact Hin. }
      destruct (default_value e) eqn:Ed; [ exact Hrest | ].
      rewrite (H e (or_introl eq_refl) Ed). exact Hrest.
Qed.

(** X25. [check_cpacs_input_requirements] returns exactly when every
    input without a default value has its CPACS path in the file; the
    inputs with a default value are never looked up.  Otherwise it raises
    [CPACSRequirementError] and the message is the header line followed by
    one line "==> path" for each missing path, in the order of the
    inputs. *)
Theorem check_cpacs_input_requirements_missing {V : Type}
  (checkElement : str -> bool) (cpacs_inout : CPACSInOut V) :
  (check_cpacs_input_requirements checkElement cpacs_inout = Returns tt <->
   forall e, In e (inputs cpacs_inout) -> default_value e = None ->
             checkElement (cpacs_path e) = true) /\
  (missing_inputs checkElement (inputs cpacs_inout) <> [] ->
   check_cpacs_input_requirements checkElement cpacs_inout
   = Raises (CPACSRequirementError
               (requirement_message
                  (missing_inputs checkElement (inputs cpacs_inout))))).
Proof.
  unfold check_cpacs_input_requirements.
  rewrite missing_fold. cbn [app].
  rewrite <- missing_inputs_nil.
  destruct (missing_inputs checkElement (inputs cpacs_inout))
    as [| p paths] eqn:E.
  - split; [ split; reflexivity | ]. intros H. contradiction.
  - split.
    + split; intros H; discriminate H.
    + intros _. rewrite missing_line_fold. cbn [app].
      unfold requirement_message. reflexivity.
Qed.

(** X26. In an object built from [CPACSInOut()] by calls of [add_input]
    and [add_output], no output has a default value.  [add_output] accepts
    a call exactly when the keyword [default_value] is given and is
    [None] and every keyword of the call is one of [_Entry.__init__];
    without [default_value] it raises [KeyError], with a [default_value]
    that is not [None] the [ValueError] of line 76, and otherwise, with a
    keyword that [_Entry.__init__] does not have, [TypeError]. *)
Theorem outputs_have_no_default {V : Type} (io : CPACSInOut V) :
  built io ->
  Forall (fun e => default_value e = None) (outputs io) /\
  forall kw,
    ((exists io', add_output kw io = Returns io') <->
     kw_default_value kw = Some None /\ kw_other kw = []) /\
    (kw_default_value kw = None ->
     add_output kw io = Raises (KeyError (str_of "default_value"%string))) /\
    (forall v, kw_default_value kw = Some (Some v) ->
     add_output kw io = Raises OutputDefaultValueError) /\
    (forall key rest,
       kw_default_value kw = Some None -> kw_other kw = key :: rest ->
       add_output kw io = Raises (TypeError key)).
Proof.
  intros Hb. split.
  - induction Hb as [| kw io io' Hb IH Hadd | kw io io' Hb IH Hadd].
    + constructor.
    + unfold add_input in Hadd.
      destruct (new_entry kw) as [entry | e]; [ | discriminate Hadd ].
      injection Hadd as <-. exact IH.
    + unfold add_output in Hadd.
      destruct (kw_default_value kw) as [[v |] |] eqn:Ek;
        try discriminate Hadd.
      unfold new_entry in Hadd.
      destruct (kw_other kw) as [| key rest]; [ | discriminate Hadd ].
      injection Hadd as <-. cbn [outputs].
      apply Forall_app. split; [ exact IH | ].
      constructor; [ | constructor ].
      cbn [default_value]. rewrite Ek. reflexivity.
  - intros kw. unfold add_output, new_entry.
    destruct (kw_default_value kw) as [[v |] |];
      destruct (kw_other kw) as [| key rest];
      (split; [ split | split; [ | split ] ]);
      try (intros [io' H]; discriminate H);
      try (intros [H1 H2]; discriminate);
      try (intros H; discriminate H);
      try (intros v' H; discriminate H);
      try (intros k r H1 H2; discriminate);
      try reflexivity;
      try (intros _; split; reflexivity);
      try (intros _; eexists; reflexivity);
      try (intros k r _ H2; injection H2 as <- _; reflexivity).
Qed.

Lemma outputs_have_no_default_witness :
  exists io : CPACSInOut Z,
    add_output (mkKwargs None (Some None) None None None [])
      (mkCPACSInOut
         [mkEntry [] (Some 3%Z) (str_of "1"%string) [] []] [])
    = Returns io /\
    Forall (fun e => default_value e = None) (outputs io) /\
    add_output (mkKwargs None (Some None) None None None [[102%Z]]) io
    = Raises (TypeError [102%Z]).
Proof.
  eexists. split; [ reflexivity | ].
  match goal with
  | |- Forall _ (outputs ?io) /\ _ =>
      destruct (outputs_have_no_default io) as [Hall Hcalls]
  end.
  - apply (built_add_output (mkKwargs None (Some None) None None None [])
             (mkCPACSInOut
                [mkEntry [] (Some 3%Z) (str_of "1"%string) [] []] []));
      [ | reflexivity ].
    apply (built_add_input
             (mkKwargs None (Some (Some 3%Z)) None None None [])
             (mkCPACSInOut [] []));
      [ apply built_init | reflexivity ].
  - split; [ exact Hall | ].
    destruct (Hcalls (mkKwargs None (Some None) None None None [[102%Z]]))
      as (_ & _ & _ & Htype).
    apply (Htype [102%Z] []); reflexivity.
Defined.

(** *** [wrap_in_brackets] *)

Lemma cut_leading_spec (c : Z) (s : str) :
  exists k, s = repeat c k ++ cut_leading c s /\
            hd_error (cut_leading c s) <> Some c.
Proof.
  induction s as [| x t IH].
  - exists 0%nat. split; [ reflexivity | discriminate ].
  - cbn [cut_leading]. destruct (x =? c)%Z eqn:E.
    + apply Z.eqb_eq in E. subst x. destruct IH as [k [Hk Hh]].
      exists (S k). split; [ cbn [repeat app]; f_equal; exact Hk | exact Hh ].
    + exists 0%nat. split; [ reflexivity | ].
      cbn [hd_error]. intros H. injection H as ->.
      rewrite Z.eqb_refl in E. discriminate E.
Qed.

Lemma cut_leading_keep (c : Z) (s : str) :
  hd_error s <> Some c -> cut_leading c s = s.
Proof.
  destruct s as [| x t]; [ reflexivity | ].
  cbn [hd_error cut_leading]. intros H.
  destruct (x =? c)%Z eqn:E; [ | reflexivity ].
  apply Z.eqb_eq in E. subst x. contradiction H. reflexivity.
Qed.

Lemma endswith_char_snoc (c x : Z) (s : str) :
  endswith_char c (s ++ [x]) = (x =? c)%Z.
Proof. unfold endswith_char. rewrite rev_app_distr. reflexivity. Qed.

Lemma endswith_char_true (c : Z) (s : str) :
  endswith_char c s = true -> exists s', s = s' ++ [c].
Proof.
  unfold endswith_char. intros H.
  destruct (rev s) as [| x r] eqn:E; [ discriminate H | ].
  apply Z.eqb_eq in H. subst x. exists (rev r).
  rewrite <- (rev_involutive s), E. reflexivity.
Qed.

Lemma cut_trailing_loop_spec (c : Z) (fuel : nat) (s : str) :
  (length s <= fuel)%nat ->
  exists m, s = cut_trailing_loop fuel c s ++ repeat c m /\
            endswith_char c (cut_trailing_loop fuel c s) = false.
Proof.
  revert s. induction fuel as [| f IH]; intros s Hlen.
  - destruct s; [ | simpl in Hlen; lia ].
    exists 0%nat. split; reflexivity.
  - cbn [cut_trailing_loop]. destruct (endswith_char c s) eqn:E.
    + destruct (endswith_char_true c s E) as [s' ->].
      rewrite removelast_last.
      rewrite length_app in Hlen. cbn [length] in Hlen.
      destruct (IH s') as [m [Hm He]]; [ lia | ].
      exists (S m). split; [ | exact He ].
      change (repeat c (S m)) with (c :: repeat c m).
      rewrite repeat_cons, app_assoc, <- Hm. reflexivity.
    + exists 0%nat. split; [ rewrite app_nil_r; reflexivity | exact E ].
Qed.

Lemma cut_trailing_spec (c : Z) (s : str) :
  exists m, s = cut_trailing c s ++ repeat c m /\
            endswith_char c (cut_trailing c s) = false.
Proof. apply cut_trailing_loop_spec. lia. Qed.

Lemma cut_trailing_keep (c : Z) (s : str) :
  endswith_char c s = false -> cut_trailing c s = s.
Proof.
  unfold cut_trailing. intros H.
  destruct (length s); cbn [cut_trailing_loop]; [ reflexivity | ].
  rewrite H. reflexivity.
Qed.

Lemma cut_trailing_snoc (c : Z) (s : str) :
  cut_trailing c (s ++ [c]) = cut_trailing c s.
Proof.
  unfold cut_trailing. rewrite length_app. cbn [length].
  rewrite Nat.add_1_r. cbn [cut_trailing_loop].
  rewrite endswith_char_snoc, Z.eqb_refl, removelast_last. reflexivity.
Qed.

Lemma py_index_0 {A : Type} (x : A) (l : list A) :
  py_index (x :: l) 0 = Ok x.
Proof.
  destruct (py_index_Ok_nth (x :: l) 0) as [a [Ha Hn]];
    [ cbn [length]; lia | ].
  cbn in Hn. injection Hn as <-. exact Ha.
Qed.

Lemma py_index_1 {A : Type} (x y : A) (l : list A) :
  py_index (x :: y :: l) 1 = Ok y.
Proof.
  destruct (py_index_Ok_nth (x :: y :: l) 1) as [a [Ha Hn]];
    [ cbn [length]; lia | ].
  cbn in Hn. injection Hn as <-. exact Ha.
Qed.

(** X27. [wrap_in_brackets] raises [IndexError] when [brackets] has fewer
    than two characters.  Otherwise it removes every leading
    [brackets[0]] and then every trailing [brackets[1]] of the string,
    what is left neither starting with the one nor ending with the other,
    and puts it between a literal "[" and "]" (whatever [brackets] is)
    with [space] blanks on each side. *)
Theorem wrap_in_brackets_shape (string brackets : str) (space : Z) :
  ((length brackets < 2)%nat ->
   wrap_in_brackets string brackets space = Raise IndexError) /\
  (forall b0 b1 rest, brackets = b0 :: b1 :: rest ->
   exists k m core,
     string = repeat b0 k ++ core ++ repeat b1 m /\
     hd_error (core ++ repeat b1 m) <> Some b0 /\
     endswith_char b1 core = false /\
     wrap_in_brackets string brackets space
     = Ok ([91%Z] ++ spaces space ++ core ++ spaces space ++ [93%Z])).
Proof.
  split.
  - intros Hlen. unfold wrap_in_brackets.
    destruct brackets as [| b0 [| b1 rest]].
    + reflexivity.
    + rewrite py_index_0. cbn [bind].
      rewrite py_index_out by (simpl; lia). reflexivity.
    + simpl in Hlen. lia.
  - intros b0 b1 rest ->. unfold wrap_in_brackets.
    rewrite py_index_0, py_index_1. cbn [bind].
    destruct (cut_leading_spec b0 string) as [k [Hk Hh]].
    destruct (cut_trailing_spec b1 (cut_leading b0 string)) as [m [Hm He]].
    exists k, m, (cut_trailing b1 (cut_leading b0 string)).
    split; [ rewrite <- Hm; exact Hk | ].
    split; [ rewrite <- Hm; exact Hh | ].
    split; [ exact He | reflexivity ].
Qed.

Lemma spaces_length (space : Z) :
  Z.of_nat (length (spaces space)) = Z.max space 0.
Proof. unfold spaces. rewrite repeat_length. lia. Qed.

Lemma spaces_nil (space : Z) : (space <= 0)%Z -> spaces space = [].
Proof.
  intros H. unfold spaces. replace (Z.to_nat space) with 0%nat by lia.
  reflexivity.
Qed.

Lemma spaces_pos (space : Z) :
  (0 < space)%Z -> spaces space = 32%Z :: spaces (space - 1).
Proof.
  intros H. unfold spaces.
  replace (Z.to_nat space) with (S (Z.to_nat (space - 1))) by lia.
  reflexivity.
Qed.

Lemma spaces_pos_end (space : Z) :
  (0 < space)%Z -> spaces space = spaces (space - 1) ++ [32%Z].
Proof.
  intros H. rewrite spaces_pos by exact H. unfold spaces.
  apply repeat_cons.
Qed.

(** X28. With the default brackets [wrap_in_brackets] never raises, and
    wrapping its own result again gives the same string when [space] is 0
    or less; with a positive [space] the second result is longer by
    [2 * space] characters. *)
Theorem wrap_in_brackets_twice (string : str) (space : Z) :
  exists once twice,
    wrap_in_brackets string (str_of "[]"%string) space = Ok once /\
    wrap_in_brackets once (str_of "[]"%string) space = Ok twice /\
    ((space <= 0)%Z -> twice = once) /\
    Z.of_nat (length twice)
    = (Z.of_nat (length once) + 2 * Z.max space 0)%Z.
Proof.
  destruct (wrap_in_brackets_shape string (str_of "[]"%string) space)
    as [_ H].
  destruct (H 91%Z 93%Z [] eq_refl) as (k & m & core & _ & Hh & He & Hw).
  set (once := [91%Z] ++ spaces space ++ core ++ spaces space ++ [93%Z])
    in *.
  assert (Hcut : cut_trailing 93
                   (cut_leading 91 once)
                 = spaces space ++ core ++ spaces space).
  { unfold once. cbn [app cut_leading]. rewrite Z.eqb_refl.
    destruct (Z_lt_le_dec 0 space) as [Hpos | Hneg].
    - rewrite cut_leading_keep
        by (rewrite (spaces_pos space Hpos); cbn [app hd_error];
            discriminate).
      rewrite !app_assoc. rewrite cut_trailing_snoc.
      apply cut_trailing_keep.
      rewrite (spaces_pos_end space Hpos) at 2.
      rewrite !app_assoc. apply endswith_char_snoc.
    - rewrite (spaces_nil space Hneg). cbn [app]. rewrite app_nil_r.
      rewrite cut_leading_keep.
      + rewrite cut_trailing_snoc. apply cut_trailing_keep. exact He.
      + destruct core as [| x t]; [ cbn; discriminate | ].
        cbn [app hd_error] in *. exact Hh. }
  exists once,
    ([91%Z] ++ spaces space ++ (spaces space ++ core ++ spaces space)
     ++ spaces space ++ [93%Z]).
  split; [ exact Hw | ]. split.
  - unfold wrap_in_brackets.
    change (str_of "[]"%string) with [91%Z; 93%Z].
    rewrite py_index_0, py_index_1. cbn [bind]. rewrite Hcut. reflexivity.
  - split.
    + intros Hneg. unfold once. rewrite (spaces_nil space Hneg).
      cbn [app]. rewrite !app_nil_r. reflexivity.
    + unfold once. rewrite !length_app. cbn [length].
      pose proof (spaces_length space). lia.
Qed.

(** *** [pretty_exponent] *)

Lemma replace_char (a b : Z) (s : str) :
  replace_from [a] [b] 0 s = map (fun x => if (x =? a)%Z then b else x) s.
Proof.
  induction s as [| x t IH]; [ reflexivity | ].
  cbn [replace_from startswith map length Nat.sub].
  destruct (x =? a)%Z.
  - destruct t; cbn [andb app]; rewrite IH; reflexivity.
  - cbn [andb]. rewrite IH. reflexivity.
Qed.

Lemma fold_map_table (tbl : list (Z * Z)) (s : str) :
  fold_left (fun s sub => str_replace s [fst sub] [snd sub]) tbl s
  = map (fun x => fold_left (fun y sub => if (y =? fst sub)%Z
                                          then snd sub else y) tbl x) s.
Proof.
  revert s. induction tbl as [| sub tbl IH]; intros s.
  - cbn [fold_left]. rewrite map_id. reflexivity.
  - cbn [fold_left]. rewrite IH. unfold str_replace.
    rewrite replace_char, map_map. reflexivity.
Qed.

Lemma make_exp_map (s : str) : make_exp s = map superscript s.
Proof. apply fold_map_table. Qed.

Lemma is_digit_range (x : Z) : is_digit x = true <-> (48 <= x <= 57)%Z.
Proof. unfold is_digit. rewrite andb_true_iff, !Z.leb_le. reflexivity. Qed.

Lemma superscript_not_caret (x : Z) : x <> caret -> superscript x <> caret.
Proof.
  unfold superscript, replace_table, caret. cbn [fold_left fst snd].
  intros Hx.
  repeat match goal with
         | |- context [(?a =? ?b)%Z] =>
             destruct (Z.eqb_spec a b); try lia
         end.
Qed.

Lemma all_digits_no_caret (d : str) : all_digits d -> no_caret d.
Proof.
  intros H Hin. unfold all_digits in H. rewrite Forall_forall in H.
  apply H in Hin. apply is_digit_range in Hin. unfold caret in Hin. lia.
Qed.

Lemma make_exp_no_caret (d : str) : no_caret d -> no_caret (make_exp d).
Proof.
  intros H Hin. rewrite make_exp_map in Hin. apply in_map_iff in Hin.
  destruct Hin as [x [Hx Hin]].
  apply (superscript_not_caret x); [ | exact Hx ].
  intros ->. exact (H Hin).
Qed.

Lemma no_caret_cons (x : Z) (s : str) :
  no_caret (x :: s) <-> x <> caret /\ no_caret s.
Proof.
  unfold no_caret. cbn [In]. split.
  - intros H. split; [ intros E; apply H; left; exact E
                     | intros E; apply H; right; exact E ].
  - intros [H1 H2] [E | E]; [ exact (H1 E) | exact (H2 E) ].
Qed.

Lemma no_caret_app (s t : str) :
  no_caret (s ++ t) <-> no_caret s /\ no_caret t.
Proof.
  unfold no_caret. rewrite in_app_iff. tauto.
Qed.

Lemma startswith_app (old r : str) : startswith (old ++ r) old = true.
Proof.
  induction old as [| o old IH]; [ reflexivity | ].
  cbn [app startswith]. rewrite Z.eqb_refl, IH. reflexivity.
Qed.

Lemma startswith_split (s old : str) :
  startswith s old = true -> exists r, s = old ++ r.
Proof.
  revert s. induction old as [| o old IH]; intros s H.
  - exists s. reflexivity.
  - destruct s as [| x t]; [ discriminate H | ].
    cbn [startswith] in H. apply andb_true_iff in H. destruct H as [E H].
    apply Z.eqb_eq in E. subst x. destruct (IH t H) as [r ->].
    exists r. reflexivity.
Qed.

Lemma replace_from_skip (old new u r : str) :
  replace_from old new (length u) (u ++ r) = replace_from old new 0 r.
Proof.
  induction u as [| x u IH]; [ reflexivity | ].
  cbn [length app replace_from]. exact IH.
Qed.

(** An occurrence of [old] at the start is replaced. *)
Lemma replace_from_hit (d new r : str) :
  replace_from (caret :: d) new 0 (caret :: d ++ r)
  = new ++ replace_from (caret :: d) new 0 r.
Proof.
  cbn [replace_from].
  change (caret :: d ++ r) with ((caret :: d) ++ r).
  rewrite startswith_app. cbn [length Nat.sub]. rewrite Nat.sub_0_r.
  rewrite replace_from_skip. reflexivity.
Qed.

(** A stretch without ["^"] holds no occurrence of a match. *)
Lemma replace_from_pass (d new u r : str) :
  no_caret u ->
  replace_from (caret :: d) new 0 (u ++ r)
  = u ++ replace_from (caret :: d) new 0 r.
Proof.
  induction u as [| x u IH]; intros Hu; [ reflexivity | ].
  apply no_caret_cons in Hu. destruct Hu as [Hx Hu].
  cbn [app replace_from startswith].
  replace (x =? caret)%Z with false
    by (symmetry; apply Z.eqb_neq; exact Hx).
  cbn [andb]. rewrite IH by exact Hu. reflexivity.
Qed.

Lemma covered_pass (M : list str) (u r : str) :
  no_caret u -> covered M r -> covered M (u ++ r).
Proof.
  induction u as [| x u IH]; intros Hu Hr; [ exact Hr | ].
  apply no_caret_cons in Hu. destruct Hu as [Hx Hu].
  cbn [app covered]. split; [ intros E; contradiction | ].
  apply IH; assumption.
Qed.

Lemma covered_suffix (M : list str) (u r : str) :
  covered M (u ++ r) -> covered M r.
Proof.
  induction u as [| x u IH]; intros H; [ exact H | ].
  cbn [app covered] in H. apply IH. apply H.
Qed.

Lemma covered_mono (M M' : list str) (s : str) :
  (forall m, In m M -> In m M') -> covered M s -> covered M' s.
Proof.
  intros Hsub. induction s as [| x t IH]; intros H; [ exact I | ].
  cbn [covered] in *. destruct H as [Hx Ht]. split; [ | exact (IH Ht) ].
  intros E. destruct (Hx E) as (d & r & Hin & Hd & Hr).
  exists d, r. split; [ apply Hsub; exact Hin | ]. split; assumption.
Qed.

Lemma covered_nil (s : str) : covered [] s -> no_caret s.
Proof.
  induction s as [| x t IH]; intros H.
  - intros [].
  - cbn [covered] in H. destruct H as [Hx Ht].
    apply no_caret_cons. split; [ | exact (IH Ht) ].
    intros E. destruct (Hx E) as (d & r & [] & _).
Qed.

Lemma digits_of_split (s : str) :
  exists r, s = digits_of s ++ r /\ all_digits (digits_of s) /\
            match r with
            | x :: _ => is_digit x = false
            | [] => True
            end.
Proof.
  induction s as [| x t IH].
  - exists []. split; [ reflexivity | ]. split; [ constructor | exact I ].
  - cbn [digits_of]. destruct (is_digit x) eqn:E.
    + destruct IH as (r & Hr & Hd & Hn). exists r.
      split; [ cbn [app]; f_equal; exact Hr | ].
      split; [ constructor; assumption | exact Hn ].
    + exists (x :: t). split; [ reflexivity | ].
      split; [ constructor | exact E ].
Qed.

Lemma findall_from_skip (u r : str) :
  findall_from (length u) (u ++ r) = findall_from 0 r.
Proof.
  induction u as [| x u IH]; [ reflexivity | ].
  cbn [length app findall_from]. exact IH.
Qed.

Lemma findall_from_pass (u r : str) :
  no_caret u -> findall_from 0 (u ++ r) = findall_from 0 r.
Proof.
  induction u as [| x u IH]; intros Hu; [ reflexivity | ].
  apply no_caret_cons in Hu. destruct Hu as [Hx Hu].
  cbn [app findall_from].
  replace (x =? caret)%Z with false
    by (symmetry; apply Z.eqb_neq; exact Hx).
  apply IH. exact Hu.
Qed.

(** The matches of the pattern cover every ["^"]. *)
Lemma findall_covered (n : nat) (s : str) :
  (length s <= n)%nat -> covered (findall_from 0 s) s.
Proof.
  revert s. induction n as [| n IH]; intros s Hlen.
  - destruct s; [ exact I | simpl in Hlen; lia ].
  - destruct s as [| x t]; [ exact I | ].
    cbn [length] in Hlen. cbn [findall_from covered].
    destruct (Z.eqb_spec x caret) as [-> | Hne].
    + destruct (digits_of_split t) as (r & Hr & Hd & _).
      cbn zeta. remember (digits_of t) as d eqn:Ed. subst t. split.
      * intros _. exists d, r.
        split; [ left; reflexivity | ]. split; [ exact Hd | reflexivity ].
      * rewrite findall_from_skip.
        apply covered_pass; [ apply all_digits_no_caret; exact Hd | ].
        apply (covered_mono (findall_from 0 r)).
        -- intros m Hm. right. exact Hm.
        -- apply IH. rewrite length_app in Hlen. lia.
    + split; [ intros E; contradiction | ].
      apply IH. lia.
Qed.

Lemma findall_shape (n : nat) (s : str) :
  (length s <= n)%nat ->
  Forall (fun m => exists d, m = caret :: d /\ all_digits d)
         (findall_from 0 s).
Proof.
  revert s. induction n as [| n IH]; intros s Hlen.
  - destruct s; [ constructor | simpl in Hlen; lia ].
  - destruct s as [| x t]; [ constructor | ].
    cbn [length] in Hlen. cbn [findall_from].
    destruct (x =? caret)%Z.
    + destruct (digits_of_split t) as (r & Hr & Hd & _).
      cbn zeta. remember (digits_of t) as d eqn:Ed. subst t. constructor.
      * exists d. split; [ reflexivity | exact Hd ].
      * rewrite findall_from_skip.
        apply IH. rewrite length_app in Hlen. lia.
    + apply IH. lia.
Qed.

(** Replacing the match [^d] keeps every other ["^"] covered. *)
Lemma replace_covered (d new : str) (M : list str) (n : nat) (s : str) :
  all_digits d -> no_caret new -> (length s <= n)%nat ->
  covered ((caret :: d) :: M) s ->
  covered M (replace_from (caret :: d) new 0 s).
Proof.
  intros Hd Hnew. revert s. induction n as [| n IH]; intros s Hlen Hc.
  - destruct s; [ exact I | simpl in Hlen; lia ].
  - destruct s as [| x t]; [ exact I | ].
    cbn [length] in Hlen.
    destruct (startswith (x :: t) (caret :: d)) eqn:E.
    + destruct (startswith_split _ _ E) as [r Hr].
      cbn [app] in Hr. injection Hr as -> ->.
      rewrite replace_from_hit.
      apply covered_pass; [ exact Hnew | ].
      apply IH.
      * rewrite length_app in Hlen. lia.
      * cbn [covered] in Hc. destruct Hc as [_ Hc].
        exact (covered_suffix _ _ _ Hc).
    + cbn [replace_from]. rewrite E.
      cbn [covered] in Hc. destruct Hc as [Hx Ht].
      cbn [covered]. split; [ | apply IH; [ lia | exact Ht ] ].
      intros ->. destruct (Hx eq_refl) as (d' & r & Hin & Hd' & Hr).
      subst t. destruct Hin as [Hm | Hin].
      * injection Hm as <-.
        change (caret :: d ++ r) with ((caret :: d) ++ r) in E.
        rewrite startswith_app in E. discriminate E.
      * exists d', (replace_from (caret :: d) new 0 r).
        split; [ exact Hin | ]. split; [ exact Hd' | ].
        apply replace_from_pass. apply all_digits_no_caret. exact Hd'.
Qed.

Lemma exponent_fold_no_caret (M : list str) (s : str) :
  Forall (fun m => exists d, m = caret :: d /\ all_digits d) M ->
  covered M s ->
  no_caret (fold_left (fun s m => str_replace s m (make_exp (tl m))) M s).
Proof.
  revert s. induction M as [| m M IH]; intros s Hshape Hc.
  - cbn [fold_left]. apply covered_nil. exact Hc.
  - cbn [fold_left]. inversion Hshape as [| m' M' [d [-> Hd]] HM]; subst.
    apply IH; [ exact HM | ].
    cbn [tl str_replace].
    apply (replace_covered d (make_exp d) M (length s)).
    + exact Hd.
    + apply make_exp_no_caret. apply all_digits_no_caret. exact Hd.
    + lia.
    + exact Hc.
Qed.

Lemma cut_leading_no_caret (c : Z) (s : str) :
  no_caret s -> no_caret (cut_leading c s).
Proof.
  intros H. destruct (cut_leading_spec c s) as [k [Hk _]].
  rewrite Hk in H. apply no_caret_app in H. apply H.
Qed.

Lemma cut_trailing_no_caret (c : Z) (s : str) :
  no_caret s -> no_caret (cut_trailing c s).
Proof.
  intros H. destruct (cut_trailing_spec c s) as [m [Hm _]].
  rewrite Hm in H. apply no_caret_app in H. apply H.
Qed.

(** X29. The result of [pretty_exponent] holds no "^", whatever the
    string; a string without "^" is returned as it is; and [pretty_unit]
    never raises and returns "[ ", a text without "^", and " ]". *)
Theorem pretty_exponent_no_caret (string : str) :
  no_caret (pretty_exponent string) /\
  (no_caret string -> pretty_exponent string = string) /\
  exists core,
    pretty_unit string = Ok ([91; 32]%Z ++ core ++ [32; 93]%Z) /\
    no_caret core.
Proof.
  assert (H1 : no_caret (pretty_exponent string)).
  { unfold pretty_exponent. apply exponent_fold_no_caret.
    - apply (findall_shape (length string)). lia.
    - apply (findall_covered (length string)). lia. }
  split; [ exact H1 | ]. split.
  - intros Hn. unfold pretty_exponent.
    rewrite <- (app_nil_r string) at 1.
    rewrite findall_from_pass by exact Hn. reflexivity.
  - unfold pretty_unit, wrap_in_brackets.
    change (str_of "[]"%string) with [91%Z; 93%Z].
    rewrite py_index_0, py_index_1. cbn [bind].
    eexists. split; [ reflexivity | ].
    apply cut_trailing_no_caret, cut_leading_no_caret. exact H1.
Qed.

(** X30. On a string with one "^", followed by the digits [d] and then by
    something that is not a digit, [pretty_exponent] drops the "^" and
    replaces each digit of [d] by its superscript, leaving the rest of the
    string as it is. *)
Theorem pretty_exponent_single (a d r : str) :
  no_caret a -> all_digits d -> no_caret r ->
  match r with
  | x :: _ => is_digit x = false
  | [] => True
  end ->
  pretty_exponent (a ++ caret :: d ++ r) = a ++ map superscript d ++ r.
Proof.
  intros Ha Hd Hr Hstop.
  assert (Hdig : digits_of (d ++ r) = d).
  { induction Hd as [| x d Hx Hd IH].
    - destruct r as [| y r']; [ reflexivity | ].
      cbn [app digits_of]. rewrite Hstop. reflexivity.
    - cbn [app digits_of]. rewrite Hx, IH. reflexivity. }
  assert (Hfind : findall_from 0 (a ++ caret :: d ++ r) = [caret :: d]).
  { rewrite findall_from_pass by exact Ha.
    cbn [findall_from]. rewrite Z.eqb_refl. cbn zeta.
    rewrite Hdig, findall_from_skip.
    rewrite <- (app_nil_r r), findall_from_pass by exact Hr.
    reflexivity. }
  unfold pretty_exponent. rewrite Hfind. cbn [fold_left tl str_replace].
  rewrite replace_from_pass by exact Ha.
  rewrite replace_from_hit.
  rewrite <- (app_nil_r r) at 1. rewrite replace_from_pass by exact Hr.
  cbn [replace_from]. rewrite app_nil_r, make_exp_map. reflexivity.
Qed.

Lemma pretty_exponent_single_witness :
  pretty_exponent ([109%Z] ++ caret :: [50%Z] ++ [47%Z; 115%Z])
  = [109%Z] ++ map superscript [50%Z] ++ [47%Z; 115%Z].
Proof.
  apply (pretty_exponent_single [109%Z] [50%Z] [47%Z; 115%Z]).
  - intros H. simpl in H. unfold caret in H. intuition discriminate.
  - constructor; [ reflexivity | constructor ].
  - intros H. simpl in H. unfold caret in H. intuition discriminate.
  - reflexivity.
Defined.
